(** * Boost.Fiber core: wait-queue, condition variable, unbuffered channel,
      broadcast sink.

    A shallow embedding of
      - [detail::context_slist]            (context_slist.hpp),
      - [condition_variable_any::notify_*] (condition_variable.cpp),
      - [unbuffered_channel<T>]            (unbuffered_channel.hpp),
      - [asio::detail::broadcast]          (broadcast.hpp),
    together with the properties stated about them. *)

From stdpp Require Import base option list gmap.

Set Default Proof Using "Type".

(** A [context *] is identified by the address of the fiber control block;
    [None] stands for [nullptr]. *)
Definition context := nat.

(* ===================================================================== *)
(** * [detail::context_slist< Context >] *)
(* ===================================================================== *)

Module context_slist.

(** The embedded link fields: [next_of !! c] is [c->next], an absent key is
    a [nullptr] link.  The links live in the contexts, not in the queue, so
    every queue operation passes this store along. *)
Abbreviation links := (gmap context context).

(** A [Context **]: the address of the queue's own [head_] member or of the
    [next] field of some context. *)
Inductive cell :=
| head_cell
| next_cell (c : context).

Record t := mk {
  head_ : option context;     (* Context *  head_{ nullptr }; *)
  tail_ : cell;               (* Context ** tail_{ & head_ }; *)
}.

(** The freshly constructed queue. *)
Definition init : t := {| head_ := None; tail_ := head_cell |}.

(** [* p] *)
Definition deref (q : t) (next_of : links) (p : cell) : option context :=
  match p with
  | head_cell => head_ q
  | next_cell c => next_of !! c
  end.

(** [c->next = v] *)
Definition set_next (c : context) (v : option context) (next_of : links) : links :=
  match v with
  | Some n => <[c := n]> next_of
  | None => delete c next_of
  end.

(** [* p = v] *)
Definition assign (q : t) (next_of : links) (p : cell) (v : option context)
  : t * links :=
  match p with
  | head_cell => ({| head_ := v; tail_ := tail_ q |}, next_of)
  | next_cell c => (q, set_next c v next_of)
  end.

(** [bool empty() const noexcept] *)
Definition empty (q : t) : bool := bool_decide (None = head_ q).

(** [void push( Context * c) noexcept] *)
Definition push (c : context) (q : t) (next_of : links) : t * links :=
  match deref q next_of (tail_ q) with
  | None =>
      (* * tail_ = c; *)
      assign q next_of (tail_ q) (Some c)
  | Some last =>
      (* ( * tail_)->next = c; *)
      let next_of' := set_next last (Some c) next_of in
      (* tail_ = & ( * tail_)->next; *)
      match deref q next_of' (tail_ q) with
      | Some last' => ({| head_ := head_ q; tail_ := next_cell last' |}, next_of')
      | None => (q, next_of')
      end
  end.

(** [Context * pop() noexcept] *)
Definition pop (q : t) (next_of : links) : option context * t :=
  let c := head_ q in
  match head_ q with
  | Some h => (c, {| head_ := next_of !! h; tail_ := tail_ q |})
  | None => (c, q)
  end.

(** The walk of [unlink]: [while ( c != ( * indirect) ) indirect = & ( * indirect)->next;].
    The walk dereferences [* indirect]; on a [nullptr] it has no defined
    behaviour, and on a cyclic chain it does not end: both give [None]. *)
Fixpoint unlink_walk (fuel : nat) (c : context) (q : t) (next_of : links)
    (indirect : cell) : option cell :=
  match fuel with
  | 0 => None
  | S fuel' =>
      match deref q next_of indirect with
      | None => None
      | Some x =>
          if decide (c = x) then Some indirect
          else unlink_walk fuel' c q next_of (next_cell x)
      end
  end.

(** [void unlink( Context * c) noexcept] *)
Definition unlink (fuel : nat) (c : context) (q : t) (next_of : links)
  : option (t * links) :=
  match head_ q with
  | None => None                                   (* BOOST_ASSERT( nullptr != head_) *)
  | Some _ =>
      match unlink_walk fuel c q next_of head_cell with
      | None => None
      | Some indirect =>
          (* * indirect = c->next; *)
          let '(q', next_of') := assign q next_of indirect (next_of !! c) in
          (* c->next = nullptr; *)
          Some (q', set_next c None next_of')
      end
  end.

(** The loop [while ( nullptr != ( ctx = q.pop() ) ) { ... }]: the contexts
    popped, in order, and the queue the loop leaves.  [fuel] bounds the
    number of rounds; [None]: the loop has not ended within [fuel] rounds,
    as on a chain that runs in a circle. *)
Fixpoint pop_each (fuel : nat) (q : t) (next_of : links)
  : option (list context * t) :=
  match fuel with
  | 0 => None
  | S fuel' =>
      match pop q next_of with
      | (None, q') => Some ([], q')
      | (Some ctx, q') =>
          match pop_each fuel' q' next_of with
          | None => None
          | Some (woken, rest) => Some (ctx :: woken, rest)
          end
      end
  end.

(** The queue once its contexts have all been popped: [head_] is
    [nullptr], and [tail_] is where it was, since [pop] does not move it. *)
Definition drained (q : t) : t := {| head_ := None; tail_ := tail_ q |}.

(** ** Running a sequence of operations *)

Inductive op :=
| Push (c : context)
| Pop.

(** The queue, the links, and what the pops returned so far (oldest first). *)
Definition run_op (o : op) (st : t * links * list (option context))
  : t * links * list (option context) :=
  let '(q, next_of, out) := st in
  match o with
  | Push c => let '(q', next_of') := push c q next_of in (q', next_of', out)
  | Pop => let '(r, q') := pop q next_of in (q', next_of, out ++ [r])
  end.

Definition run (os : list op) (st : t * links * list (option context))
  : t * links * list (option context) :=
  foldl (fun st o => run_op o st) st os.

(** The reference behaviour of a FIFO on the same operations: the contexts
    still queued (oldest first) and what the pops return. *)
Definition fifo_op (o : op) (st : list context * list (option context))
  : list context * list (option context) :=
  let '(l, out) := st in
  match o with
  | Push c => (l ++ [c], out)
  | Pop => match l with
           | [] => ([], out ++ [None])
           | c :: l' => (l', out ++ [Some c])
           end
  end.

Definition fifo_run (os : list op) : list context * list (option context) :=
  foldl (fun st o => fifo_op o st) ([], []) os.

(** The contexts of [l] are linked in this order, the last one to nothing. *)
Fixpoint chained (next_of : links) (l : list context) : Prop :=
  match l with
  | [] => True
  | x :: l' => next_of !! x = head l' /\ chained next_of l'
  end.

(** The queue holds [l], oldest first, and [tail_] is where [push] needs
    it: at the cell that points to the last context, which is [head_] when
    the queue is empty. *)
Definition holds (q : t) (next_of : links) (l : list context) : Prop :=
  NoDup l
  /\ chained next_of l
  /\ head_ q = head l
  /\ deref q next_of (tail_ q) = last l
  /\ (forall z, last l = Some z -> tail_ q <> next_cell z)
  /\ (l = [] -> tail_ q = head_cell).

(** What [pop] and [unlink] see of the queue: [l] is the chain that starts
    at [head_]. *)
Definition listed (q : t) (next_of : links) (l : list context) : Prop :=
  chained next_of l /\ head_ q = head l.

(** The reference FIFO, from any contents. *)
Definition fifo_from (st : list context * list (option context)) (os : list op)
  : list context * list (option context) :=
  foldl (fun st o => fifo_op o st) st os.

(** The contexts that [os] pushes, in order. *)
Fixpoint pushed (os : list op) : list context :=
  match os with
  | [] => []
  | Push c :: os => c :: pushed os
  | Pop :: os => pushed os
  end.

(** With [n] contexts queued at the start, every [Pop] of [os] finds at
    least two queued: no [Pop] empties the queue. *)
Fixpoint never_drains (n : nat) (os : list op) : bool :=
  match os with
  | [] => true
  | Push _ :: os => never_drains (S n) os
  | Pop :: os => bool_decide (2 <= n) && never_drains (pred n) os
  end.

End context_slist.


(* ===================================================================== *)
(** * The chain of a wait-queue *)
(* ===================================================================== *)

Module wait_queue.

(** The contexts of a [context_slist] from [head_] on, oldest first, when
    the chain ends in a [nullptr] link: all that [pop] looks at.  [pop]
    returns [head_] and moves [head_] to the link of that context; it reads
    neither [tail_] nor another link (lemma [slist_pop_is_chain_pop]).
    Member functions that only pop, as [notify_one] and [notify_all] do,
    are given on this chain. *)
Definition t := list context.

Definition empty (q : t) : bool :=
  match q with
  | [] => true
  | _ :: _ => false
  end.

Definition pop (q : t) : option context * t :=
  match q with
  | [] => (None, [])
  | c :: q' => (Some c, q')
  end.

(** The loop [while ( nullptr != ( ctx = q.pop() ) ) { set_ready( ctx); }]
    that [notify_all()] runs: the contexts handed to [set_ready], in order,
    and the chain the loop leaves behind. *)
Fixpoint pop_each (q : t) : list context * t :=
  match q with
  | [] => ([], [])
  | ctx :: q' => let '(woken, rest) := pop_each q' in (ctx :: woken, rest)
  end.

End wait_queue.

Module channel_op_status.
(** Modelled from the spec: [enum class channel_op_status] is declared in
    boost/fiber/channel_op_status.hpp, which is not among the sources; the
    spec lists [success], [empty] (reserved), [full] (reserved), [closed],
    [timeout]. *)
Inductive t :=
| success
| empty
| full
| closed
| timeout.
End channel_op_status.

(** [std::errc], the values that Boost.Fiber reports; the channel uses
    [operation_not_permitted]. *)
Inductive errc : Set :=
| operation_not_permitted
| resource_deadlock_would_occur
| invalid_argument
| resource_unavailable_try_again.

(** Modelled from the spec: [fiber_error] is declared in
    boost/fiber/exceptions.hpp, which is not among the sources; it is the
    typed error that carries an error code. *)
Record fiber_error : Set := mk_fiber_error { code : errc }.

(** A point of [std::chrono::steady_clock]. *)
Definition time_point := nat.

(* ===================================================================== *)
(** * [unbuffered_channel< T >] *)
(* ===================================================================== *)

Module unbuffered_channel.

(** Where a fiber is suspended. *)
Inductive wait_point :=
| slot_published      (* "suspend till value has been consumed" *)
| producer_queued     (* "suspend this producer": in waiting_producers_ *)
| consumer_queued.    (* "suspend this consumer": in waiting_consumers_ *)

(** Modelled from the spec: [context::set_ready], [context::suspend] and
    [context::wait_until] are declared in boost/fiber/context.hpp, which is
    not among the sources.
    - [set_ready( ctx)] appends [ctx] to the ready queue of its scheduler: a
      transition comes with the list of contexts it made ready, in order.
    - [suspend( lk)] releases [lk] and switches away; the call returns when
      another fiber has made this one ready.  [wait_until( tp, lk)] does the
      same with a deadline and returns [true] for an explicit wake and
      [false] when the deadline fired.  A transition that reaches one of them
      ends in [Suspended]; what the fiber does when it runs again is the
      [resume] function of the operation, applied to the channel as it is
      then.
    The spinlock [splk_] is taken and released inside one transition (by
    [suspend]/[wait_until], by [unlock()], or at the end of the scope of [lk]),
    so it carries no state from one transition to the next. *)
Inductive outcome (R : Type) :=
| Returned (r : R)                       (* return r; *)
| Continue                                (* next round of for (;;) *)
| Suspended (w : wait_point) (deadline : option time_point).
Arguments Returned {R} r.
Arguments Continue {R}.
Arguments Suspended {R} w deadline.

Section channel.
Variable value_type : Type.

(** [struct slot] *)
Record slot := mk_slot {
  value : value_type;
  ctx : context;
}.

(** [slot( value_type const& value_, context * ctx_)]: the slot and what
    the caller's object holds afterwards. *)
Definition slot_copy (value_ : value_type) (ctx_ : context)
  : slot * option value_type :=
  ({| value := value_; ctx := ctx_ |}, Some value_).

(** [slot( value_type && value_, context * ctx_)]: the value is moved out
    of the caller's object. *)
Definition slot_move (value_ : value_type) (ctx_ : context)
  : slot * option value_type :=
  ({| value := value_; ctx := ctx_ |}, None).

(** A non-null [slot *]: the address of a producer's local [s], and the
    slot found there. *)
Record slot_ptr := address_of {
  addr : nat;
  pointee : slot;
}.

(** The members of the channel.  The two wait-queues are
    [context_slist]s: [head_] and [tail_] are members of the queue, the
    links are the [next] fields of the contexts.  Those fields are kept
    here with the channel, [next_of], as the queue operations of the
    member functions read and write them. *)
Record t := mk {
  slot_ : option slot_ptr;               (* std::atomic< slot * > slot_{ nullptr } *)
  closed_ : bool;                        (* std::atomic_bool closed_{ false } *)
  waiting_producers_ : context_slist.t;
  waiting_consumers_ : context_slist.t;
  next_of : context_slist.links;         (* c |-> c->next *)
}.

(** [unbuffered_channel() = default], among contexts linked as [links]
    tells. *)
Definition init (links : context_slist.links) : t :=
  {| slot_ := None; closed_ := false;
     waiting_producers_ := context_slist.init;
     waiting_consumers_ := context_slist.init;
     next_of := links |}.

Definition set_slot_ (p : option slot_ptr) (ch : t) : t :=
  {| slot_ := p; closed_ := closed_ ch;
     waiting_producers_ := waiting_producers_ ch;
     waiting_consumers_ := waiting_consumers_ ch;
     next_of := next_of ch |}.

Definition set_closed_ (b : bool) (ch : t) : t :=
  {| slot_ := slot_ ch; closed_ := b;
     waiting_producers_ := waiting_producers_ ch;
     waiting_consumers_ := waiting_consumers_ ch;
     next_of := next_of ch |}.

(** What a call on [waiting_producers_] leaves: the queue and the links. *)
Definition set_waiting_producers_ (q : context_slist.t)
    (links : context_slist.links) (ch : t) : t :=
  {| slot_ := slot_ ch; closed_ := closed_ ch;
     waiting_producers_ := q;
     waiting_consumers_ := waiting_consumers_ ch;
     next_of := links |}.

(** What a call on [waiting_consumers_] leaves: the queue and the links. *)
Definition set_waiting_consumers_ (q : context_slist.t)
    (links : context_slist.links) (ch : t) : t :=
  {| slot_ := slot_ ch; closed_ := closed_ ch;
     waiting_producers_ := waiting_producers_ ch;
     waiting_consumers_ := q;
     next_of := links |}.

(** Equality of two [slot *]. *)
Definition same_slot (p q : option slot_ptr) : bool :=
  match p, q with
  | None, None => true
  | Some a, Some b => bool_decide (addr a = addr b)
  | _, _ => false
  end.

(** [slot_.compare_exchange_strong( expected, desired, acq_rel)] *)
Definition compare_exchange_strong (expected desired : option slot_ptr) (ch : t)
  : bool * t :=
  if same_slot (slot_ ch) expected then (true, set_slot_ desired ch)
  else (false, ch).

(** [bool is_empty_()] *)
Definition is_empty_ (ch : t) : bool :=
  match slot_ ch with
  | None => true
  | Some _ => false
  end.

(** [bool try_push_( slot * own_slot)].  The exchange after a load of
    [nullptr] fails only if another thread stored in between, and the
    loop then loads again: the call takes effect at its last load. *)
Definition try_push_ (own_slot : slot_ptr) (ch : t) : bool * t :=
  match slot_ ch with
  | None => (true, set_slot_ (Some own_slot) ch)
  | Some _ => (false, ch)
  end.

(** [slot * try_pop_()], likewise. *)
Definition try_pop_ (ch : t) : option slot_ptr * t :=
  match slot_ ch with
  | Some s => (Some s, set_slot_ None ch)
  | None => (None, ch)
  end.

(** [bool is_closed() const noexcept] *)
Definition is_closed (ch : t) : bool := closed_ ch.

(** [void close() noexcept]: the channel and the contexts made ready.
    [fuel] bounds the rounds of each of the two loops; [None]: a loop has not
    ended within that many rounds. *)
Definition close (fuel : nat) (ch : t) : option (t * list context) :=
  let ch := set_closed_ true ch in
  (* notify all waiting producers *)
  match context_slist.pop_each fuel (waiting_producers_ ch) (next_of ch) with
  | None => None
  | Some (producers, q) =>
      let ch := set_waiting_producers_ q (next_of ch) ch in
      (* notify all waiting consumers *)
      match context_slist.pop_each fuel (waiting_consumers_ ch) (next_of ch) with
      | None => None
      | Some (consumers, q) =>
          let ch := set_waiting_consumers_ q (next_of ch) ch in
          Some (ch, producers ++ consumers)
      end
  end.

(** [~unbuffered_channel()] *)
Definition destructor (fuel : nat) (ch : t) : option (t * list context) :=
  match close fuel ch with
  | None => None
  | Some (ch, ready) =>
      let '(s, ch) := try_pop_ ch in
      match s with
      | Some s => Some (ch, ready ++ [ctx (pointee s)])
      | None => Some (ch, ready)
      end
  end.

(** What [set_ready] is called on after an optional [pop()]. *)
Definition notified (c : option context) : list context :=
  match c with
  | Some c => [c]
  | None => []
  end.

(** One transition: what the fiber does next, the channel it leaves, and
    the contexts it made ready.  A round of a loop runs without suspending;
    the fibers of one scheduler see it as one transition.  The blocks that
    run under the spinlock are given on their own as well, for the threads
    of other schedulers that act between [try_push_]/[try_pop_] and the
    lock. *)
Definition step (R : Type) : Type := outcome R * t * list context.

(** ** [channel_op_status push( value_type const& value)]

    The block after [try_push_( & s)] has published the slot (lines 139-148),
    up to the suspension. *)
Definition push_copy_published (active_ctx : context) (ch : t)
  : step channel_op_status.t :=
  (* notify one waiting consumer *)
  let '(consumer_ctx, q) :=
    context_slist.pop (waiting_consumers_ ch) (next_of ch) in
  let ch := set_waiting_consumers_ q (next_of ch) ch in
  (* suspend till value has been consumed *)
  (Suspended slot_published None, ch, notified consumer_ctx).

(** The block after [try_push_( & s)] has found the slot taken (lines 150-160). *)
Definition push_copy_occupied (active_ctx : context) (ch : t)
  : step channel_op_status.t :=
  if is_closed ch then
    (Returned channel_op_status.closed, ch, [])
  else if is_empty_ ch then
    (Continue, ch, [])
  else
    let '(q, links) :=
      context_slist.push active_ctx (waiting_producers_ ch) (next_of ch) in
    let ch := set_waiting_producers_ q links ch in
    (* suspend this producer *)
    (Suspended producer_queued None, ch, []).

(** One round of the [for (;;)] loop, up to the [return], the [continue] or
    the suspension; [s] is [& s]. *)
Definition push_copy_iter (active_ctx : context) (s : slot_ptr) (ch : t)
  : step channel_op_status.t :=
  if is_closed ch then
    (Returned channel_op_status.closed, ch, [])
  else
    let '(published, ch) := try_push_ s ch in
    if published then push_copy_published active_ctx ch
    else push_copy_occupied active_ctx ch.

(** After [suspend( lk)] has returned. *)
Definition push_copy_resume (w : wait_point) (ch : t) : step channel_op_status.t :=
  match w with
  | slot_published =>
      (* resumed, value has been consumed *)
      (Returned channel_op_status.success, ch, [])
  | _ =>
      (* resumed, slot mabye free *)
      (Continue, ch, [])
  end.

(** ** [channel_op_status push( value_type && value)]

    The block after [try_push_( & s)] has published the slot (lines 173-182),
    up to the suspension. *)
Definition push_move_published (active_ctx : context) (ch : t)
  : step channel_op_status.t :=
  (* notify one waiting consumer *)
  let '(consumer_ctx, q) :=
    context_slist.pop (waiting_consumers_ ch) (next_of ch) in
  let ch := set_waiting_consumers_ q (next_of ch) ch in
  (* suspend till value has been consumed *)
  (Suspended slot_published None, ch, notified consumer_ctx).

(** The block after [try_push_( & s)] has found the slot taken (lines 184-194). *)
Definition push_move_occupied (active_ctx : context) (ch : t)
  : step channel_op_status.t :=
  if is_closed ch then
    (Returned channel_op_status.closed, ch, [])
  else if is_empty_ ch then
    (Continue, ch, [])
  else
    let '(q, links) :=
      context_slist.push active_ctx (waiting_producers_ ch) (next_of ch) in
    let ch := set_waiting_producers_ q links ch in
    (* suspend this producer *)
    (Suspended producer_queued None, ch, []).

(** One round of the [for (;;)] loop, up to the [return], the [continue] or
    the suspension; [s] is [& s]. *)
Definition push_move_iter (active_ctx : context) (s : slot_ptr) (ch : t)
  : step channel_op_status.t :=
  if is_closed ch then
    (Returned channel_op_status.closed, ch, [])
  else
    let '(published, ch) := try_push_ s ch in
    if published then push_move_published active_ctx ch
    else push_move_occupied active_ctx ch.

(** After [suspend( lk)] has returned. *)
Definition push_move_resume (w : wait_point) (ch : t) : step channel_op_status.t :=
  match w with
  | slot_published =>
      (* resumed, value has been consumed *)
      (Returned channel_op_status.success, ch, [])
  | _ =>
      (* resumed, slot mabye free *)
      (Continue, ch, [])
  end.

(** ** [channel_op_status push_wait_until( value_type const& value, timeout_time_)]

    The block after [try_push_( & s)] has published the slot (lines 224-239),
    up to the suspension. *)
Definition push_wait_until_copy_published (active_ctx : context) (timeout_time : time_point) (ch : t)
  : step channel_op_status.t :=
  (* notify one waiting consumer *)
  let '(consumer_ctx, q) :=
    context_slist.pop (waiting_consumers_ ch) (next_of ch) in
  let ch := set_waiting_consumers_ q (next_of ch) ch in
  (* suspend this producer *)
  (Suspended slot_published (Some timeout_time), ch, notified consumer_ctx).

(** The block after [try_push_( & s)] has found the slot taken (lines 241-257),
    up to the suspension. *)
Definition push_wait_until_copy_occupied (active_ctx : context) (timeout_time : time_point) (ch : t)
  : step channel_op_status.t :=
  if is_closed ch then
    (Returned channel_op_status.closed, ch, [])
  else if is_empty_ ch then
    (Continue, ch, [])
  else
    let '(q, links) :=
      context_slist.push active_ctx (waiting_producers_ ch) (next_of ch) in
    let ch := set_waiting_producers_ q links ch in
    (* suspend this producer *)
    (Suspended producer_queued (Some timeout_time), ch, []).

(** One round of the [for (;;)] loop, up to the [return], the [continue] or
    the suspension; [s] is [& s]. *)
Definition push_wait_until_copy_iter (active_ctx : context) (s : slot_ptr) (timeout_time : time_point) (ch : t)
  : step channel_op_status.t :=
  if is_closed ch then
    (Returned channel_op_status.closed, ch, [])
  else
    let '(published, ch) := try_push_ s ch in
    if published then push_wait_until_copy_published active_ctx timeout_time ch
    else push_wait_until_copy_occupied active_ctx timeout_time ch.

(** After [wait_until( timeout_time, lk)] has returned [woken].  [fuel]
    bounds the walk of [unlink]; [None]: [unlink] has no defined result (its
    assertion fails, or it dereferences [nullptr]), or its walk has not
    ended within [fuel] steps. *)
Definition push_wait_until_copy_resume (fuel : nat) (active_ctx : context)
    (s : slot_ptr) (w : wait_point) (woken : bool) (ch : t)
  : option (step channel_op_status.t) :=
  match w with
  | slot_published =>
      if negb woken then
        (* clear slot *)
        let nil_slot := None in
        let own_slot := Some s in
        let '(_, ch) := compare_exchange_strong own_slot nil_slot ch in
        (* resumed, value has not been consumed *)
        Some (Returned channel_op_status.timeout, ch, [])
      else
        (* resumed, value has been consumed *)
        Some (Returned channel_op_status.success, ch, [])
  | _ =>
      if negb woken then
        (* relock local lk; remove from waiting-queue *)
        match context_slist.unlink fuel active_ctx
                (waiting_producers_ ch) (next_of ch) with
        | None => None
        | Some (q, links) =>
            let ch := set_waiting_producers_ q links ch in
            Some (Returned channel_op_status.timeout, ch, [])
        end
      else
        (* resumed, slot maybe free *)
        Some (Continue, ch, [])
  end.

(** ** [channel_op_status push_wait_until( value_type && value, timeout_time_)]

    The block after [try_push_( & s)] has published the slot (lines 273-288),
    up to the suspension. *)
Definition push_wait_until_move_published (active_ctx : context) (timeout_time : time_point) (ch : t)
  : step channel_op_status.t :=
  (* notify one waiting consumer *)
  let '(consumer_ctx, q) :=
    context_slist.pop (waiting_consumers_ ch) (next_of ch) in
  let ch := set_waiting_consumers_ q (next_of ch) ch in
  (* suspend this producer *)
  (Suspended slot_published (Some timeout_time), ch, notified consumer_ctx).

(** The block after [try_push_( & s)] has found the slot taken (lines 290-306),
    up to the suspension. *)
Definition push_wait_until_move_occupied (active_ctx : context) (timeout_time : time_point) (ch : t)
  : step channel_op_status.t :=
  if is_closed ch then
    (Returned channel_op_status.closed, ch, [])
  else if is_empty_ ch then
    (Continue, ch, [])
  else
    let '(q, links) :=
      context_slist.push active_ctx (waiting_producers_ ch) (next_of ch) in
    let ch := set_waiting_producers_ q links ch in
    (* suspend this producer *)
    (Suspended producer_queued (Some timeout_time), ch, []).

(** One round of the [for (;;)] loop, up to the [return], the [continue] or
    the suspension; [s] is [& s]. *)
Definition push_wait_until_move_iter (active_ctx : context) (s : slot_ptr) (timeout_time : time_point) (ch : t)
  : step channel_op_status.t :=
  if is_closed ch then
    (Returned channel_op_status.closed, ch, [])
  else
    let '(published, ch) := try_push_ s ch in
    if published then push_wait_until_move_published active_ctx timeout_time ch
    else push_wait_until_move_occupied active_ctx timeout_time ch.

(** After [wait_until( timeout_time, lk)] has returned [woken]; [fuel] and
    [None] as for the other overload. *)
Definition push_wait_until_move_resume (fuel : nat) (active_ctx : context)
    (s : slot_ptr) (w : wait_point) (woken : bool) (ch : t)
  : option (step channel_op_status.t) :=
  match w with
  | slot_published =>
      if negb woken then
        (* clear slot *)
        let nil_slot := None in
        let own_slot := Some s in
        let '(_, ch) := compare_exchange_strong own_slot nil_slot ch in
        (* resumed, value has not been consumed *)
        Some (Returned channel_op_status.timeout, ch, [])
      else
        (* resumed, value has been consumed *)
        Some (Returned channel_op_status.success, ch, [])
  | _ =>
      if negb woken then
        (* relock local lk; remove from waiting-queue *)
        match context_slist.unlink fuel active_ctx
                (waiting_producers_ ch) (next_of ch) with
        | None => None
        | Some (q, links) =>
            let ch := set_waiting_producers_ q links ch in
            Some (Returned channel_op_status.timeout, ch, [])
        end
      else
        (* resumed, slot maybe free *)
        Some (Continue, ch, [])
  end.

(** ** [channel_op_status pop( value_type & value)]

    [value_] is what the caller's object holds on entry; a [return] comes
    with what it holds then.

    The block after [try_pop_()] has claimed the slot [s] (lines 316-329). *)
Definition pop_claimed (active_ctx : context) (s : slot_ptr) (ch : t)
  : step (channel_op_status.t * value_type) :=
  (* notify one waiting producer *)
  let '(producer_ctx, q) :=
    context_slist.pop (waiting_producers_ ch) (next_of ch) in
  let ch := set_waiting_producers_ q (next_of ch) ch in
  (* consume value *)
  let value_ := value (pointee s) in
  (* resume suspended producer *)
  (Returned (channel_op_status.success, value_), ch,
   notified producer_ctx ++ [ctx (pointee s)]).

(** The block after [try_pop_()] has found no slot (lines 331-341). *)
Definition pop_vacant (active_ctx : context) (value_ : value_type) (ch : t)
  : step (channel_op_status.t * value_type) :=
  if is_closed ch then
    (Returned (channel_op_status.closed, value_), ch, [])
  else if negb (is_empty_ ch) then
    (Continue, ch, [])
  else
    let '(q, links) :=
      context_slist.push active_ctx (waiting_consumers_ ch) (next_of ch) in
    let ch := set_waiting_consumers_ q links ch in
    (* suspend this consumer *)
    (Suspended consumer_queued None, ch, []).

(** One round of the [for (;;)] loop. *)
Definition pop_iter (active_ctx : context) (value_ : value_type) (ch : t)
  : step (channel_op_status.t * value_type) :=
  let '(s, ch) := try_pop_ ch in
  match s with
  | Some s => pop_claimed active_ctx s ch
  | None => pop_vacant active_ctx value_ ch
  end.

Definition pop_resume (ch : t) : step (channel_op_status.t * value_type) :=
  (* resumed, slot mabye set *)
  (Continue, ch, []).

(** What [value_pop] ends in. *)
Inductive popped :=
| returns (v : value_type)          (* return std::move( value); *)
| throws (e : fiber_error).         (* throw fiber_error{ ... }; *)

(** ** [value_type value_pop()]

    The block after [try_pop_()] has claimed the slot [s] (lines 351-364). *)
Definition value_pop_claimed (active_ctx : context) (s : slot_ptr) (ch : t)
  : step popped :=
  (* notify one waiting producer *)
  let '(producer_ctx, q) :=
    context_slist.pop (waiting_producers_ ch) (next_of ch) in
  let ch := set_waiting_producers_ q (next_of ch) ch in
  (* consume value *)
  let value_ := value (pointee s) in
  (* resume suspended producer *)
  (Returned (returns value_), ch, notified producer_ctx ++ [ctx (pointee s)]).

(** The block after [try_pop_()] has found no slot (lines 366-378). *)
Definition value_pop_vacant (active_ctx : context) (ch : t)
  : step popped :=
  if is_closed ch then
    (Returned (throws {| code := operation_not_permitted |}), ch, [])
  else if negb (is_empty_ ch) then
    (Continue, ch, [])
  else
    let '(q, links) :=
      context_slist.push active_ctx (waiting_consumers_ ch) (next_of ch) in
    let ch := set_waiting_consumers_ q links ch in
    (* suspend this consumer *)
    (Suspended consumer_queued None, ch, []).

(** One round of the [for (;;)] loop. *)
Definition value_pop_iter (active_ctx : context) (ch : t)
  : step popped :=
  let '(s, ch) := try_pop_ ch in
  match s with
  | Some s => value_pop_claimed active_ctx s ch
  | None => value_pop_vacant active_ctx ch
  end.

Definition value_pop_resume (ch : t) : step popped :=
  (* resumed, slot mabye set *)
  (Continue, ch, []).

(** ** [channel_op_status pop_wait_until( value_type & value, timeout_time_)]

    [value_] is what the caller's object holds on entry; a [return] comes
    with what it holds then.

    The block after [try_pop_()] has claimed the slot [s] (lines 398-411). *)
Definition pop_wait_until_claimed (active_ctx : context) (s : slot_ptr) (ch : t)
  : step (channel_op_status.t * value_type) :=
  (* notify one waiting producer *)
  let '(producer_ctx, q) :=
    context_slist.pop (waiting_producers_ ch) (next_of ch) in
  let ch := set_waiting_producers_ q (next_of ch) ch in
  (* consume value *)
  let value_ := value (pointee s) in
  (* resume suspended producer *)
  (Returned (channel_op_status.success, value_), ch,
   notified producer_ctx ++ [ctx (pointee s)]).

(** The block after [try_pop_()] has found no slot (lines 413-428), up to
    the suspension. *)
Definition pop_wait_until_vacant (active_ctx : context) (value_ : value_type) (timeout_time : time_point) (ch : t)
  : step (channel_op_status.t * value_type) :=
  if is_closed ch then
    (Returned (channel_op_status.closed, value_), ch, [])
  else if negb (is_empty_ ch) then
    (Continue, ch, [])
  else
    let '(q, links) :=
      context_slist.push active_ctx (waiting_consumers_ ch) (next_of ch) in
    let ch := set_waiting_consumers_ q links ch in
    (* suspend this consumer *)
    (Suspended consumer_queued (Some timeout_time), ch, []).

(** One round of the [for (;;)] loop. *)
Definition pop_wait_until_iter (active_ctx : context) (value_ : value_type) (timeout_time : time_point) (ch : t)
  : step (channel_op_status.t * value_type) :=
  let '(s, ch) := try_pop_ ch in
  match s with
  | Some s => pop_wait_until_claimed active_ctx s ch
  | None => pop_wait_until_vacant active_ctx value_ timeout_time ch
  end.

(** After [wait_until( timeout_time, lk)] has returned [woken]; [fuel] and
    [None] as for [push_wait_until]. *)
Definition pop_wait_until_resume (fuel : nat) (active_ctx : context)
    (value_ : value_type) (woken : bool) (ch : t)
  : option (step (channel_op_status.t * value_type)) :=
  if negb woken then
    (* relock local lk; remove from waiting-queue *)
    match context_slist.unlink fuel active_ctx
            (waiting_consumers_ ch) (next_of ch) with
    | None => None
    | Some (q, links) =>
        let ch := set_waiting_consumers_ q links ch in
        Some (Returned (channel_op_status.timeout, value_), ch, [])
    end
  else
    Some (Continue, ch, []).

(** ** A whole call

    A call runs its loop until it returns.  Each time it suspends, the
    other fibers run; [wakes] lists, for every suspension of the call in
    turn, what [wait_until] returns when the fiber runs again ([true]: made
    ready by another fiber, [false]: the deadline fired; [suspend] has no
    result) and the channel as the fiber finds it then.  [fuel] bounds the
    number of rounds of the loop.  [None]: the call has not returned
    within that many rounds, is still suspended, or has run into a
    transition with no defined result. *)
Fixpoint call {R : Type} (iter : t -> step R)
    (resume : wait_point -> bool -> t -> option (step R))
    (fuel : nat) (wakes : list (bool * t)) (ch : t) (ready : list context)
  : option (R * t * list context) :=
  match fuel with
  | 0 => None
  | S fuel =>
      let '(o, ch, r) := iter ch in
      let ready := ready ++ r in
      match o with
      | Returned x => Some (x, ch, ready)
      | Continue => call iter resume fuel wakes ch ready
      | Suspended w _ =>
          match wakes with
          | [] => None
          | (woken, ch) :: wakes =>
              match resume w woken ch with
              | None => None
              | Some (o, ch, r) =>
                  let ready := ready ++ r in
                  match o with
                  | Returned x => Some (x, ch, ready)
                  | _ => call iter resume fuel wakes ch ready
                  end
              end
          end
      end
  end.

(** [active_ctx] is [context::active()], [s_addr] the address of the
    local [s] of the call. *)
Definition push_copy (active_ctx : context) (s_addr : nat) (value_ : value_type)
    (fuel : nat) (wakes : list (bool * t)) (ch : t) :=
  let s := (slot_copy value_ active_ctx).1 in
  call (push_copy_iter active_ctx (address_of s_addr s))
       (fun w _ ch => Some (push_copy_resume w ch)) fuel wakes ch [].

Definition push_move (active_ctx : context) (s_addr : nat) (value_ : value_type)
    (fuel : nat) (wakes : list (bool * t)) (ch : t) :=
  let s := (slot_move value_ active_ctx).1 in
  call (push_move_iter active_ctx (address_of s_addr s))
       (fun w _ ch => Some (push_move_resume w ch)) fuel wakes ch [].

(** [detail::convert] brings the deadline to [steady_clock]; a
    [time_point] here is one already.  [fuel] bounds the rounds of the loop
    and the walk of each [unlink]. *)
Definition push_wait_until_copy (active_ctx : context) (s_addr : nat)
    (value_ : value_type) (timeout_time_ : time_point)
    (fuel : nat) (wakes : list (bool * t)) (ch : t) :=
  let s := (slot_copy value_ active_ctx).1 in
  let timeout_time := timeout_time_ in
  call (push_wait_until_copy_iter active_ctx (address_of s_addr s) timeout_time)
       (push_wait_until_copy_resume fuel active_ctx (address_of s_addr s))
       fuel wakes ch [].

Definition push_wait_until_move (active_ctx : context) (s_addr : nat)
    (value_ : value_type) (timeout_time_ : time_point)
    (fuel : nat) (wakes : list (bool * t)) (ch : t) :=
  let s := (slot_move value_ active_ctx).1 in
  let timeout_time := timeout_time_ in
  call (push_wait_until_move_iter active_ctx (address_of s_addr s) timeout_time)
       (push_wait_until_move_resume fuel active_ctx (address_of s_addr s))
       fuel wakes ch [].

(** [push_wait_for]; [now] is what [std::chrono::steady_clock::now()] reads. *)
Definition push_wait_for_copy (now : time_point) (active_ctx : context)
    (s_addr : nat) (value_ : value_type) (timeout_duration : nat) :=
  push_wait_until_copy active_ctx s_addr value_ (now + timeout_duration).

Definition push_wait_for_move (now : time_point) (active_ctx : context)
    (s_addr : nat) (value_ : value_type) (timeout_duration : nat) :=
  push_wait_until_move active_ctx s_addr value_ (now + timeout_duration).

Definition pop (active_ctx : context) (value_ : value_type)
    (fuel : nat) (wakes : list (bool * t)) (ch : t) :=
  call (pop_iter active_ctx value_) (fun _ _ ch => Some (pop_resume ch))
       fuel wakes ch [].

Definition value_pop (active_ctx : context)
    (fuel : nat) (wakes : list (bool * t)) (ch : t) :=
  call (value_pop_iter active_ctx) (fun _ _ ch => Some (value_pop_resume ch))
       fuel wakes ch [].

Definition pop_wait_until (active_ctx : context) (value_ : value_type)
    (timeout_time_ : time_point) (fuel : nat) (wakes : list (bool * t)) (ch : t) :=
  let timeout_time := timeout_time_ in
  call (pop_wait_until_iter active_ctx value_ timeout_time)
       (fun _ => pop_wait_until_resume fuel active_ctx value_) fuel wakes ch [].

Definition pop_wait_for (now : time_point) (active_ctx : context)
    (value_ : value_type) (timeout_duration : nat) :=
  pop_wait_until active_ctx value_ (now + timeout_duration).

(** ** Everything that can happen to a channel

    The transitions of all member functions, by any fiber: whole rounds of
    the loops, and their parts. *)
Inductive transition :=
| do_is_closed
| do_close
| do_destructor
| do_try_push_ (own_slot : slot_ptr)
| do_try_pop_
| do_push_copy (active_ctx : context) (s : slot_ptr)
| do_push_copy_published (active_ctx : context)
| do_push_copy_occupied (active_ctx : context)
| do_push_copy_resume (w : wait_point)
| do_push_move (active_ctx : context) (s : slot_ptr)
| do_push_move_published (active_ctx : context)
| do_push_move_occupied (active_ctx : context)
| do_push_move_resume (w : wait_point)
| do_push_wait_until_copy (active_ctx : context) (s : slot_ptr) (tp : time_point)
| do_push_wait_until_copy_published (active_ctx : context) (tp : time_point)
| do_push_wait_until_copy_occupied (active_ctx : context) (tp : time_point)
| do_push_wait_until_copy_resume (active_ctx : context) (s : slot_ptr)
    (w : wait_point) (woken : bool)
| do_push_wait_until_move (active_ctx : context) (s : slot_ptr) (tp : time_point)
| do_push_wait_until_move_published (active_ctx : context) (tp : time_point)
| do_push_wait_until_move_occupied (active_ctx : context) (tp : time_point)
| do_push_wait_until_move_resume (active_ctx : context) (s : slot_ptr)
    (w : wait_point) (woken : bool)
| do_pop (active_ctx : context) (value_ : value_type)
| do_pop_claimed (active_ctx : context) (s : slot_ptr)
| do_pop_vacant (active_ctx : context) (value_ : value_type)
| do_pop_resume
| do_value_pop (active_ctx : context)
| do_value_pop_claimed (active_ctx : context) (s : slot_ptr)
| do_value_pop_vacant (active_ctx : context)
| do_value_pop_resume
| do_pop_wait_until (active_ctx : context) (value_ : value_type) (tp : time_point)
| do_pop_wait_until_claimed (active_ctx : context) (s : slot_ptr)
| do_pop_wait_until_vacant (active_ctx : context) (value_ : value_type) (tp : time_point)
| do_pop_wait_until_resume (active_ctx : context) (value_ : value_type) (woken : bool).

(** The channel a transition leaves. *)
Definition left_by {R : Type} (st : step R) : t := st.1.2.

(** The channel after a transition; [None] where the transition has no
    defined result or has not ended within [fuel] steps. *)
Definition exec (fuel : nat) (tr : transition) (ch : t) : option t :=
  match tr with
  | do_is_closed => Some ch
  | do_close => fst <$> close fuel ch
  | do_destructor => fst <$> destructor fuel ch
  | do_try_push_ s => Some (try_push_ s ch).2
  | do_try_pop_ => Some (try_pop_ ch).2
  | do_push_copy a s => Some (left_by (push_copy_iter a s ch))
  | do_push_copy_published a => Some (left_by (push_copy_published a ch))
  | do_push_copy_occupied a => Some (left_by (push_copy_occupied a ch))
  | do_push_copy_resume w => Some (left_by (push_copy_resume w ch))
  | do_push_move a s => Some (left_by (push_move_iter a s ch))
  | do_push_move_published a => Some (left_by (push_move_published a ch))
  | do_push_move_occupied a => Some (left_by (push_move_occupied a ch))
  | do_push_move_resume w => Some (left_by (push_move_resume w ch))
  | do_push_wait_until_copy a s tp =>
      Some (left_by (push_wait_until_copy_iter a s tp ch))
  | do_push_wait_until_copy_published a tp =>
      Some (left_by (push_wait_until_copy_published a tp ch))
  | do_push_wait_until_copy_occupied a tp =>
      Some (left_by (push_wait_until_copy_occupied a tp ch))
  | do_push_wait_until_copy_resume a s w woken =>
      left_by <$> push_wait_until_copy_resume fuel a s w woken ch
  | do_push_wait_until_move a s tp =>
      Some (left_by (push_wait_until_move_iter a s tp ch))
  | do_push_wait_until_move_published a tp =>
      Some (left_by (push_wait_until_move_published a tp ch))
  | do_push_wait_until_move_occupied a tp =>
      Some (left_by (push_wait_until_move_occupied a tp ch))
  | do_push_wait_until_move_resume a s w woken =>
      left_by <$> push_wait_until_move_resume fuel a s w woken ch
  | do_pop a v => Some (left_by (pop_iter a v ch))
  | do_pop_claimed a s => Some (left_by (pop_claimed a s ch))
  | do_pop_vacant a v => Some (left_by (pop_vacant a v ch))
  | do_pop_resume => Some (left_by (pop_resume ch))
  | do_value_pop a => Some (left_by (value_pop_iter a ch))
  | do_value_pop_claimed a s => Some (left_by (value_pop_claimed a s ch))
  | do_value_pop_vacant a => Some (left_by (value_pop_vacant a ch))
  | do_value_pop_resume => Some (left_by (value_pop_resume ch))
  | do_pop_wait_until a v tp => Some (left_by (pop_wait_until_iter a v tp ch))
  | do_pop_wait_until_claimed a s => Some (left_by (pop_wait_until_claimed a s ch))
  | do_pop_wait_until_vacant a v tp =>
      Some (left_by (pop_wait_until_vacant a v tp ch))
  | do_pop_wait_until_resume a v woken =>
      left_by <$> pop_wait_until_resume fuel a v woken ch
  end.

(** One transition after the other, as long as each has a result. *)
Fixpoint exec_all (fuel : nat) (trs : list transition) (ch : t) : option t :=
  match trs with
  | [] => Some ch
  | tr :: trs =>
      match exec fuel tr ch with
      | None => None
      | Some ch => exec_all fuel trs ch
      end
  end.

End channel.

Arguments mk_slot {value_type} _ _.
Arguments value {value_type} _.
Arguments ctx {value_type} _.
Arguments address_of {value_type} _ _.
Arguments addr {value_type} _.
Arguments pointee {value_type} _.
Arguments mk {value_type} _ _ _ _ _.
Arguments slot_ {value_type} _.
Arguments closed_ {value_type} _.
Arguments waiting_producers_ {value_type} _.
Arguments waiting_consumers_ {value_type} _.
Arguments next_of {value_type} _.
Arguments init {value_type} _.
Arguments returns {value_type} _.
Arguments throws {value_type} _.
Arguments is_closed {value_type} _.
Arguments is_empty_ {value_type} _.
Arguments close {value_type} _ _.
Arguments destructor {value_type} _ _.
Arguments left_by {value_type R} _.
Arguments exec {value_type} _ _ _.
Arguments exec_all {value_type} _ _ _.
Arguments call {value_type R} _ _ _ _ _ _.
Arguments push_copy {value_type} _ _ _ _ _ _.
Arguments push_move {value_type} _ _ _ _ _ _.
Arguments push_wait_until_copy {value_type} _ _ _ _ _ _ _.
Arguments push_wait_until_move {value_type} _ _ _ _ _ _ _.
Arguments push_wait_for_copy {value_type} _ _ _ _ _ _ _ _.
Arguments push_wait_for_move {value_type} _ _ _ _ _ _ _ _.
Arguments pop {value_type} _ _ _ _ _.
Arguments value_pop {value_type} _ _ _ _.
Arguments pop_wait_until {value_type} _ _ _ _ _ _.
Arguments pop_wait_for {value_type} _ _ _ _ _ _ _.
Arguments push_copy_iter {value_type} _ _ _.
Arguments push_move_iter {value_type} _ _ _.
Arguments push_copy_resume {value_type} _ _.
Arguments push_move_resume {value_type} _ _.
Arguments push_wait_until_copy_iter {value_type} _ _ _ _.
Arguments push_wait_until_move_iter {value_type} _ _ _ _.
Arguments push_wait_until_copy_resume {value_type} _ _ _ _ _ _.
Arguments push_wait_until_move_resume {value_type} _ _ _ _ _ _.
Arguments pop_iter {value_type} _ _ _.
Arguments pop_resume {value_type} _.
Arguments value_pop_iter {value_type} _ _.
Arguments value_pop_resume {value_type} _.
Arguments pop_wait_until_iter {value_type} _ _ _ _.
Arguments pop_wait_until_resume {value_type} _ _ _ _ _.
Arguments push_copy_published {value_type} _ _.
Arguments push_copy_occupied {value_type} _ _.
Arguments push_move_published {value_type} _ _.
Arguments push_move_occupied {value_type} _ _.
Arguments push_wait_until_copy_published {value_type} _ _ _.
Arguments push_wait_until_copy_occupied {value_type} _ _ _.
Arguments push_wait_until_move_published {value_type} _ _ _.
Arguments push_wait_until_move_occupied {value_type} _ _ _.
Arguments pop_claimed {value_type} _ _ _.
Arguments pop_vacant {value_type} _ _ _.
Arguments value_pop_claimed {value_type} _ _ _.
Arguments value_pop_vacant {value_type} _ _.
Arguments pop_wait_until_claimed {value_type} _ _ _.
Arguments pop_wait_until_vacant {value_type} _ _ _ _.
Arguments try_push_ {value_type} _ _.
Arguments try_pop_ {value_type} _.
Arguments compare_exchange_strong {value_type} _ _ _.
Arguments set_slot_ {value_type} _ _.
Arguments set_closed_ {value_type} _ _.
Arguments set_waiting_producers_ {value_type} _ _ _.
Arguments set_waiting_consumers_ {value_type} _ _ _.
Arguments slot_copy {value_type} _ _.
Arguments slot_move {value_type} _ _.

(** ** [class iterator] *)

Section iterator.
Context {value_type : Type}.

(** [chan_] is the address of the channel or [nullptr]; [storage_] is the
    aligned storage, [None] as long as no value was constructed in it. *)
Record iterator := mk_iterator {
  chan_ : option nat;
  storage_ : option value_type;
}.

(** [iterator() noexcept = default]: what [end( chan)] returns. *)
Definition end_ : iterator := {| chan_ := None; storage_ := None |}.

(** [void increment_()] on the channel [ch] that [chan_] points to: [None]
    when the assertion [nullptr != chan_] fails, or [value_pop] has not
    returned. *)
Definition increment_ (active_ctx : context) (fuel : nat)
    (wakes : list (bool * t value_type)) (it : iterator) (ch : t value_type)
  : option (iterator * t value_type * list context) :=
  match chan_ it with
  | None => None
  | Some _ =>
      match value_pop active_ctx fuel wakes ch with
      | None => None
      | Some (returns v, ch, ready) =>
          (* ::new ( ... storage_ ... ) value_type{ chan_->value_pop() } *)
          Some ({| chan_ := chan_ it; storage_ := Some v |}, ch, ready)
      | Some (throws _, ch, ready) =>
          (* catch ( fiber_error const&) { chan_ = nullptr; } *)
          Some ({| chan_ := None; storage_ := storage_ it |}, ch, ready)
      end
  end.

(** [explicit iterator( unbuffered_channel< T > * chan)], which is what
    [begin( chan)] returns; [chan] is the address of [ch]. *)
Definition begin (chan : nat) (active_ctx : context) (fuel : nat)
    (wakes : list (bool * t value_type)) (ch : t value_type)
  : option (iterator * t value_type * list context) :=
  increment_ active_ctx fuel wakes {| chan_ := Some chan; storage_ := None |} ch.

(** [iterator( iterator const& other)] and [operator=]: only [chan_] is
    copied. *)
Definition copy (other : iterator) : iterator :=
  {| chan_ := chan_ other; storage_ := None |}.

(** [bool operator==( iterator const& other) const] *)
Definition eq_iterator (it other : iterator) : bool :=
  bool_decide (chan_ other = chan_ it).

(** [bool operator!=( iterator const& other) const] *)
Definition ne_iterator (it other : iterator) : bool :=
  negb (bool_decide (chan_ other = chan_ it)).

(** [iterator & operator++()] *)
Definition pre_increment := increment_.

(** [reference_t operator*()]: what is in the storage. *)
Definition deref_iterator (it : iterator) : option value_type := storage_ it.

(** [for ( it = begin( chan); it != end( chan); ++it) { seen.push_back( * it); }]
    by a fiber that is never suspended ([wakes] is empty for every
    [value_pop]); [laps] bounds the number of rounds of this loop.  The
    values seen and the channel left. *)
Fixpoint range_loop (laps : nat) (active_ctx : context) (fuel : nat)
    (it : iterator) (ch : t value_type) (seen : list value_type)
  : option (list value_type * t value_type) :=
  if ne_iterator it end_ then
    match laps with
    | 0 => None
    | S laps =>
        match deref_iterator it with
        | None => None
        | Some v =>
            match pre_increment active_ctx fuel [] it ch with
            | None => None
            | Some (it, ch, _) =>
                range_loop laps active_ctx fuel it ch (seen ++ [v])
            end
        end
    end
  else Some (seen, ch).

Definition range_for (laps : nat) (chan : nat) (active_ctx : context)
    (fuel : nat) (ch : t value_type) : option (list value_type * t value_type) :=
  match begin chan active_ctx fuel [] ch with
  | None => None
  | Some (it, ch, _) => range_loop laps active_ctx fuel it ch []
  end.

End iterator.
Arguments iterator value_type : clear implicits.

End unbuffered_channel.

(* ===================================================================== *)
(** * [condition_variable_any] *)
(* ===================================================================== *)

Module condition_variable_any.

(** What a member function does to the spinlock [wait_queue_splk_] and to
    the scheduler, in order. *)
Inductive event :=
| lock                          (* wait_queue_splk_ taken *)
| unlock                        (* wait_queue_splk_ released *)
| set_ready (ctx : context).    (* context::active()->set_ready( ctx) *)

(** Modelled from the spec: the members [wait_queue_] and
    [wait_queue_splk_] are declared in boost/fiber/condition_variable.hpp,
    which is not among the sources; the spec gives the state as a wait-queue
    and a spinlock.  The lock is free between two calls. *)
Record t := mk { wait_queue_ : wait_queue.t }.

(** [void condition_variable_any::notify_one() noexcept] *)
Definition notify_one (cv : t) : t * list event :=
  (* detail::spinlock_lock lk( wait_queue_splk_); *)
  let '(ctx, q) := wait_queue.pop (wait_queue_ cv) in
  (* lk.unlock(); *)
  match ctx with
  | None => ({| wait_queue_ := q |}, [lock; unlock])
  | Some ctx => ({| wait_queue_ := q |}, [lock; unlock; set_ready ctx])
  end.

(** [void condition_variable_any::notify_all() noexcept]: [lk] lives to the
    end of the function. *)
Definition notify_all (cv : t) : t * list event :=
  (* detail::spinlock_lock lk( wait_queue_splk_); *)
  let '(ctxs, q) := wait_queue.pop_each (wait_queue_ cv) in
  ({| wait_queue_ := q |}, [lock] ++ map set_ready ctxs ++ [unlock]).

(** The contexts a trace makes ready while the spinlock is held, and those
    it makes ready while the lock is free. *)
Fixpoint ready_under_lock (held : bool) (tr : list event) : list context :=
  match tr with
  | [] => []
  | lock :: tr => ready_under_lock true tr
  | unlock :: tr => ready_under_lock false tr
  | set_ready c :: tr =>
      if held then c :: ready_under_lock held tr else ready_under_lock held tr
  end.

Fixpoint ready_outside_lock (held : bool) (tr : list event) : list context :=
  match tr with
  | [] => []
  | lock :: tr => ready_outside_lock true tr
  | unlock :: tr => ready_outside_lock false tr
  | set_ready c :: tr =>
      if held then ready_outside_lock held tr else c :: ready_outside_lock held tr
  end.

(** [notify_one()] called [n] times in a row: the condition variable left
    and the events of all the calls. *)
Fixpoint notify_one_times (n : nat) (cv : t) : t * list event :=
  match n with
  | 0 => (cv, [])
  | S n =>
      let '(cv, tr) := notify_one cv in
      let '(cv, tr') := notify_one_times n cv in
      (cv, tr ++ tr')
  end.

(** The contexts a trace makes ready, in order. *)
Fixpoint made_ready (tr : list event) : list context :=
  match tr with
  | [] => []
  | set_ready c :: tr => c :: made_ready tr
  | _ :: tr => made_ready tr
  end.

End condition_variable_any.

(* ===================================================================== *)
(** * [asio::detail::broadcast< Signature >] *)
(* ===================================================================== *)

Module broadcast.

(** An OS thread, and a connected [slot_type]. *)
Definition thread := nat.
Definition slot_type := nat.

(** Where a thread is with respect to [notify]. *)
Inductive place :=
| outside                                  (* not in notify: lk not constructed *)
| in_signal (pending : list slot_type).    (* owns lk; get_signal()( args...) has
                                              these slots left to call *)

(** Modelled from the spec: [boost::signals2::signal] and [std::mutex] are
    library types.  Calling the signal invokes the connected slots in the
    order of their connection; constructing a [std::unique_lock] blocks
    until the mutex is free and owns it until the lock is destroyed. *)
Record state := mk {
  mutex_s : option thread;                  (* the owner of get_mutex() *)
  signal_s : list slot_type;                (* get_signal(): the connected slots *)
  place_of : thread -> place;
  invoked : list (thread * slot_type);      (* the slot calls so far, oldest first *)
}.

Definition init (slots : list slot_type) : state :=
  {| mutex_s := None; signal_s := slots;
     place_of := fun _ => outside; invoked := [] |}.

Definition move_to (th : thread) (p : place) (f : thread -> place)
  : thread -> place :=
  fun x => if decide (x = th) then p else f x.

(** One step of thread [th] in [notify]; [None] when [th] is blocked on the
    mutex. *)
Definition notify_step (th : thread) (st : state) : option state :=
  match place_of st th with
  | outside =>
      (* std::unique_lock< std::mutex > lk( get_mutex()); *)
      match mutex_s st with
      | Some _ => None
      | None =>
          Some {| mutex_s := Some th; signal_s := signal_s st;
                  place_of := move_to th (in_signal (signal_s st)) (place_of st);
                  invoked := invoked st |}
      end
  | in_signal (s :: pending) =>
      (* get_signal()( std::forward< Args >( args) ... ): the next slot *)
      Some {| mutex_s := mutex_s st; signal_s := signal_s st;
              place_of := move_to th (in_signal pending) (place_of st);
              invoked := invoked st ++ [(th, s)] |}
  | in_signal [] =>
      (* return: lk is destroyed *)
      Some {| mutex_s := None; signal_s := signal_s st;
              place_of := move_to th outside (place_of st);
              invoked := invoked st |}
  end.

(** The threads run [notify] again and again, interleaved as [schedule]
    tells; a blocked thread stays where it is. *)
Definition run (schedule : list thread) (st : state) : state :=
  foldl (fun st th => default st (notify_step th st)) st schedule.

(** The slot calls of one whole [notify] by [th]. *)
Definition dispatch (slots : list slot_type) (th : thread)
  : list (thread * slot_type) :=
  map (pair th) slots.

(** One whole [notify] after the other. *)
Definition serial (slots : list slot_type) (ths : list thread)
  : list (thread * slot_type) :=
  flat_map (dispatch slots) ths.

(** [th] is calling slots. *)
Definition dispatching (st : state) (th : thread) : Prop :=
  exists pending, place_of st th = in_signal pending.

(** The slot calls so far are whole dispatches, one after the other, each
    in the order of connection, followed by the calls the owner of the
    mutex has made in its current dispatch; nobody but that owner is
    calling slots. *)
Definition serialized (st : state) : Prop :=
  match mutex_s st with
  | None =>
      (forall th, place_of st th = outside)
      /\ exists ths, invoked st = serial (signal_s st) ths
  | Some owner =>
      exists ths called pending,
        place_of st owner = in_signal pending
        /\ called ++ pending = signal_s st
        /\ (forall th, th <> owner -> place_of st th = outside)
        /\ invoked st = serial (signal_s st) ths ++ dispatch called owner
  end.

End broadcast.
(* ===================================================================== *)
(** * Properties *)
(* ===================================================================== *)

(** ** The chain of a wait-queue *)

Section wait_queue_facts.
Implicit Types (q : wait_queue.t) (c : context).

(** [pop_each] is the loop it stands for: it pops, stops on [nullptr], and
    goes on otherwise. *)
Lemma pop_each_unfold q :
  wait_queue.pop_each q =
    match wait_queue.pop q with
    | (None, q') => ([], q')
    | (Some ctx, q') =>
        let '(woken, rest) := wait_queue.pop_each q' in (ctx :: woken, rest)
    end.
Proof. destruct q; reflexivity. Qed.

Lemma pop_each_all q : wait_queue.pop_each q = (q, []).
Proof.
  induction q as [|c q IH]; simpl; [reflexivity|].
  rewrite IH. reflexivity.
Qed.

End wait_queue_facts.
(** ** [context_slist] *)

(** C2.  The intrusive queue is not a FIFO once it has been drained: [pop]
    leaves [tail_] pointing into the context popped before the last one.
    On the contexts 1, 2, 3, all with a [nullptr] link, the calls
    push(1), push(2), pop(), pop(), push(3) give the pops 1 and 2 in push
    order, and then 3 is linked behind the popped 2 and not into the queue:
    [empty()] is true and [pop()] returns [nullptr], where a FIFO holds 3. *)
Theorem context_slist_loses_push_after_drain :
  let ops := [context_slist.Push 1; context_slist.Push 2;
              context_slist.Pop; context_slist.Pop; context_slist.Push 3] in
  let '(q, next_of, out) := context_slist.run ops (context_slist.init, ∅, []) in
  out = [Some 1; Some 2]
  /\ context_slist.empty q = true
  /\ (context_slist.pop q next_of).1 = None
  /\ context_slist.tail_ q = context_slist.next_cell 2
  /\ next_of !! 2 = Some 3
  /\ context_slist.fifo_run ops = ([3], [Some 1; Some 2]).
Proof. vm_compute. repeat split; reflexivity. Qed.

Section context_slist_facts.
Import context_slist.
Implicit Types (q : context_slist.t) (next_of : links) (l : list context).

Lemma run_app os1 os2 st : run (os1 ++ os2) st = run os2 (run os1 st).
Proof. unfold run. apply foldl_app. Qed.

Lemma chained_snoc next_of l z c :
  NoDup l -> chained next_of l -> last l = Some z ->
  c ∉ l -> next_of !! c = None ->
  chained (<[z := c]> next_of) (l ++ [c]).
Proof.
  intros Hnd Hch Hlast Hc Hnil.
  induction l as [|x l IH]; [done|].
  apply NoDup_cons in Hnd as [Hx Hnd]. destruct Hch as [Hnext Hch].
  apply not_elem_of_cons in Hc as [Hcx Hc].
  destruct l as [|y l].
  - injection Hlast as ->. cbn [app chained head].
    split; [apply lookup_insert_eq|]. split; [|done].
    rewrite lookup_insert_ne; [exact Hnil|].
    intros ->. apply Hcx. reflexivity.
  - rewrite last_cons_cons in Hlast.
    assert (x <> z) as Hxz.
    { intros ->. apply Hx. by eapply last_Some_elem_of. }
    split.
    + rewrite lookup_insert_ne by done. exact Hnext.
    + by apply IH.
Qed.

(** [push] of a context that is not queued and has a [nullptr] link appends
    it, where [tail_] is in place. *)
Lemma push_holds q next_of l c :
  holds q next_of l -> c ∉ l -> next_of !! c = None ->
  holds (push c q next_of).1 (push c q next_of).2 (l ++ [c]).
Proof.
  intros (Hnd & Hch & Hhead & Htail & Hcell & Hinit) Hc Hnil.
  unfold push. destruct (last l) as [z|] eqn:Hlast.
  - rewrite Htail. simpl.
    assert (Hz : z ∈ l) by by eapply last_Some_elem_of.
    assert (Hzc : z <> c) by (by intros ->).
    assert (Hderef : deref q (<[z:=c]> next_of) (tail_ q) = Some z).
    { destruct (tail_ q) as [|p] eqn:Hp; simpl in *; [done|].
      rewrite lookup_insert_ne; [done|]. intros ->. by eapply Hcell. }
    rewrite Hderef. simpl.
    assert (Hne : l <> []) by (by intros ->).
    split_and!.
    + apply NoDup_app. split_and!; [done| |apply NoDup_singleton].
      intros x Hx Hx'. apply list_elem_of_singleton in Hx' as ->. done.
    + by apply chained_snoc.
    + rewrite Hhead. destruct l; done.
    + cbn [deref tail_]. by rewrite lookup_insert_eq, last_snoc.
    + rewrite last_snoc. intros ? [= <-]. cbn [tail_]. intros [= ?]. done.
    + intros Heq. by apply app_nil in Heq as [_ ?].
  - apply last_None in Hlast as ->.
    rewrite Htail. rewrite (Hinit eq_refl). simpl.
    split_and!; simpl; try done.
    + apply NoDup_singleton.
    + by rewrite (Hinit eq_refl).
    + intros z _. by rewrite (Hinit eq_refl).
Qed.

Lemma fill_holds l2 : forall l1 q next_of out,
  holds q next_of l1 -> NoDup (l1 ++ l2) ->
  (forall c, c ∈ l2 -> next_of !! c = None) ->
  exists q' next_of',
    run (map Push l2) (q, next_of, out) = (q', next_of', out)
    /\ holds q' next_of' (l1 ++ l2).
Proof.
  induction l2 as [|c l2 IH]; intros l1 q next_of out Hq Hnd Hnil.
  - exists q, next_of. by rewrite app_nil_r.
  - assert (Hc : c ∉ l1).
    { apply NoDup_app in Hnd as (_ & Hdisj & _). intros Hin.
      apply (Hdisj _ Hin). apply elem_of_cons. by left. }
    assert (Hcn : next_of !! c = None).
    { apply Hnil. apply elem_of_cons. by left. }
    pose proof (push_holds _ _ _ _ Hq Hc Hcn) as Hq'.
    assert (Hnd' : NoDup ((l1 ++ [c]) ++ l2)) by by rewrite <- app_assoc.
    assert (Hnil' : forall x, x ∈ l2 -> (push c q next_of).2 !! x = None).
    { intros x Hx.
      assert (next_of !! x = None) as Hxn.
      { apply Hnil. apply elem_of_cons. by right. }
      assert (x <> c) as Hxc.
      { intros ->. apply NoDup_app in Hnd as (_ & _ & Hnd2).
        by apply NoDup_cons in Hnd2 as [? _]. }
      unfold push. destruct Hq as (_ & _ & _ & Htail & _ & Hinit).
      rewrite Htail. destruct (last l1) as [z|] eqn:Hlast; simpl.
      - assert (z <> x) as Hzx.
        { intros ->. apply NoDup_app in Hnd as (_ & Hdisj & _).
          apply (Hdisj x); [by eapply last_Some_elem_of|].
          apply elem_of_cons. by right. }
        destruct (deref q (<[z:=c]> next_of) (tail_ q)); simpl;
          by rewrite lookup_insert_ne.
      - apply last_None in Hlast. rewrite (Hinit Hlast). simpl. exact Hxn. }
    destruct (IH (l1 ++ [c]) _ _ out Hq' Hnd' Hnil') as (q' & n' & Hrun & Hholds).
    exists q', n'. rewrite <- app_assoc in Hholds. split; [|exact Hholds].
    simpl. unfold run in *. simpl.
    destruct (push c q next_of) as [q1 n1]. exact Hrun.
Qed.

Lemma drain_chained l : forall q next_of out,
  chained next_of l -> head_ q = head l ->
  exists q',
    run (replicate (length l) Pop) (q, next_of, out)
    = (q', next_of, out ++ map Some l)
    /\ head_ q' = None.
Proof.
  induction l as [|x l IH]; intros q next_of out Hch Hhead.
  - exists q. simpl. by rewrite app_nil_r.
  - destruct Hch as [Hnext Hch]. simpl in Hhead.
    destruct (IH {| head_ := next_of !! x; tail_ := tail_ q |} next_of
                 (out ++ [Some x]) Hch Hnext) as (q' & Hrun & Hq').
    exists q'. split; [|exact Hq'].
    simpl. unfold run in *. simpl. unfold pop. rewrite Hhead. simpl.
    rewrite Hrun. by rewrite <- app_assoc.
Qed.

(** Up to the first drain the queue is a FIFO: distinct contexts with
    [nullptr] links, pushed on a fresh queue and popped again, come out in
    push order and leave the queue empty. *)
Lemma context_slist_first_fill_is_fifo l next_of :
  NoDup l -> (forall c, c ∈ l -> next_of !! c = None) ->
  exists q' next_of',
    run (map Push l ++ replicate (length l) Pop) (init, next_of, [])
    = (q', next_of', map Some l)
    /\ empty q' = true.
Proof.
  intros Hnd Hnil.
  assert (Hinit : holds init next_of []).
  { unfold holds. simpl. split_and!; try done. apply NoDup_nil_2. }
  destruct (fill_holds l [] init next_of [] Hinit Hnd Hnil)
    as (q1 & n1 & Hfill & (_ & Hch & Hhead & _)).
  destruct (drain_chained l q1 n1 [] Hch Hhead) as (q' & Hdrain & Hq').
  exists q', n1. rewrite run_app, Hfill, Hdrain. split; [done|].
  unfold empty. rewrite Hq'. done.
Qed.
End context_slist_facts.

(** A context popped from a queue keeps its link: pushed on a second, empty
    queue it drags its old successor along, and the second queue hands out a
    context that was never pushed on it. *)
Lemma context_slist_popped_link_is_stale :
  let '(q1, next_of, _) :=
    context_slist.run [context_slist.Push 1; context_slist.Push 2; context_slist.Pop]
                      (context_slist.init, ∅, []) in
  let '(_, _, out) :=
    context_slist.run [context_slist.Push 1; context_slist.Pop; context_slist.Pop]
                      (context_slist.init, next_of, []) in
  out = [Some 1; Some 2].
Proof. vm_compute. reflexivity. Qed.

(** ** [condition_variable_any] *)

(** Every waiter is handed to [set_ready] while [notify_all] holds the
    spinlock, none after the lock is released; [notify_one] releases first. *)
Lemma notify_all_under_lock (cv : condition_variable_any.t) :
  let '(cv', tr) := condition_variable_any.notify_all cv in
  condition_variable_any.ready_under_lock false tr = condition_variable_any.wait_queue_ cv
  /\ condition_variable_any.ready_outside_lock false tr = []
  /\ condition_variable_any.wait_queue_ cv' = [].
Proof.
  destruct cv as [q]. unfold condition_variable_any.notify_all. simpl.
  rewrite pop_each_all. simpl. split_and!; [| |reflexivity].
  - induction q as [|c q IH]; simpl; [reflexivity|]. by rewrite IH.
  - induction q as [|c q IH]; simpl; [reflexivity|]. by rewrite IH.
Qed.

Lemma notify_one_outside_lock (cv : condition_variable_any.t) :
  let '(cv', tr) := condition_variable_any.notify_one cv in
  condition_variable_any.ready_under_lock false tr = []
  /\ condition_variable_any.ready_outside_lock false tr
     = take 1 (condition_variable_any.wait_queue_ cv).
Proof. destruct cv as [[|c q]]; simpl; split; reflexivity. Qed.

(** C3.  [notify_all] does not drain into a local list and schedule after
    the unlock: with the waiters 1 and 2 queued, it takes the spinlock, calls
    [set_ready] on 1 and on 2, and only then releases the lock. *)
Theorem notify_all_schedules_under_spinlock :
  let cv := {| condition_variable_any.wait_queue_ := [1; 2] |} in
  let '(cv', tr) := condition_variable_any.notify_all cv in
  tr = [condition_variable_any.lock;
        condition_variable_any.set_ready 1;
        condition_variable_any.set_ready 2;
        condition_variable_any.unlock]
  /\ condition_variable_any.ready_under_lock false tr = [1; 2]
  /\ condition_variable_any.ready_outside_lock false tr = []
  /\ (condition_variable_any.notify_one cv).2
     = [condition_variable_any.lock; condition_variable_any.unlock;
        condition_variable_any.set_ready 1].
Proof. vm_compute. repeat split; reflexivity. Qed.

(** ** [context_slist]: appending and removing at the head *)

Section context_slist_more.
Import context_slist.
Implicit Types (q : context_slist.t) (next_of : links) (l : list context).

Lemma run_cons_op o os st : run (o :: os) st = run os (run_op o st).
Proof. reflexivity. Qed.

(** [push] writes one link at most: the one of the last context queued. *)
Lemma push_links_elsewhere q next_of l c x :
  holds q next_of l -> x ∉ l -> x <> c ->
  (push c q next_of).2 !! x = next_of !! x.
Proof.
  intros (_ & _ & _ & Htail & _ & Hinit) Hx Hxc.
  unfold push. rewrite Htail. destruct (last l) as [z|] eqn:Hlast.
  - assert (z <> x) as Hzx.
    { intros ->. apply Hx. by eapply last_Some_elem_of. }
    cbn [set_next].
    destruct (deref q (<[z:=c]> next_of) (tail_ q)); cbn [snd];
      by rewrite lookup_insert_ne.
  - apply last_None in Hlast. rewrite (Hinit Hlast). reflexivity.
Qed.

(** X1.  [push] appends: on a queue that holds [l] with [tail_] in place,
    pushing a context that is not queued and whose link is [nullptr] gives
    a queue that holds [l ++ [c]], again with [tail_] in place, and touches
    the link of no context outside [l]. *)
Theorem context_slist_push_appends q next_of l c :
  holds q next_of l -> c ∉ l -> next_of !! c = None ->
  holds (push c q next_of).1 (push c q next_of).2 (l ++ [c])
  /\ (forall x, x ∉ l -> x <> c -> (push c q next_of).2 !! x = next_of !! x)
  /\ empty (push c q next_of).1 = false.
Proof.
  intros Hq Hc Hnil. pose proof (push_holds _ _ _ _ Hq Hc Hnil) as Hq'.
  split; [exact Hq'|]. split.
  - intros x Hx Hxc. by eapply push_links_elsewhere.
  - destruct Hq' as (_ & _ & Hhead & _). unfold empty. rewrite Hhead.
    destruct l; reflexivity.
Qed.

Lemma holds_init next_of : holds init next_of [].
Proof. unfold holds. simpl. split_and!; try done. apply NoDup_nil_2. Qed.

Lemma context_slist_push_appends_witness :
  holds (push 2 (push 1 init ∅).1 (push 1 init ∅).2).1
        (push 2 (push 1 init ∅).1 (push 1 init ∅).2).2 [1; 2].
Proof.
  assert (H1 : holds (push 1 init ∅).1 (push 1 init ∅).2 ([] ++ [1])).
  { apply (context_slist_push_appends init ∅ [] 1).
    - apply holds_init.
    - apply not_elem_of_nil.
    - reflexivity. }
  apply (context_slist_push_appends _ _ [1] 2 H1).
  - intros Hin. apply elem_of_cons in Hin as [Hin|Hin]; [discriminate|].
    by apply elem_of_nil in Hin.
  - reflexivity.
Defined.

Lemma holds_one_two :
  holds (push 2 (push 1 init ∅).1 (push 1 init ∅).2).1
        (push 2 (push 1 init ∅).1 (push 1 init ∅).2).2 [1; 2].
Proof.
  assert (H1 : holds (push 1 init ∅).1 (push 1 init ∅).2 ([] ++ [1])).
  { apply push_holds; [apply holds_init|apply not_elem_of_nil|reflexivity]. }
  apply (push_holds _ _ [1] 2 H1); [|reflexivity].
  intros Hin. apply elem_of_cons in Hin as [Hin|Hin]; [discriminate|].
  by apply elem_of_nil in Hin.
Qed.

Lemma pop_holds q next_of x y l :
  holds q next_of (x :: y :: l) ->
  (pop q next_of).1 = Some x
  /\ holds (pop q next_of).2 next_of (y :: l)
  /\ empty (pop q next_of).2 = false.
Proof.
  intros (Hnd & [Hnext Hch] & Hhead & Htail & Hcell & _).
  simpl in Hhead, Hnext. unfold pop. rewrite Hhead. cbn [fst snd].
  split; [reflexivity|].
  rewrite last_cons_cons in Htail, Hcell.
  assert (exists p, tail_ q = next_cell p) as [p Hp].
  { destruct (tail_ q) as [|p] eqn:Hp; [|eauto].
    exfalso. simpl in Htail. rewrite Hhead in Htail.
    apply NoDup_cons in Hnd as [Hx _]. apply Hx.
    eapply last_Some_elem_of. symmetry. exact Htail. }
  split.
  - split_and!.
    + by apply NoDup_cons in Hnd as [_ ?].
    + exact Hch.
    + exact Hnext.
    + cbn [tail_]. rewrite Hp in *. exact Htail.
    + cbn [tail_]. exact Hcell.
    + done.
  - unfold empty. cbn [head_]. rewrite Hnext. reflexivity.
Qed.

(** X2.  [pop] removes at the head: from a queue that holds two contexts or
    more, [pop] returns the oldest one, leaves the links as they are, and
    the queue holds the rest with [tail_] in place. *)
Theorem context_slist_pop_removes_oldest q next_of x y l :
  holds q next_of (x :: y :: l) ->
  (pop q next_of).1 = Some x
  /\ holds (pop q next_of).2 next_of (y :: l)
  /\ empty (pop q next_of).2 = false.
Proof. apply pop_holds. Qed.

Lemma context_slist_pop_removes_oldest_witness :
  let q := (push 2 (push 1 init ∅).1 (push 1 init ∅).2).1 in
  let next_of := (push 2 (push 1 init ∅).1 (push 1 init ∅).2).2 in
  (pop q next_of).1 = Some 1 /\ holds (pop q next_of).2 next_of [2].
Proof.
  intros q next_of.
  destruct (context_slist_pop_removes_oldest q next_of 1 2 [])
    as (Hpop & Hholds & _).
  - exact holds_one_two.
  - split; [exact Hpop|exact Hholds].
Defined.

(** X3.  As long as no [pop] empties it, the queue is a FIFO: from a queue
    that holds [l], any sequence of pushes of distinct contexts that are not
    queued and have [nullptr] links, and of pops that each find two contexts
    or more, returns from its pops what the reference FIFO returns, in the
    same order, and the queue holds what the reference FIFO holds. *)
Theorem context_slist_fifo_while_not_drained os : forall q next_of l out,
  holds q next_of l ->
  never_drains (length l) os = true ->
  NoDup (l ++ pushed os) ->
  (forall c, c ∈ pushed os -> next_of !! c = None) ->
  exists q' next_of',
    run os (q, next_of, out) = (q', next_of', (fifo_from (l, out) os).2)
    /\ holds q' next_of' (fifo_from (l, out) os).1.
Proof.
  induction os as [|[c|] os IH]; intros q next_of l out Hq Hsafe Hnd Hnil.
  - exists q, next_of. split; [reflexivity|exact Hq].
  - simpl in Hsafe, Hnd, Hnil.
    assert (Hc : c ∉ l).
    { apply NoDup_app in Hnd as (_ & Hdisj & _). intros Hin.
      apply (Hdisj _ Hin). apply elem_of_cons. by left. }
    assert (Hcn : next_of !! c = None).
    { apply Hnil. apply elem_of_cons. by left. }
    destruct (IH (push c q next_of).1 (push c q next_of).2 (l ++ [c]) out)
      as (q' & n' & Hrun & Hholds).
    + by apply push_holds.
    + rewrite length_app. simpl. by rewrite Nat.add_1_r.
    + by rewrite <- app_assoc.
    + intros x Hx.
      assert (x <> c) as Hxc.
      { intros ->. apply NoDup_app in Hnd as (_ & _ & Hnd2).
        by apply NoDup_cons in Hnd2 as [? _]. }
      assert (x ∉ l) as Hxl.
      { intros Hin. apply NoDup_app in Hnd as (_ & Hdisj & _).
        apply (Hdisj _ Hin). apply elem_of_cons. by right. }
      rewrite (push_links_elsewhere q next_of l c x Hq Hxl Hxc).
      apply Hnil. apply elem_of_cons. by right.
    + exists q', n'. rewrite run_cons_op. unfold run_op.
      destruct (push c q next_of) as [q1 n1]. exact (conj Hrun Hholds).
  - simpl in Hsafe, Hnd, Hnil.
    apply andb_prop in Hsafe as [Hlen Hsafe]. apply bool_decide_eq_true in Hlen.
    destruct l as [|x [|y l]]; simpl in Hlen; [lia|lia|].
    destruct (pop_holds q next_of x y l Hq) as (Hpop & Hholds & _).
    destruct (IH (pop q next_of).2 next_of (y :: l) (out ++ [Some x]))
      as (q' & n' & Hrun & Hholds'); [exact Hholds|exact Hsafe| |exact Hnil|].
    + by apply NoDup_cons in Hnd as [_ ?].
    + exists q', n'. rewrite run_cons_op. unfold run_op.
      destruct (pop q next_of) as [r q1]. simpl in Hpop. subst r.
      exact (conj Hrun Hholds').
Qed.

Lemma context_slist_fifo_while_not_drained_witness :
  exists q' next_of',
    run [Push 1; Push 2; Pop; Push 3; Pop] (init, ∅, [])
    = (q', next_of', [Some 1; Some 2])
    /\ holds q' next_of' [3].
Proof.
  apply (context_slist_fifo_while_not_drained
           [Push 1; Push 2; Pop; Push 3; Pop] init ∅ [] []).
  - apply holds_init.
  - reflexivity.
  - simpl. apply NoDup_ListNoDup. repeat constructor; simpl; intuition lia.
  - intros c _. reflexivity.
Defined.

(** X4.  Up to its first drain a fresh queue is a FIFO: distinct contexts
    with [nullptr] links, pushed and then all popped again, come out in push
    order, and the queue is empty afterwards. *)
Theorem context_slist_fill_then_drain_is_fifo l next_of :
  NoDup l -> (forall c, c ∈ l -> next_of !! c = None) ->
  exists q' next_of',
    run (map Push l ++ replicate (length l) Pop) (init, next_of, [])
    = (q', next_of', map Some l)
    /\ empty q' = true.
Proof. apply context_slist_first_fill_is_fifo. Qed.

Lemma context_slist_fill_then_drain_is_fifo_witness :
  exists q' next_of',
    run (map Push [1; 2; 3] ++ replicate 3 Pop) (init, ∅, [])
    = (q', next_of', [Some 1; Some 2; Some 3])
    /\ empty q' = true.
Proof.
  apply (context_slist_fill_then_drain_is_fifo [1; 2; 3] ∅).
  - apply NoDup_ListNoDup. repeat constructor; simpl; intuition lia.
  - intros c _. reflexivity.
Defined.

Lemma pops_keep_tail k : forall q next_of out q' next_of' out',
  run (replicate k Pop) (q, next_of, out) = (q', next_of', out') ->
  tail_ q' = tail_ q /\ next_of' = next_of.
Proof.
  induction k as [|k IH]; intros q next_of out q' n' out' Hrun.
  - injection Hrun as <- <- <-. done.
  - rewrite replicate_S, run_cons_op in Hrun. unfold run_op in Hrun.
    destruct (pop q next_of) as [r q1] eqn:Hpop.
    apply IH in Hrun as [Ht Hn]. split; [|exact Hn].
    rewrite Ht. unfold pop in Hpop. destruct (head_ q); by injection Hpop as <- <-.
Qed.

(** X5.  Once pops have emptied a queue that held two contexts or more, the
    next push is lost: [tail_] still points into a popped context, so the
    pushed context is linked behind the last popped one, [empty()] stays
    true and [pop()] returns [nullptr]. *)
Theorem context_slist_push_after_drain_is_lost q next_of l c :
  holds q next_of l -> 2 <= length l ->
  exists q1,
    run (replicate (length l) Pop) (q, next_of, []) = (q1, next_of, map Some l)
    /\ empty q1 = true
    /\ empty (push c q1 next_of).1 = true
    /\ (pop (push c q1 next_of).1 (push c q1 next_of).2).1 = None
    /\ (exists z, last l = Some z /\ (push c q1 next_of).2 !! z = Some c).
Proof.
  intros (Hnd & Hch & Hhead & Htail & Hcell & _) Hlen.
  destruct (drain_chained l q next_of [] Hch Hhead) as (q1 & Hrun & Hq1).
  exists q1. split; [exact Hrun|].
  destruct (pops_keep_tail _ _ _ _ _ _ _ Hrun) as [Ht _].
  destruct (last l) as [z|] eqn:Hlast;
    [|apply last_None in Hlast; subst l; simpl in Hlen; lia].
  assert (exists p, tail_ q = next_cell p) as [p Hp].
  { destruct (tail_ q) as [|p] eqn:Hp; [|eauto].
    exfalso. simpl in Htail. rewrite Hhead in Htail.
    destruct l as [|x [|y l]]; simpl in Hlen; [lia|lia|].
    simpl in Htail. injection Htail as ->.
    rewrite last_cons_cons in Hlast.
    apply NoDup_cons in Hnd as [Hx _]. apply Hx.
    by eapply last_Some_elem_of. }
  rewrite Hp in Htail, Hcell. simpl in Htail.
  assert (p <> z) as Hpz by (intros ->; by eapply Hcell).
  assert (Hpush : push c q1 next_of
                  = ({| head_ := head_ q1; tail_ := next_cell z |},
                     <[z := c]> next_of)).
  { unfold push. rewrite Ht, Hp. cbn [deref]. rewrite Htail. cbn [set_next].
    rewrite lookup_insert_ne by done. rewrite Htail. reflexivity. }
  rewrite Hpush. cbn [fst snd]. unfold empty, pop. cbn [head_].
  rewrite Hq1. split_and!; try reflexivity.
  exists z. split; [reflexivity|]. apply lookup_insert_eq.
Qed.

Lemma context_slist_push_after_drain_is_lost_witness :
  let q := (push 2 (push 1 init ∅).1 (push 1 init ∅).2).1 in
  let next_of := (push 2 (push 1 init ∅).1 (push 1 init ∅).2).2 in
  exists q1,
    run (replicate 2 Pop) (q, next_of, []) = (q1, next_of, [Some 1; Some 2])
    /\ empty q1 = true
    /\ empty (push 3 q1 next_of).1 = true
    /\ (pop (push 3 q1 next_of).1 (push 3 q1 next_of).2).1 = None
    /\ (exists z, last [1; 2] = Some z /\ (push 3 q1 next_of).2 !! z = Some 3).
Proof.
  intros q next_of.
  apply (context_slist_push_after_drain_is_lost q next_of [1; 2] 3).
  - exact holds_one_two.
  - simpl. lia.
Defined.
End context_slist_more.

(** ** [context_slist::unlink] *)

Section context_slist_unlink.
Import context_slist.
Implicit Types (q : context_slist.t) (next_of : links) (l : list context).

Lemma chained_ext next_of next_of' l :
  (forall x, x ∈ l -> next_of' !! x = next_of !! x) ->
  chained next_of l -> chained next_of' l.
Proof.
  induction l as [|x l IH]; intros Hext Hch; [done|].
  destruct Hch as [Hnext Hch]. split.
  - rewrite Hext; [exact Hnext|]. apply elem_of_cons. by left.
  - apply IH; [|exact Hch]. intros y Hy. apply Hext. apply elem_of_cons. by right.
Qed.

Lemma chained_app_r next_of l1 l2 :
  chained next_of (l1 ++ l2) -> chained next_of l2.
Proof. induction l1 as [|x l1 IH]; [done|]. intros [_ H]. by apply IH. Qed.

Lemma set_next_same c v next_of : set_next c v next_of !! c = v.
Proof.
  destruct v; cbn [set_next]; [apply lookup_insert_eq|apply lookup_delete_eq].
Qed.

Lemma set_next_other c v next_of x :
  x <> c -> set_next c v next_of !! x = next_of !! x.
Proof.
  intros Hx. destruct v; cbn [set_next];
    [by apply lookup_insert_ne|by apply lookup_delete_ne].
Qed.

(** The cell that points to [c]: the one the walk of [unlink] stops at. *)
Lemma unlink_walk_finds q next_of c l2 l1 : forall indirect fuel,
  chained next_of (l1 ++ c :: l2) -> c ∉ l1 ->
  deref q next_of indirect = head (l1 ++ c :: l2) ->
  length l1 < fuel ->
  unlink_walk fuel c q next_of indirect
  = Some (match last l1 with None => indirect | Some z => next_cell z end).
Proof.
  induction l1 as [|x l1 IH]; intros indirect fuel Hch Hc Hderef Hfuel.
  - destruct fuel as [|fuel]; [simpl in Hfuel; lia|].
    cbn [unlink_walk]. rewrite Hderef. cbn [app head].
    by rewrite decide_True.
  - destruct fuel as [|fuel]; [simpl in Hfuel; lia|].
    apply not_elem_of_cons in Hc as [Hcx Hc]. destruct Hch as [Hnext Hch].
    cbn [unlink_walk]. rewrite Hderef. cbn [app head].
    rewrite decide_False by done.
    rewrite (IH (next_cell x) fuel Hch Hc Hnext); [|simpl in Hfuel; lia].
    destruct l1 as [|y l1]; [reflexivity|].
    rewrite last_cons_cons. destruct (last (y :: l1)) eqn:Hl; [reflexivity|].
    by apply last_None in Hl.
Qed.

(** The links after [c] has been spliced out from between [l1] and [l2]. *)
Lemma chained_splice next_of c l2 l1 :
  NoDup (l1 ++ c :: l2) -> chained next_of (l1 ++ c :: l2) ->
  chained
    (set_next c None
       match last l1 with
       | None => next_of
       | Some z => set_next z (next_of !! c) next_of
       end)
    (l1 ++ l2).
Proof.
  intros Hnd Hch.
  assert (Hc2 : c ∉ l2).
  { apply NoDup_app in Hnd as (_ & _ & Hnd). by apply NoDup_cons in Hnd as [? _]. }
  assert (Hcnext : next_of !! c = head l2).
  { apply chained_app_r in Hch. by destruct Hch. }
  induction l1 as [|x l1 IH].
  - cbn [last app]. apply chained_app_r in Hch. destruct Hch as [_ Hch].
    eapply chained_ext; [|exact Hch]. intros y Hy.
    apply set_next_other. by intros ->.
  - cbn [app] in Hnd, Hch. apply NoDup_cons in Hnd as [Hx Hnd].
    destruct Hch as [Hnext Hch].
    assert (x <> c) as Hxc.
    { intros ->. apply Hx. apply elem_of_app. right. apply elem_of_cons. by left. }
    destruct l1 as [|y l1].
    + cbn [last app]. split.
      * rewrite set_next_other by done. rewrite set_next_same. exact Hcnext.
      * apply chained_app_r with (l1 := [c]) in Hch. cbn [app] in Hch.
        eapply chained_ext; [|exact Hch]. intros z Hz.
        rewrite !set_next_other; [done| |].
        -- intros ->. apply Hx. apply elem_of_cons. by right.
        -- by intros ->.
    + rewrite last_cons_cons. specialize (IH Hnd Hch).
      destruct (last (y :: l1)) as [z|] eqn:Hlast;
        [|by apply last_None in Hlast].
      cbn [app] in *. split; [|exact IH].
      assert (x <> z) as Hxz.
      { intros ->. apply Hx.
        apply (proj2 (elem_of_app (y :: l1) (c :: l2) z)). left.
        by eapply last_Some_elem_of. }
      rewrite !set_next_other by done. exact Hnext.
Qed.

(** [unlink] of a member of a chain without repetition. *)
Lemma unlink_member q next_of c l1 l2 fuel :
  NoDup (l1 ++ c :: l2) -> listed q next_of (l1 ++ c :: l2) ->
  length l1 < fuel ->
  exists q' next_of',
    unlink fuel c q next_of = Some (q', next_of')
    /\ listed q' next_of' (l1 ++ l2)
    /\ next_of' !! c = None
    /\ tail_ q' = tail_ q
    /\ (forall x, x ∉ l1 ++ c :: l2 -> next_of' !! x = next_of !! x).
Proof.
  intros Hnd [Hch Hhead] Hfuel.
  assert (Hc1 : c ∉ l1).
  { apply NoDup_app in Hnd as (_ & Hdisj & _). intros Hin.
    apply (Hdisj _ Hin). apply elem_of_cons. by left. }
  assert (Hcnext : next_of !! c = head l2).
  { pose proof (chained_app_r _ _ _ Hch) as H. by destruct H. }
  pose proof (chained_splice next_of c l2 l1 Hnd Hch) as Hspl.
  unfold unlink. rewrite Hhead.
  destruct (head (l1 ++ c :: l2)) as [h|] eqn:Hh; [|by destruct l1].
  rewrite (unlink_walk_finds q next_of c l2 l1 head_cell fuel Hch Hc1);
    [|cbn [deref]; congruence|exact Hfuel].
  destruct (last l1) as [z|] eqn:Hlast.
  - cbn [assign].
    eexists _, _. split; [reflexivity|]. split_and!.
    + split; [exact Hspl|]. cbn [head_]. rewrite Hhead.
      destruct l1; [done|]. cbn [app head] in *. congruence.
    + apply set_next_same.
    + reflexivity.
    + intros x Hx.
      assert (x <> c) as Hxc.
      { intros ->. apply Hx. apply elem_of_app. right. apply elem_of_cons. by left. }
      assert (x <> z) as Hxz.
      { intros ->. apply Hx. apply elem_of_app. left. by eapply last_Some_elem_of. }
      by rewrite !set_next_other.
  - apply last_None in Hlast. subst l1. cbn [assign app] in *.
    eexists _, _. split; [reflexivity|]. split_and!.
    + split; [exact Hspl|]. cbn [head_]. exact Hcnext.
    + apply set_next_same.
    + reflexivity.
    + intros x Hx. apply set_next_other. intros ->. apply Hx.
      apply elem_of_cons. by left.
Qed.

(** X6.  [unlink( c)] splices a member out: when the chain from [head_] is
    [l1 ++ c :: l2] without repetition, the walk ends, and afterwards the
    chain from [head_] is [l1 ++ l2], the link of [c] is [nullptr], and the
    links of the contexts outside the chain are as before. *)
Theorem context_slist_unlink_removes_member q next_of c l1 l2 fuel :
  NoDup (l1 ++ c :: l2) -> listed q next_of (l1 ++ c :: l2) ->
  length l1 < fuel ->
  exists q' next_of',
    unlink fuel c q next_of = Some (q', next_of')
    /\ listed q' next_of' (l1 ++ l2)
    /\ next_of' !! c = None
    /\ tail_ q' = tail_ q
    /\ (forall x, x ∉ l1 ++ c :: l2 -> next_of' !! x = next_of !! x).
Proof. apply unlink_member. Qed.

Lemma context_slist_unlink_removes_member_witness :
  let q := (push 2 (push 1 init ∅).1 (push 1 init ∅).2).1 in
  let next_of := (push 2 (push 1 init ∅).1 (push 1 init ∅).2).2 in
  exists q' next_of',
    unlink 2 2 q next_of = Some (q', next_of')
    /\ listed q' next_of' [1]
    /\ next_of' !! 2 = None.
Proof.
  intros q next_of.
  destruct (context_slist_unlink_removes_member q next_of 2 [1] [] 2)
    as (q' & n' & Hun & Hl & Hc & _).
  - apply NoDup_ListNoDup. repeat constructor; simpl; intuition lia.
  - split; [|reflexivity]. by vm_compute.
  - simpl. lia.
  - exists q', n'. split_and!; assumption.
Defined.

(** No walk finds a context that is not in the chain from [head_]. *)
Lemma unlink_off_chain q next_of c l fuel :
  listed q next_of l -> c ∉ l -> unlink fuel c q next_of = None.
Proof.
  intros [Hch Hhead] Hc. unfold unlink. rewrite Hhead.
  destruct (head l) as [h|] eqn:Hh; [|reflexivity].
  assert (Hwalk : forall l' indirect fuel',
             chained next_of l' -> c ∉ l' ->
             deref q next_of indirect = head l' ->
             unlink_walk fuel' c q next_of indirect = None).
  { clear. induction l' as [|x l' IH]; intros indirect fuel' Hch Hc Hderef;
      (destruct fuel' as [|fuel']; [reflexivity|]);
      cbn [unlink_walk]; rewrite Hderef; [reflexivity|].
    cbn [head]. apply not_elem_of_cons in Hc as [Hcx Hc].
    destruct Hch as [Hnext Hch]. rewrite decide_False by done.
    by apply IH. }
  rewrite (Hwalk l head_cell fuel Hch Hc); [reflexivity|].
  cbn [deref]. by rewrite Hhead.
Qed.

(** X7.  [unlink( c)] of a context that is not in the chain from [head_]
    has no defined result: on an empty queue the assertion fails, and
    otherwise the walk runs off the end of the chain and dereferences
    [nullptr]. *)
Theorem context_slist_unlink_needs_member q next_of c l fuel :
  listed q next_of l -> c ∉ l -> unlink fuel c q next_of = None.
Proof. apply unlink_off_chain. Qed.

Lemma context_slist_unlink_needs_member_witness :
  unlink 5 3 (push 1 init ∅).1 (push 1 init ∅).2 = None
  /\ unlink 5 3 init ∅ = None.
Proof.
  split.
  - apply (context_slist_unlink_needs_member _ _ 3 [1] 5).
    + split; [|reflexivity]. by vm_compute.
    + intros Hin. apply elem_of_cons in Hin as [Hin|Hin]; [discriminate|].
      by apply elem_of_nil in Hin.
  - apply (context_slist_unlink_needs_member _ _ 3 [] 5).
    + split; [done|reflexivity].
    + apply not_elem_of_nil.
Defined.
End context_slist_unlink.

(** ** [context_slist]: the chain from [head_], and the loop that pops it *)

Section context_slist_chain.
Import context_slist.
Implicit Types (q : context_slist.t) (next_of : links) (l : list context).

(** The chain that starts at [head_] is one list at most. *)
Lemma chained_unique next_of l : forall l',
  chained next_of l -> chained next_of l' -> head l = head l' -> l = l'.
Proof.
  induction l as [|x l IH]; intros [|y l'] Hch Hch' Hhead; try done.
  simpl in Hhead. injection Hhead as <-.
  destruct Hch as [Hx Hch], Hch' as [Hx' Hch'].
  f_equal. apply IH; [done|done|congruence].
Qed.

Lemma listed_unique q next_of l l' :
  listed q next_of l -> listed q next_of l' -> l = l'.
Proof.
  intros [Hch Hhead] [Hch' Hhead']. eapply chained_unique; [done|done|congruence].
Qed.

(** [pop] reads [head_] and the link of the head, and nothing else: on the
    chain it is the removal of the first element. *)
Lemma slist_pop_is_chain_pop q next_of l :
  listed q next_of l ->
  (pop q next_of).1 = (wait_queue.pop l).1
  /\ listed (pop q next_of).2 next_of (wait_queue.pop l).2
  /\ tail_ (pop q next_of).2 = tail_ q.
Proof.
  intros [Hch Hhead]. unfold pop. rewrite Hhead.
  destruct l as [|x l]; cbn [head wait_queue.pop fst snd].
  - split; [reflexivity|]. split; [|reflexivity]. split; [done|exact Hhead].
  - destruct Hch as [Hnext Hch]. split; [reflexivity|].
    split; [|reflexivity]. split; [exact Hch|exact Hnext].
Qed.

(** On a chain that ends, the loop ends: it hands out the chain in order
    and leaves [head_] at [nullptr]. *)
Lemma pop_each_listed l : forall fuel q next_of,
  listed q next_of l -> length l < fuel ->
  pop_each fuel q next_of = Some (l, drained q).
Proof.
  induction l as [|x l IH]; intros fuel q next_of [Hch Hhead] Hfuel;
    (destruct fuel as [|fuel]; [simpl in Hfuel; lia|]);
    cbn [pop_each]; unfold pop; rewrite Hhead; cbn [head].
  - destruct q as [h tl]. simpl in Hhead. subst h. reflexivity.
  - destruct Hch as [Hnext Hch].
    rewrite (IH fuel {| head_ := next_of !! x; tail_ := tail_ q |} next_of);
      [reflexivity|split; [exact Hch|exact Hnext]|simpl in Hfuel; lia].
Qed.

(** A loop that has ended has handed out the chain from [head_]. *)
Lemma pop_each_inv fuel : forall q next_of l q',
  pop_each fuel q next_of = Some (l, q') ->
  listed q next_of l /\ q' = drained q.
Proof.
  induction fuel as [|fuel IH]; intros q next_of l q'; [done|].
  cbn [pop_each]. unfold pop. destruct (head_ q) as [h|] eqn:Hh.
  - destruct (pop_each fuel _ next_of) as [[woken rest]|] eqn:Hrec; [|done].
    intros [= <- <-]. apply IH in Hrec as [[Hch Hhead] ->].
    split; [|reflexivity]. split; [split; [exact Hhead|exact Hch]|].
    by rewrite Hh.
  - intros [= <- <-]. split.
    + split; [done|]. by rewrite Hh.
    + destruct q as [h tl]. simpl in Hh. subst h. reflexivity.
Qed.

(** The loop of [context_slist] and the loop on the chain hand out the same
    contexts. *)
Lemma slist_pop_each_is_chain_pop_each q next_of l fuel :
  listed q next_of l -> length l < fuel ->
  exists q',
    pop_each fuel q next_of = Some ((wait_queue.pop_each l).1, q')
    /\ listed q' next_of (wait_queue.pop_each l).2.
Proof.
  intros Hq Hfuel. exists (drained q).
  rewrite (pop_each_listed l fuel q next_of Hq Hfuel), pop_each_all.
  split; [reflexivity|]. split; [done|reflexivity].
Qed.

(** Once [head_] is [nullptr] the loop ends at once. *)
Lemma pop_each_drained fuel q next_of :
  pop_each (S fuel) (drained q) next_of = Some ([], drained q).
Proof. reflexivity. Qed.


(** [push] on a queue whose [head_] is [nullptr] while [tail_] is not the
    address of [head_]: the context is linked behind a context that has
    left, and [head_] stays [nullptr]. *)
Lemma push_behind_stale_tail c q next_of :
  head_ q = None -> tail_ q <> head_cell ->
  head_ (push c q next_of).1 = None
  /\ exists z, (push c q next_of).2 !! z = Some c.
Proof.
  intros Hh Ht. unfold push. destruct (tail_ q) as [|p] eqn:Hp; [done|].
  cbn [deref]. destruct (next_of !! p) as [z|] eqn:Hz.
  - cbn [set_next].
    destruct (<[z:=c]> next_of !! p) as [z'|]; cbn [fst snd head_];
      (split; [exact Hh|]); exists z; apply lookup_insert_eq.
  - cbn [assign set_next fst snd]. split; [exact Hh|].
    exists p. apply lookup_insert_eq.
Qed.

End context_slist_chain.

(** ** [condition_variable_any]: [notify_one] and [notify_all] *)

Section condition_variable_more.
Import condition_variable_any.

Lemma made_ready_app tr1 tr2 :
  made_ready (tr1 ++ tr2) = made_ready tr1 ++ made_ready tr2.
Proof.
  induction tr1 as [|[| |c] tr1 IH]; simpl; [done|done|done|]. by rewrite IH.
Qed.

Lemma made_ready_set_ready l : made_ready (map set_ready l) = l.
Proof. induction l as [|c l IH]; simpl; [done|]. by rewrite IH. Qed.

(** X8.  [notify_one] hands out the waiters one at a time, oldest first,
    and always after releasing the spinlock: [n] calls make the first [n]
    waiters ready, in the order they queued, and leave the others queued in
    their order; calls beyond the number of waiters wake nobody.
    [notify_all] makes all waiters ready in that same order and leaves the
    queue empty, as [notify_one] called once per waiter does. *)
Theorem notify_one_repeated_and_notify_all (cv : t) (n : nat) :
  made_ready (notify_one_times n cv).2 = take n (wait_queue_ cv)
  /\ wait_queue_ (notify_one_times n cv).1 = drop n (wait_queue_ cv)
  /\ ready_under_lock false (notify_one_times n cv).2 = []
  /\ made_ready (notify_all cv).2 = wait_queue_ cv
  /\ wait_queue_ (notify_all cv).1 = []
  /\ made_ready (notify_all cv).2
     = made_ready (notify_one_times (length (wait_queue_ cv)) cv).2.
Proof.
  assert (Hn : forall k cv0,
             made_ready (notify_one_times k cv0).2 = take k (wait_queue_ cv0)
             /\ wait_queue_ (notify_one_times k cv0).1 = drop k (wait_queue_ cv0)
             /\ forall held,
                 ready_under_lock held (notify_one_times k cv0).2 = []).
  { induction k as [|k IH]; intros [q]; [by destruct q|].
    cbn [notify_one_times]. unfold notify_one. cbn [wait_queue_].
    destruct q as [|c q]; cbn [wait_queue.pop].
    - destruct (IH {| wait_queue_ := [] |}) as (H1 & H2 & H3).
      destruct (notify_one_times k {| wait_queue_ := [] |}) as [cv1 tr1].
      cbn [fst snd wait_queue_] in *. rewrite made_ready_app, H1.
      split; [by destruct k|]. split; [by rewrite H2; destruct k|].
      intros held. simpl. apply H3.
    - destruct (IH {| wait_queue_ := q |}) as (H1 & H2 & H3).
      destruct (notify_one_times k {| wait_queue_ := q |}) as [cv1 tr1].
      cbn [fst snd wait_queue_] in *. rewrite made_ready_app, H1.
      split; [reflexivity|]. split; [exact H2|].
      intros held. simpl. apply H3. }
  destruct (Hn n cv) as (H1 & H2 & H3).
  assert (Hall : made_ready (notify_all cv).2 = wait_queue_ cv).
  { destruct cv as [q]. unfold notify_all. cbn [wait_queue_].
    rewrite pop_each_all. cbn [snd].
    rewrite !made_ready_app, made_ready_set_ready. simpl. by rewrite app_nil_r. }
  split_and!; try done.
  - destruct cv as [q]. unfold notify_all. cbn [wait_queue_].
    by rewrite pop_each_all.
  - rewrite Hall. destruct (Hn (length (wait_queue_ cv)) cv) as (-> & _).
    by rewrite firstn_all.
Qed.
End condition_variable_more.

(** ** [unbuffered_channel] *)

Import unbuffered_channel.

#[local] Arguments context_slist.push : simpl never.
#[local] Arguments context_slist.pop : simpl never.
#[local] Arguments context_slist.unlink : simpl never.
#[local] Arguments context_slist.pop_each : simpl never.

(** Unfold one transition of a member function down to the fields. *)
Ltac unfold_channel :=
  unfold push_copy_iter, push_move_iter, push_copy_resume, push_move_resume,
    push_copy_published, push_copy_occupied, push_move_published, push_move_occupied,
    push_wait_until_copy_published, push_wait_until_copy_occupied,
    push_wait_until_move_published, push_wait_until_move_occupied,
    pop_claimed, pop_vacant, value_pop_claimed, value_pop_vacant,
    pop_wait_until_claimed, pop_wait_until_vacant,
    push_wait_until_copy_iter, push_wait_until_move_iter,
    push_wait_until_copy_resume, push_wait_until_move_resume,
    pop_iter, pop_resume, value_pop_iter, value_pop_resume,
    pop_wait_until_iter, pop_wait_until_resume,
    destructor, close, try_push_, try_pop_, compare_exchange_strong,
    is_closed, is_empty_, set_slot_, set_closed_,
    set_waiting_producers_, set_waiting_consumers_, left_by in *.

(** Split on every test a transition makes. *)
Ltac split_channel :=
  repeat (progress (unfold_channel; simpl in * )
          || (case_match; simpl in *; simplify_eq/=));
  simplify_eq/=.

Section channel_facts.
Context {value_type : Type}.
Implicit Types (ch : t value_type) (tr : transition value_type).

(** [close()] on queues whose chains end: the flag is set, both queues are
    popped until [head_] is [nullptr], producers first. *)
Lemma close_listed fuel ch lp lc :
  context_slist.listed (waiting_producers_ ch) (next_of ch) lp ->
  context_slist.listed (waiting_consumers_ ch) (next_of ch) lc ->
  length lp < fuel -> length lc < fuel ->
  close fuel ch
  = Some ({| slot_ := slot_ ch; closed_ := true;
             waiting_producers_ := context_slist.drained (waiting_producers_ ch);
             waiting_consumers_ := context_slist.drained (waiting_consumers_ ch);
             next_of := next_of ch |},
          lp ++ lc).
Proof.
  intros Hp Hc Hlp Hlc.
  unfold close, set_closed_, set_waiting_producers_, set_waiting_consumers_.
  cbn [waiting_producers_ waiting_consumers_ next_of slot_ closed_].
  rewrite (pop_each_listed lp fuel _ _ Hp Hlp).
  cbn [waiting_producers_ waiting_consumers_ next_of slot_ closed_].
  rewrite (pop_each_listed lc fuel _ _ Hc Hlc). reflexivity.
Qed.

(** A [close()] that has returned has found two chains that end. *)
Lemma close_inv fuel ch ch1 ready :
  close fuel ch = Some (ch1, ready) ->
  exists lp lc,
    context_slist.listed (waiting_producers_ ch) (next_of ch) lp
    /\ context_slist.listed (waiting_consumers_ ch) (next_of ch) lc
    /\ ready = lp ++ lc
    /\ ch1 = {| slot_ := slot_ ch; closed_ := true;
                waiting_producers_ := context_slist.drained (waiting_producers_ ch);
                waiting_consumers_ := context_slist.drained (waiting_consumers_ ch);
                next_of := next_of ch |}.
Proof.
  unfold close, set_closed_, set_waiting_producers_, set_waiting_consumers_.
  cbn [waiting_producers_ waiting_consumers_ next_of slot_ closed_].
  destruct (context_slist.pop_each fuel (waiting_producers_ ch) (next_of ch))
    as [[lp qp]|] eqn:Hp; [|done].
  cbn [waiting_producers_ waiting_consumers_ next_of slot_ closed_].
  destruct (context_slist.pop_each fuel (waiting_consumers_ ch) (next_of ch))
    as [[lc qc]|] eqn:Hc; [|done].
  intros [= <- <-].
  apply pop_each_inv in Hp as [Hp ->]. apply pop_each_inv in Hc as [Hc ->].
  exists lp, lc. done.
Qed.

(** No transition takes [closed_] from [true] to [false]. *)
Lemma exec_keeps_closed fuel tr ch ch' :
  closed_ ch = true -> exec fuel tr ch = Some ch' -> closed_ ch' = true.
Proof.
  intros Hc Hex. destruct ch as [s c producers consumers links].
  simpl in Hc. subst c.
  destruct tr; simpl in Hex; split_channel; done.
Qed.

(** A transition other than those of [close()] and of the destructor
    leaves [closed_] as it is. *)
Lemma exec_closed_unchanged fuel tr ch ch' :
  tr <> do_close _ -> tr <> do_destructor _ ->
  exec fuel tr ch = Some ch' -> closed_ ch' = closed_ ch.
Proof.
  intros H1 H2 Hex. destruct ch as [s c producers consumers links].
  destruct tr; try done; simpl in Hex; split_channel; done.
Qed.

Lemma exec_all_keeps_closed fuel trs ch ch' :
  closed_ ch = true -> exec_all fuel trs ch = Some ch' -> closed_ ch' = true.
Proof.
  revert ch. induction trs as [|tr trs IH]; intros ch Hc; simpl.
  - by intros [= <-].
  - destruct (exec fuel tr ch) as [ch1|] eqn:Hex; [|done].
    apply IH. by eapply exec_keeps_closed.
Qed.

End channel_facts.

(** C7.  [close()] is idempotent: a second [close()] right after the first
    leaves the closed flag, the slot pointer, both wait-queues and the
    links of the contexts as the first call left them, and makes no context
    ready.  The first call has set the flag, kept the slot pointer, popped
    both queues until [head_] is [nullptr] and made ready the waiting
    producers and then the waiting consumers, each chain in its order; on
    queues whose chains end it returns, and so does the second call. *)
Theorem close_is_idempotent {value_type : Type} (fuel fuel' : nat)
    (ch : t value_type) :
  (forall ch1 ready,
      close fuel ch = Some (ch1, ready) ->
      close (S fuel') ch1 = Some (ch1, [])
      /\ closed_ ch1 = true
      /\ slot_ ch1 = slot_ ch
      /\ waiting_producers_ ch1 = context_slist.drained (waiting_producers_ ch)
      /\ waiting_consumers_ ch1 = context_slist.drained (waiting_consumers_ ch)
      /\ context_slist.empty (waiting_producers_ ch1) = true
      /\ context_slist.empty (waiting_consumers_ ch1) = true
      /\ next_of ch1 = next_of ch
      /\ exists lp lc,
          context_slist.listed (waiting_producers_ ch) (next_of ch) lp
          /\ context_slist.listed (waiting_consumers_ ch) (next_of ch) lc
          /\ ready = lp ++ lc)
  /\ (forall lp lc,
         context_slist.listed (waiting_producers_ ch) (next_of ch) lp ->
         context_slist.listed (waiting_consumers_ ch) (next_of ch) lc ->
         length lp < fuel -> length lc < fuel ->
         exists ch1,
           close fuel ch = Some (ch1, lp ++ lc)
           /\ close (S fuel') ch1 = Some (ch1, [])).
Proof.
  assert (Hagain : forall ch1 ready,
             close fuel ch = Some (ch1, ready) ->
             close (S fuel') ch1 = Some (ch1, [])).
  { intros ch1 ready H. apply close_inv in H as (lp & lc & _ & _ & _ & ->).
    reflexivity. }
  split.
  - intros ch1 ready H. split; [by eapply Hagain|].
    apply close_inv in H as (lp & lc & Hp & Hc & -> & ->).
    split_and!; try reflexivity. by exists lp, lc.
  - intros lp lc Hp Hc Hlp Hlc. eexists. split.
    + by apply close_listed.
    + eapply Hagain. by apply close_listed.
Qed.

(** The consumers 4 and 5 wait on a fresh channel; [close()] makes them
    ready, and a second [close()] changes nothing. *)
Lemma close_is_idempotent_witness :
  let ch : t nat := left_by (pop_iter 5 0 (left_by (pop_iter 4 0 (init ∅)))) in
  exists ch1,
    close 3 ch = Some (ch1, [4; 5]) /\ close 1 ch1 = Some (ch1, []).
Proof.
  intros ch.
  destruct (close_is_idempotent 3 0 ch) as [_ H].
  apply (H [] [4; 5]).
  - split; [done|reflexivity].
  - split; [by vm_compute|reflexivity].
  - simpl. lia.
  - simpl. lia.
Defined.

(** C10.  The closed flag is monotone: once [is_closed()] returns [true], it
    returns [true] after any further transitions of [push], [pop],
    [value_pop], the timed variants, [close] and the destructor. *)
Theorem closed_flag_is_monotone {value_type : Type} (fuel : nat)
    (ch ch' : t value_type) (trs : list (transition value_type)) :
  is_closed ch = true -> exec_all fuel trs ch = Some ch' ->
  is_closed ch' = true.
Proof. unfold is_closed. apply exec_all_keeps_closed. Qed.

Lemma closed_flag_is_monotone_witness :
  let ch : t nat :=
    {| slot_ := None; closed_ := true;
       waiting_producers_ := context_slist.init;
       waiting_consumers_ := context_slist.init; next_of := ∅ |} in
  let s := address_of 100 (mk_slot 7 1) in
  close 1 (init ∅) = Some (ch, [])
  /\ exec_all 2 [do_push_copy _ 1 s; do_pop _ 2 0; do_value_pop _ 3;
                 do_push_wait_until_move_resume _ 1 s slot_published false;
                 do_close _; do_destructor _] ch = Some ch
  /\ is_closed ch = true.
Proof.
  intros ch s.
  assert (H : exec_all 2 [do_push_copy _ 1 s; do_pop _ 2 0; do_value_pop _ 3;
                          do_push_wait_until_move_resume _ 1 s slot_published false;
                          do_close _; do_destructor _] ch = Some ch)
    by reflexivity.
  split; [reflexivity|]. split; [exact H|].
  exact (closed_flag_is_monotone 2 ch ch _ eq_refl H).
Defined.

Section closed_channel.
Context {value_type : Type}.
Implicit Types (ch : t value_type).

Lemma push_copy_closed ch a s_addr v fuel wakes :
  closed_ ch = true ->
  push_copy a s_addr v (S fuel) wakes ch = Some (channel_op_status.closed, ch, []).
Proof.
  intros Hc. unfold push_copy. simpl. unfold push_copy_iter, is_closed.
  rewrite Hc. reflexivity.
Qed.

Lemma push_move_closed ch a s_addr v fuel wakes :
  closed_ ch = true ->
  push_move a s_addr v (S fuel) wakes ch = Some (channel_op_status.closed, ch, []).
Proof.
  intros Hc. unfold push_move. simpl. unfold push_move_iter, is_closed.
  rewrite Hc. reflexivity.
Qed.

Lemma push_wait_until_copy_closed ch a s_addr v tp fuel wakes :
  closed_ ch = true ->
  push_wait_until_copy a s_addr v tp (S fuel) wakes ch
  = Some (channel_op_status.closed, ch, []).
Proof.
  intros Hc. unfold push_wait_until_copy. simpl.
  unfold push_wait_until_copy_iter, is_closed. rewrite Hc. reflexivity.
Qed.

Lemma push_wait_until_move_closed ch a s_addr v tp fuel wakes :
  closed_ ch = true ->
  push_wait_until_move a s_addr v tp (S fuel) wakes ch
  = Some (channel_op_status.closed, ch, []).
Proof.
  intros Hc. unfold push_wait_until_move. simpl.
  unfold push_wait_until_move_iter, is_closed. rewrite Hc. reflexivity.
Qed.

Lemma pop_closed ch a v fuel wakes :
  closed_ ch = true -> slot_ ch = None ->
  pop a v (S fuel) wakes ch = Some ((channel_op_status.closed, v), ch, []).
Proof.
  intros Hc Hs. destruct ch as [s c producers consumers links].
  simpl in Hc, Hs. subst s c. reflexivity.
Qed.

Lemma pop_wait_until_closed ch a v tp fuel wakes :
  closed_ ch = true -> slot_ ch = None ->
  pop_wait_until a v tp (S fuel) wakes ch
  = Some ((channel_op_status.closed, v), ch, []).
Proof.
  intros Hc Hs. destruct ch as [s c producers consumers links].
  simpl in Hc, Hs. subst s c. reflexivity.
Qed.

End closed_channel.

(** C4.  After [close()], whatever else has happened to the channel since,
    [push], [push_wait_for] and [push_wait_until] (both overloads each)
    return [closed], leave the channel as it is (no slot published, the
    caller in no queue, no link written) and wake nobody; and [pop],
    [pop_wait_for] and [pop_wait_until] return [closed] with the caller's
    value untouched when no slot is published.  A call that was past its
    first test when the channel was closed finds [closed_] set under the
    spinlock and returns [closed] as well, without queueing itself. *)
Theorem closed_channel_refuses {value_type : Type}
    (fuel0 fuel1 : nat) (ch0 ch1 ch : t value_type) (ready0 : list context)
    (trs : list (transition value_type))
    (active_ctx : context) (s_addr : nat) (value_ : value_type)
    (timeout_time now timeout_duration : nat)
    (fuel : nat) (wakes : list (bool * t value_type)) :
  close fuel0 ch0 = Some (ch1, ready0) ->
  exec_all fuel1 trs ch1 = Some ch ->
  let refused := Some (channel_op_status.closed, ch, []) in
  let drained := Some ((channel_op_status.closed, value_), ch, []) in
  (push_copy active_ctx s_addr value_ (S fuel) wakes ch = refused
   /\ push_move active_ctx s_addr value_ (S fuel) wakes ch = refused
   /\ push_wait_until_copy active_ctx s_addr value_ timeout_time (S fuel) wakes ch
      = refused
   /\ push_wait_until_move active_ctx s_addr value_ timeout_time (S fuel) wakes ch
      = refused
   /\ push_wait_for_copy now active_ctx s_addr value_ timeout_duration (S fuel) wakes ch
      = refused
   /\ push_wait_for_move now active_ctx s_addr value_ timeout_duration (S fuel) wakes ch
      = refused)
  /\ (slot_ ch = None ->
      pop active_ctx value_ (S fuel) wakes ch = drained
      /\ pop_wait_until active_ctx value_ timeout_time (S fuel) wakes ch = drained
      /\ pop_wait_for now active_ctx value_ timeout_duration (S fuel) wakes ch
         = drained)
  /\ (push_copy_occupied active_ctx ch = (Returned channel_op_status.closed, ch, [])
      /\ push_move_occupied active_ctx ch = (Returned channel_op_status.closed, ch, [])
      /\ push_wait_until_copy_occupied active_ctx timeout_time ch
         = (Returned channel_op_status.closed, ch, [])
      /\ push_wait_until_move_occupied active_ctx timeout_time ch
         = (Returned channel_op_status.closed, ch, [])
      /\ pop_vacant active_ctx value_ ch
         = (Returned (channel_op_status.closed, value_), ch, [])
      /\ pop_wait_until_vacant active_ctx value_ timeout_time ch
         = (Returned (channel_op_status.closed, value_), ch, [])).
Proof.
  intros Hclose Htrs refused drained.
  assert (Hc : closed_ ch = true).
  { eapply exec_all_keeps_closed; [|exact Htrs].
    apply close_inv in Hclose as (lp & lc & _ & _ & _ & ->). reflexivity. }
  split; [|split].
  - unfold push_wait_for_copy, push_wait_for_move.
    split_and!; eauto using push_copy_closed, push_move_closed,
      push_wait_until_copy_closed, push_wait_until_move_closed.
  - intros Hs. unfold pop_wait_for.
    split_and!; eauto using pop_closed, pop_wait_until_closed.
  - unfold push_copy_occupied, push_move_occupied, push_wait_until_copy_occupied,
      push_wait_until_move_occupied, pop_vacant, pop_wait_until_vacant, is_closed.
    rewrite Hc. repeat split; reflexivity.
Qed.

(** The consumers 4 and 5 wait on a fresh channel, the channel is closed,
    consumer 6 calls [pop]; after that [push] and [pop] return [closed]. *)
Lemma closed_channel_refuses_witness :
  let ch0 : t nat := left_by (pop_iter 5 0 (left_by (pop_iter 4 0 (init ∅)))) in
  let ch : t nat :=
    {| slot_ := None; closed_ := true;
       waiting_producers_ := context_slist.init;
       waiting_consumers_ :=
         {| context_slist.head_ := None;
            context_slist.tail_ := context_slist.next_cell 4 |};
       next_of := {[ 4 := 5 ]} |} in
  close 3 ch0 = Some (ch, [4; 5])
  /\ exec_all 1 [do_pop _ 6 0] ch = Some ch
  /\ push_copy 1 100 7 3 [] ch = Some (channel_op_status.closed, ch, [])
  /\ pop 2 0 3 [] ch = Some ((channel_op_status.closed, 0), ch, []).
Proof.
  intros ch0 ch.
  assert (Hclose : close 3 ch0 = Some (ch, [4; 5])) by (by vm_compute).
  assert (Htrs : exec_all 1 [do_pop _ 6 0] ch = Some ch) by reflexivity.
  pose proof (closed_channel_refuses 3 1 ch0 ch ch [4; 5] [do_pop _ 6 0]
                1 100 7 0 0 0 2 [] Hclose Htrs) as [Hpush _].
  pose proof (closed_channel_refuses 3 1 ch0 ch ch [4; 5] [do_pop _ 6 0]
                2 100 0 0 0 0 2 [] Hclose Htrs) as (_ & Hpop & _).
  split; [exact Hclose|]. split; [exact Htrs|]. split.
  - apply Hpush.
  - apply Hpop. reflexivity.
Defined.

(** ** Whole calls *)

Section call_facts.
Context {value_type R : Type}.
Variable iter : t value_type -> step value_type R.
Variable resume : wait_point -> bool -> t value_type -> option (step value_type R).

(** A call that returns does so from a round of its loop, or right after a
    wake, on the channel as the environment left it; what it made ready
    ends with what that last transition made ready. *)
Lemma call_returns fuel wakes ch ready x ch' ready' :
  call iter resume fuel wakes ch ready = Some (x, ch', ready') ->
  (exists ch0 r pre, iter ch0 = (Returned x, ch', r) /\ ready' = pre ++ r)
  \/ (exists w woken chw r pre,
        (woken, chw) ∈ wakes /\ resume w woken chw = Some (Returned x, ch', r)
        /\ ready' = pre ++ r).
Proof.
  revert wakes ch ready.
  induction fuel as [|fuel IH]; intros wakes ch ready; simpl; [done|].
  destruct (iter ch) as [[o ch1] r1] eqn:Hiter.
  destruct o as [y| |w d].
  - intros [= -> -> <-]. left. eauto.
  - intros H. apply IH in H. exact H.
  - destruct wakes as [|[woken chw] wakes]; [done|].
    destruct (resume w woken chw) as [[[o2 ch2] r2]|] eqn:Hres; [|done].
    assert (Hrec : forall ready0,
               call iter resume fuel wakes ch2 ready0 = Some (x, ch', ready') ->
               (exists ch0 r pre, iter ch0 = (Returned x, ch', r) /\ ready' = pre ++ r)
               \/ (exists w0 woken0 chw0 r pre,
                     (woken0, chw0) ∈ (woken, chw) :: wakes
                     /\ resume w0 woken0 chw0 = Some (Returned x, ch', r)
                     /\ ready' = pre ++ r)).
    { intros ready0 H.
      apply IH in H as [H|(w0 & woken0 & chw0 & r & pre & Hin & H)]; [by left|].
      right. exists w0, woken0, chw0, r, pre. split; [|done].
      rewrite elem_of_cons. by right. }
    destruct o2 as [y| |w2 d2]; [|apply Hrec|apply Hrec].
    intros [= -> -> <-]. right. exists w, woken, chw, r2, (ready ++ r1).
    split; [|done]. rewrite elem_of_cons. by left.
Qed.

(** A round of a loop runs on the channel the call was made on or on the
    channel found at a wake, as long as a round that goes on to the next
    one, and a wake that does not return, leave the channel as it is. *)
Lemma call_returns_at fuel wakes ch ready x ch' ready' :
  (forall c c' r, iter c = (Continue, c', r) -> c' = c) ->
  (forall w b c o c' r,
      resume w b c = Some (o, c', r) -> (forall y, o <> Returned y) -> c' = c) ->
  call iter resume fuel wakes ch ready = Some (x, ch', ready') ->
  (exists ch0 r pre,
      (ch0 = ch \/ exists woken, (woken, ch0) ∈ wakes)
      /\ iter ch0 = (Returned x, ch', r) /\ ready' = pre ++ r)
  \/ (exists w woken chw r pre,
        (woken, chw) ∈ wakes /\ resume w woken chw = Some (Returned x, ch', r)
        /\ ready' = pre ++ r).
Proof.
  intros Hiter Hresume. revert wakes ch ready.
  induction fuel as [|fuel IH]; intros wakes ch ready; simpl; [done|].
  destruct (iter ch) as [[o ch1] r1] eqn:Hit.
  destruct o as [y| |w d].
  - intros [= -> -> <-]. left. exists ch, r1, ready. eauto.
  - apply Hiter in Hit as ->. apply IH.
  - destruct wakes as [|[woken chw] wakes]; [done|].
    destruct (resume w woken chw) as [[[o2 ch2] r2]|] eqn:Hres; [|done].
    assert (Hrec : (forall y, o2 <> Returned y) -> forall ready0,
               call iter resume fuel wakes ch2 ready0 = Some (x, ch', ready') ->
               (exists ch0 r pre,
                   (ch0 = ch \/ exists woken0, (woken0, ch0) ∈ (woken, chw) :: wakes)
                   /\ iter ch0 = (Returned x, ch', r) /\ ready' = pre ++ r)
               \/ (exists w0 woken0 chw0 r pre,
                     (woken0, chw0) ∈ (woken, chw) :: wakes
                     /\ resume w0 woken0 chw0 = Some (Returned x, ch', r)
                     /\ ready' = pre ++ r)).
    { intros Ho ready0 H. pose proof (Hresume _ _ _ _ _ _ Hres Ho) as ->.
      apply IH in H as [(ch0 & r & pre & Hat & H)|(w0 & woken0 & chw0 & r & pre & Hin & H)].
      - left. exists ch0, r, pre. split; [|exact H]. right.
        destruct Hat as [->|[woken0 Hin]].
        + exists woken. rewrite elem_of_cons. by left.
        + exists woken0. rewrite elem_of_cons. by right.
      - right. exists w0, woken0, chw0, r, pre. split; [|exact H].
        rewrite elem_of_cons. by right. }
    destruct o2 as [y| |w2 d2]; [|by apply Hrec|by apply Hrec].
    intros [= -> -> <-]. right. exists w, woken, chw, r2, (ready ++ r1).
    split; [|done]. rewrite elem_of_cons. by left.
Qed.
End call_facts.

(** ** The consumers: [pop], [value_pop], [pop_wait_until] *)

Section consumer_facts.
Context {value_type : Type}.
Implicit Types (ch : t value_type) (s : slot_ptr value_type).

(** The channel a consumer leaves that has claimed the slot: no slot
    published, the oldest waiting producer popped. *)
Lemma pop_claimed_spec a s ch :
  pop_claimed a s ch
  = (Returned (channel_op_status.success, value (pointee s)),
     {| slot_ := slot_ ch; closed_ := closed_ ch;
        waiting_producers_ :=
          (context_slist.pop (waiting_producers_ ch) (next_of ch)).2;
        waiting_consumers_ := waiting_consumers_ ch;
        next_of := next_of ch |},
     notified (context_slist.head_ (waiting_producers_ ch)) ++ [ctx (pointee s)]).
Proof.
  unfold pop_claimed, set_waiting_producers_, context_slist.pop.
  destruct (context_slist.head_ (waiting_producers_ ch)); reflexivity.
Qed.

Lemma value_pop_claimed_spec a s ch :
  value_pop_claimed a s ch
  = (Returned (returns (value (pointee s))),
     {| slot_ := slot_ ch; closed_ := closed_ ch;
        waiting_producers_ :=
          (context_slist.pop (waiting_producers_ ch) (next_of ch)).2;
        waiting_consumers_ := waiting_consumers_ ch;
        next_of := next_of ch |},
     notified (context_slist.head_ (waiting_producers_ ch)) ++ [ctx (pointee s)]).
Proof.
  unfold value_pop_claimed, set_waiting_producers_, context_slist.pop.
  destruct (context_slist.head_ (waiting_producers_ ch)); reflexivity.
Qed.

Lemma pop_wait_until_claimed_spec a s ch :
  pop_wait_until_claimed a s ch
  = (Returned (channel_op_status.success, value (pointee s)),
     {| slot_ := slot_ ch; closed_ := closed_ ch;
        waiting_producers_ :=
          (context_slist.pop (waiting_producers_ ch) (next_of ch)).2;
        waiting_consumers_ := waiting_consumers_ ch;
        next_of := next_of ch |},
     notified (context_slist.head_ (waiting_producers_ ch)) ++ [ctx (pointee s)]).
Proof.
  unfold pop_wait_until_claimed, set_waiting_producers_, context_slist.pop.
  destruct (context_slist.head_ (waiting_producers_ ch)); reflexivity.
Qed.

(** What one round of the loop of [value_pop] does, by what it finds. *)
Lemma value_pop_iter_cases active_ctx ch :
  match slot_ ch with
  | Some s =>
      value_pop_iter active_ctx ch
      = (Returned (returns (value (pointee s))),
         {| slot_ := None; closed_ := closed_ ch;
            waiting_producers_ :=
              (context_slist.pop (waiting_producers_ ch) (next_of ch)).2;
            waiting_consumers_ := waiting_consumers_ ch;
            next_of := next_of ch |},
         notified (context_slist.head_ (waiting_producers_ ch))
         ++ [ctx (pointee s)])
  | None =>
      if closed_ ch then
        value_pop_iter active_ctx ch
        = (Returned (throws {| code := operation_not_permitted |}), ch, [])
      else
        value_pop_iter active_ctx ch
        = (Suspended consumer_queued None,
           {| slot_ := None; closed_ := false;
              waiting_producers_ := waiting_producers_ ch;
              waiting_consumers_ :=
                (context_slist.push active_ctx (waiting_consumers_ ch)
                   (next_of ch)).1;
              next_of :=
                (context_slist.push active_ctx (waiting_consumers_ ch)
                   (next_of ch)).2 |},
           [])
  end.
Proof.
  destruct ch as [[s|] c producers consumers links];
    unfold value_pop_iter, try_pop_; cbn [slot_ closed_].
  - rewrite value_pop_claimed_spec. reflexivity.
  - unfold value_pop_vacant, is_closed, is_empty_, set_waiting_consumers_.
    cbn [slot_ closed_ waiting_producers_ waiting_consumers_ next_of].
    destruct c; [reflexivity|]. cbn [negb].
    destruct (context_slist.push active_ctx consumers links); reflexivity.
Qed.

(** Likewise for [pop]. *)
Lemma pop_iter_cases active_ctx (value_ : value_type) ch :
  match slot_ ch with
  | Some s =>
      pop_iter active_ctx value_ ch
      = (Returned (channel_op_status.success, value (pointee s)),
         {| slot_ := None; closed_ := closed_ ch;
            waiting_producers_ :=
              (context_slist.pop (waiting_producers_ ch) (next_of ch)).2;
            waiting_consumers_ := waiting_consumers_ ch;
            next_of := next_of ch |},
         notified (context_slist.head_ (waiting_producers_ ch))
         ++ [ctx (pointee s)])
  | None =>
      if closed_ ch then
        pop_iter active_ctx value_ ch
        = (Returned (channel_op_status.closed, value_), ch, [])
      else
        pop_iter active_ctx value_ ch
        = (Suspended consumer_queued None,
           {| slot_ := None; closed_ := false;
              waiting_producers_ := waiting_producers_ ch;
              waiting_consumers_ :=
                (context_slist.push active_ctx (waiting_consumers_ ch)
                   (next_of ch)).1;
              next_of :=
                (context_slist.push active_ctx (waiting_consumers_ ch)
                   (next_of ch)).2 |},
           [])
  end.
Proof.
  destruct ch as [[s|] c producers consumers links];
    unfold pop_iter, try_pop_; cbn [slot_ closed_].
  - rewrite pop_claimed_spec. reflexivity.
  - unfold pop_vacant, is_closed, is_empty_, set_waiting_consumers_.
    cbn [slot_ closed_ waiting_producers_ waiting_consumers_ next_of].
    destruct c; [reflexivity|]. cbn [negb].
    destruct (context_slist.push active_ctx consumers links); reflexivity.
Qed.

(** Likewise for [pop_wait_until]. *)
Lemma pop_wait_until_iter_cases active_ctx (value_ : value_type) tp ch :
  match slot_ ch with
  | Some s =>
      pop_wait_until_iter active_ctx value_ tp ch
      = (Returned (channel_op_status.success, value (pointee s)),
         {| slot_ := None; closed_ := closed_ ch;
            waiting_producers_ :=
              (context_slist.pop (waiting_producers_ ch) (next_of ch)).2;
            waiting_consumers_ := waiting_consumers_ ch;
            next_of := next_of ch |},
         notified (context_slist.head_ (waiting_producers_ ch))
         ++ [ctx (pointee s)])
  | None =>
      if closed_ ch then
        pop_wait_until_iter active_ctx value_ tp ch
        = (Returned (channel_op_status.closed, value_), ch, [])
      else
        pop_wait_until_iter active_ctx value_ tp ch
        = (Suspended consumer_queued (Some tp),
           {| slot_ := None; closed_ := false;
              waiting_producers_ := waiting_producers_ ch;
              waiting_consumers_ :=
                (context_slist.push active_ctx (waiting_consumers_ ch)
                   (next_of ch)).1;
              next_of :=
                (context_slist.push active_ctx (waiting_consumers_ ch)
                   (next_of ch)).2 |},
           [])
  end.
Proof.
  destruct ch as [[s|] c producers consumers links];
    unfold pop_wait_until_iter, try_pop_; cbn [slot_ closed_].
  - rewrite pop_wait_until_claimed_spec. reflexivity.
  - unfold pop_wait_until_vacant, is_closed, is_empty_, set_waiting_consumers_.
    cbn [slot_ closed_ waiting_producers_ waiting_consumers_ next_of].
    destruct c; [reflexivity|]. cbn [negb].
    destruct (context_slist.push active_ctx consumers links); reflexivity.
Qed.

(** Under the spinlock, after [try_pop_()] has found no slot, [value_pop]
    throws exactly when it reads [closed_] set. *)
Lemma value_pop_vacant_throws active_ctx ch e ch' ready :
  value_pop_vacant active_ctx ch = (Returned (throws e), ch', ready) <->
  (is_closed ch = true /\ e = {| code := operation_not_permitted |}
   /\ ch' = ch /\ ready = []).
Proof.
  unfold value_pop_vacant. destruct (is_closed ch); split.
  - intros H. inversion H; subst. done.
  - intros (_ & -> & -> & ->). reflexivity.
  - destruct (negb (is_empty_ ch)); [intros H; inversion H|].
    destruct (context_slist.push _ _ _). intros H; inversion H.
  - intros (? & _). done.
Qed.
End consumer_facts.

(** C5.  [value_pop] raises exactly when the channel it examines is closed
    with no slot published, the error carries [operation_not_permitted],
    and in every other case that completes it returns the value of the slot
    it claimed.
    - One round of the loop, by what it finds: a published slot is claimed
      and its value returned, whether the channel is closed or not, with
      the oldest waiting producer and then the producer of the value made
      ready; with no slot, the round throws if the channel is closed and
      suspends if it is open.  So the round throws iff the channel is
      closed and no slot is published.
    - The two examinations apart: the slot is examined by [try_pop_], the
      closed flag afterwards under the spinlock.  On whatever channel
      [ch_locked] it runs, the block that has claimed a slot returns the
      value of that slot and never throws; the block that has found none
      throws iff it reads [closed_] set.
    - A whole call on a channel with a slot published returns the value of
      that slot; on a closed channel with no slot it throws.
    - A whole call that has completed did so in a round on the channel it
      was called on or found at a wake: if it threw, that channel was closed
      with no slot published and is left as it was; if it returned a value,
      it is the value of the slot published in that channel, the slot is
      claimed, and the last context made ready is its producer. *)
Theorem value_pop_raises_iff_closed_and_empty {value_type : Type}
    (active_ctx : context) (ch ch_locked : t value_type) :
  let claimed (c : t value_type) :=
    {| slot_ := None; closed_ := closed_ c;
       waiting_producers_ :=
         (context_slist.pop (waiting_producers_ c) (next_of c)).2;
       waiting_consumers_ := waiting_consumers_ c;
       next_of := next_of c |} in
  match slot_ ch with
  | Some s =>
      value_pop_iter active_ctx ch
      = (Returned (returns (value (pointee s))), claimed ch,
         notified (context_slist.head_ (waiting_producers_ ch))
         ++ [ctx (pointee s)])
  | None =>
      if closed_ ch then
        value_pop_iter active_ctx ch
        = (Returned (throws {| code := operation_not_permitted |}), ch, [])
      else (value_pop_iter active_ctx ch).1.1 = Suspended consumer_queued None
  end
  /\ (forall e ch' ready,
         value_pop_iter active_ctx ch = (Returned (throws e), ch', ready) <->
         (is_closed ch = true /\ slot_ ch = None
          /\ e = {| code := operation_not_permitted |} /\ ch' = ch /\ ready = []))
  /\ (forall s,
         value_pop_claimed active_ctx s ch_locked
         = (Returned (returns (value (pointee s))),
            {| slot_ := slot_ ch_locked; closed_ := closed_ ch_locked;
               waiting_producers_ :=
                 (context_slist.pop (waiting_producers_ ch_locked)
                    (next_of ch_locked)).2;
               waiting_consumers_ := waiting_consumers_ ch_locked;
               next_of := next_of ch_locked |},
            notified (context_slist.head_ (waiting_producers_ ch_locked))
            ++ [ctx (pointee s)]))
  /\ (forall e ch' ready,
         value_pop_vacant active_ctx ch_locked = (Returned (throws e), ch', ready) <->
         (is_closed ch_locked = true
          /\ e = {| code := operation_not_permitted |}
          /\ ch' = ch_locked /\ ready = []))
  /\ (forall fuel wakes s,
         slot_ ch = Some s ->
         value_pop active_ctx (S fuel) wakes ch
         = Some (returns (value (pointee s)), claimed ch,
                 notified (context_slist.head_ (waiting_producers_ ch))
                 ++ [ctx (pointee s)]))
  /\ (forall fuel wakes,
         is_closed ch = true -> slot_ ch = None ->
         value_pop active_ctx (S fuel) wakes ch
         = Some (throws {| code := operation_not_permitted |}, ch, []))
  /\ (forall fuel wakes x ch' ready,
         value_pop active_ctx fuel wakes ch = Some (x, ch', ready) ->
         exists ch0,
           (ch0 = ch \/ exists woken, (woken, ch0) ∈ wakes)
           /\ match x with
              | throws e =>
                  e = {| code := operation_not_permitted |}
                  /\ is_closed ch0 = true /\ slot_ ch0 = None /\ ch' = ch0
              | returns v =>
                  exists s,
                    slot_ ch0 = Some s /\ v = value (pointee s)
                    /\ ch' = claimed ch0
                    /\ last ready = Some (ctx (pointee s))
              end).
Proof.
  intros claimed.
  pose proof (value_pop_iter_cases (value_type := value_type) active_ctx) as Hround.
  split; [|split; [|split; [|split; [|split; [|split]]]]].
  - specialize (Hround ch). destruct (slot_ ch) as [s|]; [exact Hround|].
    destruct (closed_ ch); [exact Hround|]. by rewrite Hround.
  - intros e ch' ready. specialize (Hround ch). unfold is_closed. split.
    + intros Hit. destruct (slot_ ch) as [s|] eqn:Hs.
      * rewrite Hround in Hit. inversion Hit.
      * destruct (closed_ ch) eqn:Hc; rewrite Hround in Hit; inversion Hit; subst.
        repeat split; reflexivity.
    + intros (Hc & Hs & -> & -> & ->). rewrite Hs, Hc in Hround. exact Hround.
  - intros s. apply value_pop_claimed_spec.
  - intros e ch' ready. apply value_pop_vacant_throws.
  - intros fuel wakes s Hs. specialize (Hround ch). rewrite Hs in Hround.
    unfold value_pop. cbn [call]. rewrite Hround. reflexivity.
  - intros fuel wakes Hc Hs. specialize (Hround ch).
    unfold is_closed in Hc. rewrite Hs, Hc in Hround.
    unfold value_pop. cbn [call]. rewrite Hround. reflexivity.
  - intros fuel wakes x ch' ready Hcall. unfold value_pop in Hcall.
    apply call_returns_at in Hcall
      as [(ch0 & r & pre & Hat & Hit & ->)|(w & woken & chw & r & pre & _ & Hres & _)].
    + exists ch0. split; [exact Hat|].
      specialize (Hround ch0). unfold is_closed.
      destruct (slot_ ch0) as [s|] eqn:Hs.
      * rewrite Hround in Hit. inversion Hit; subst. exists s.
        repeat split; try reflexivity. by rewrite app_assoc, last_snoc.
      * destruct (closed_ ch0) eqn:Hc; rewrite Hround in Hit; inversion Hit; subst.
        repeat split; reflexivity.
    + inversion Hres.
    + intros c c' r Hit. specialize (Hround c).
      destruct (slot_ c); [|destruct (closed_ c)]; rewrite Hround in Hit;
        inversion Hit.
    + intros w b c o c' r H _. by inversion H.
Qed.

Lemma value_pop_raises_iff_closed_and_empty_witness :
  let ch : t nat :=
    {| slot_ := None; closed_ := true;
       waiting_producers_ := context_slist.init;
       waiting_consumers_ := context_slist.init; next_of := ∅ |} in
  let published : t nat :=
    {| slot_ := Some (address_of 100 (mk_slot 7 1)); closed_ := true;
       waiting_producers_ := context_slist.init;
       waiting_consumers_ := context_slist.init; next_of := ∅ |} in
  is_closed ch = true /\ slot_ ch = None
  /\ value_pop 1 1 [] ch = Some (throws {| code := operation_not_permitted |}, ch, [])
  /\ value_pop 1 1 [] published = Some (returns 7, ch, [1]).
Proof.
  intros ch published. split; [reflexivity|]. split; [reflexivity|].
  pose proof (value_pop_raises_iff_closed_and_empty 1 ch ch)
    as (_ & _ & _ & _ & _ & Hthrow & _).
  pose proof (value_pop_raises_iff_closed_and_empty 1 published ch)
    as (_ & _ & _ & _ & Hvalue & _).
  split.
  - apply Hthrow; reflexivity.
  - apply (Hvalue 0 [] (address_of 100 (mk_slot 7 1))). reflexivity.
Defined.

(** ** Timed waits *)

Section timeout_facts.
Context {value_type : Type}.
Implicit Types (ch : t value_type) (s : slot_ptr value_type).

(** The deadline of a producer fired while its slot was published: it
    returns [timeout] whatever the slot holds, and the exchange result is
    dropped. *)
Lemma push_wait_until_resume_deadline fuel active_ctx s ch :
  push_wait_until_copy_resume fuel active_ctx s slot_published false ch
  = Some (Returned channel_op_status.timeout,
          (compare_exchange_strong (Some s) None ch).2, [])
  /\ push_wait_until_move_resume fuel active_ctx s slot_published false ch
     = Some (Returned channel_op_status.timeout,
             (compare_exchange_strong (Some s) None ch).2, []).
Proof.
  unfold push_wait_until_copy_resume, push_wait_until_move_resume. simpl.
  destruct (compare_exchange_strong (Some s) None ch). done.
Qed.

(** The deadline of a waiter fired that is not in the chain of its queue:
    [unlink] has no defined result. *)
Lemma pop_wait_until_resume_off_chain fuel active_ctx (value_ : value_type) ch l :
  context_slist.listed (waiting_consumers_ ch) (next_of ch) l ->
  active_ctx ∉ l ->
  pop_wait_until_resume fuel active_ctx value_ false ch = None.
Proof.
  intros Hl Hc. unfold pop_wait_until_resume. cbn [negb].
  by rewrite (unlink_off_chain _ _ _ l fuel Hl Hc).
Qed.

Lemma push_wait_until_resume_off_chain fuel active_ctx s w ch l :
  w <> slot_published ->
  context_slist.listed (waiting_producers_ ch) (next_of ch) l ->
  active_ctx ∉ l ->
  push_wait_until_copy_resume fuel active_ctx s w false ch = None
  /\ push_wait_until_move_resume fuel active_ctx s w false ch = None.
Proof.
  intros Hw Hl Hc.
  unfold push_wait_until_copy_resume, push_wait_until_move_resume. cbn [negb].
  rewrite (unlink_off_chain _ _ _ l fuel Hl Hc). by destruct w.
Qed.

End timeout_facts.

(** ** The two overloads of [push] and of [push_wait_until] *)

(** C9.  The [value_type const&] and the [value_type &&] overloads of [push],
    and of [push_wait_until] and [push_wait_for], behave alike: the slot they
    build holds the same value and context, every round of their loops and
    every resumption does the same to the same channel, and whole calls in the
    same environment return the same status, leave the same channel and make
    the same contexts ready; a consumer that pops after either has published
    receives the value pushed.  They differ in what is left in the caller's
    object. *)
Theorem push_overloads_agree {value_type : Type}
    (active_ctx : context) (s_addr : nat) (value_ : value_type)
    (timeout_time now duration : nat) (s : slot_ptr value_type)
    (w : wait_point) (woken : bool)
    (fuel : nat) (wakes : list (bool * t value_type)) (ch : t value_type) :
  (slot_copy value_ active_ctx).1 = (slot_move value_ active_ctx).1
  /\ value (slot_copy value_ active_ctx).1 = value_
  /\ (slot_copy value_ active_ctx).2 = Some value_
  /\ (slot_move value_ active_ctx).2 = None
  /\ push_copy_iter active_ctx s ch = push_move_iter active_ctx s ch
  /\ push_copy_resume w ch = push_move_resume w ch
  /\ push_wait_until_copy_iter active_ctx s timeout_time ch
     = push_wait_until_move_iter active_ctx s timeout_time ch
  /\ push_wait_until_copy_resume fuel active_ctx s w woken ch
     = push_wait_until_move_resume fuel active_ctx s w woken ch
  /\ push_copy active_ctx s_addr value_ fuel wakes ch
     = push_move active_ctx s_addr value_ fuel wakes ch
  /\ push_wait_until_copy active_ctx s_addr value_ timeout_time fuel wakes ch
     = push_wait_until_move active_ctx s_addr value_ timeout_time fuel wakes ch
  /\ push_wait_for_copy now active_ctx s_addr value_ duration fuel wakes ch
     = push_wait_for_move now active_ctx s_addr value_ duration fuel wakes ch
  /\ (is_closed ch = false -> slot_ ch = None ->
      forall consumer v0,
        let by_copy :=
          left_by (push_copy_iter active_ctx
                     (address_of s_addr (slot_copy value_ active_ctx).1) ch) in
        let by_move :=
          left_by (push_wait_until_move_iter active_ctx
                     (address_of s_addr (slot_move value_ active_ctx).1)
                     timeout_time ch) in
        (pop_iter consumer v0 by_copy).1.1
        = Returned (channel_op_status.success, value_)
        /\ (pop_iter consumer v0 by_move).1.1
           = Returned (channel_op_status.success, value_)).
Proof.
  split_and!; try reflexivity.
  intros Hc Hs consumer v0.
  destruct ch as [sl c producers consumers links]. unfold is_closed in Hc.
  simpl in Hc, Hs. subst sl c.
  unfold push_copy_iter, push_wait_until_move_iter, pop_iter, left_by,
    push_copy_published, push_wait_until_move_published, pop_claimed. simpl.
  destruct (context_slist.pop consumers links) as [c q]. simpl.
  destruct (context_slist.pop producers links) as [p q']. simpl.
  split; reflexivity.
Qed.

Lemma push_overloads_agree_witness :
  let published :=
    left_by (push_copy_iter 1 (address_of 100 (slot_copy 7 1).1) (init ∅ : t nat)) in
  (pop_iter 2 0 published).1.1 = Returned (channel_op_status.success, 7).
Proof.
  intros published.
  pose proof (push_overloads_agree 1 100 7 50 0 50 (address_of 100 (mk_slot 7 1))
                slot_published true 1 [] (init ∅ : t nat)) as H.
  destruct H as (_ & _ & _ & _ & _ & _ & _ & _ & _ & _ & _ & H).
  destruct (H eq_refl eq_refl 2 0) as [Hcopy _]. exact Hcopy.
Defined.

(** ** The deadline of a producer whose slot is published *)

(** C1.  [push_wait_until] does not look at the result of the exchange that
    clears [slot_].  Producer 1 publishes its slot with the value 7 and
    suspends; consumer 2 claims the slot, takes 7 and makes 1 ready; the
    deadline of 1 has passed and [wait_until] returns [false].  The exchange
    of 1 from [& s] to [nullptr] fails, since [slot_] is [nullptr] already,
    and both overloads still return [timeout], not [success]. *)
Theorem push_wait_until_timeout_after_consumption :
  let s := address_of 100 (slot_copy 7 1).1 in
  let '(o1, ch1, _) := push_wait_until_copy_iter 1 s 50 (init ∅ : t nat) in
  let '(o2, ch2, ready2) := pop_iter 2 0 ch1 in
  o1 = Suspended slot_published (Some 50)
  /\ slot_ ch1 = Some s
  /\ o2 = Returned (channel_op_status.success, 7)
  /\ ready2 = [1]
  /\ slot_ ch2 = None
  /\ (compare_exchange_strong (Some s) None ch2).1 = false
  /\ push_wait_until_copy_resume 1 1 s slot_published false ch2
     = Some (Returned channel_op_status.timeout, ch2, [])
  /\ push_wait_until_move_resume 1 1 s slot_published false ch2
     = Some (Returned channel_op_status.timeout, ch2, [])
  /\ push_wait_until_copy 1 100 7 50 1 [(false, ch2)] (init ∅)
     = Some (channel_op_status.timeout, ch2, [])
  /\ push_wait_until_move 1 100 7 50 1 [(false, ch2)] (init ∅)
     = Some (channel_op_status.timeout, ch2, []).
Proof. vm_compute. repeat split; reflexivity. Qed.

(** ** The deadline of a queued waiter *)


(** ** The producers: [push] and [push_wait_until] *)

Section producer_facts.
Context {value_type : Type}.
Implicit Types (ch : t value_type) (s : slot_ptr value_type).

(** What one round of the loop of [push] does, by what it finds. *)
Lemma push_copy_iter_cases active_ctx s ch :
  if closed_ ch then
    push_copy_iter active_ctx s ch = (Returned channel_op_status.closed, ch, [])
  else
    match slot_ ch with
    | None =>
        push_copy_iter active_ctx s ch
        = (Suspended slot_published None,
           {| slot_ := Some s; closed_ := false;
              waiting_producers_ := waiting_producers_ ch;
              waiting_consumers_ :=
                (context_slist.pop (waiting_consumers_ ch) (next_of ch)).2;
              next_of := next_of ch |},
           notified (context_slist.head_ (waiting_consumers_ ch)))
    | Some other =>
        push_copy_iter active_ctx s ch
        = (Suspended producer_queued None,
           {| slot_ := Some other; closed_ := false;
              waiting_producers_ :=
                (context_slist.push active_ctx (waiting_producers_ ch)
                   (next_of ch)).1;
              waiting_consumers_ := waiting_consumers_ ch;
              next_of :=
                (context_slist.push active_ctx (waiting_producers_ ch)
                   (next_of ch)).2 |},
           [])
    end.
Proof.
  destruct ch as [[other|] [] producers consumers links];
    unfold push_copy_iter, is_closed, try_push_, set_slot_;
    cbn [slot_ closed_ waiting_producers_ waiting_consumers_ next_of];
    try reflexivity.
  - unfold push_copy_occupied, is_closed, is_empty_, set_waiting_producers_.
    cbn [slot_ closed_ waiting_producers_ waiting_consumers_ next_of].
    destruct (context_slist.push active_ctx producers links); reflexivity.
  - unfold push_copy_published, set_waiting_consumers_, context_slist.pop.
    cbn [slot_ closed_ waiting_producers_ waiting_consumers_ next_of].
    destruct (context_slist.head_ consumers); reflexivity.
Qed.

(** Likewise for [push_wait_until]. *)
Lemma push_wait_until_copy_iter_cases active_ctx s tp ch :
  if closed_ ch then
    push_wait_until_copy_iter active_ctx s tp ch
    = (Returned channel_op_status.closed, ch, [])
  else
    match slot_ ch with
    | None =>
        push_wait_until_copy_iter active_ctx s tp ch
        = (Suspended slot_published (Some tp),
           {| slot_ := Some s; closed_ := false;
              waiting_producers_ := waiting_producers_ ch;
              waiting_consumers_ :=
                (context_slist.pop (waiting_consumers_ ch) (next_of ch)).2;
              next_of := next_of ch |},
           notified (context_slist.head_ (waiting_consumers_ ch)))
    | Some other =>
        push_wait_until_copy_iter active_ctx s tp ch
        = (Suspended producer_queued (Some tp),
           {| slot_ := Some other; closed_ := false;
              waiting_producers_ :=
                (context_slist.push active_ctx (waiting_producers_ ch)
                   (next_of ch)).1;
              waiting_consumers_ := waiting_consumers_ ch;
              next_of :=
                (context_slist.push active_ctx (waiting_producers_ ch)
                   (next_of ch)).2 |},
           [])
    end.
Proof.
  destruct ch as [[other|] [] producers consumers links];
    unfold push_wait_until_copy_iter, is_closed, try_push_, set_slot_;
    cbn [slot_ closed_ waiting_producers_ waiting_consumers_ next_of];
    try reflexivity.
  - unfold push_wait_until_copy_occupied, is_closed, is_empty_,
      set_waiting_producers_.
    cbn [slot_ closed_ waiting_producers_ waiting_consumers_ next_of].
    destruct (context_slist.push active_ctx producers links); reflexivity.
  - unfold push_wait_until_copy_published, set_waiting_consumers_,
      context_slist.pop.
    cbn [slot_ closed_ waiting_producers_ waiting_consumers_ next_of].
    destruct (context_slist.head_ consumers); reflexivity.
Qed.

End producer_facts.

(** ** The rendezvous *)

Section rendezvous.
Context {value_type : Type}.
Implicit Types (ch : t value_type) (s : slot_ptr value_type).

(** X9.  The rendezvous.  On an open channel with no slot published, a round
    of [push] publishes the slot, makes the oldest waiting consumer ready
    and suspends; a round of [pop] by a consumer then claims the slot, hands
    over the value pushed, makes the oldest waiting producer ready and then
    the producer of the value, and leaves no slot published; woken, the
    producer returns [success].  Neither round touches the closed flag or
    writes a link. *)
Theorem rendezvous_hands_over_value ch producer consumer s_addr
    (value_ v0 : value_type) :
  is_closed ch = false -> slot_ ch = None ->
  let s := address_of s_addr (slot_copy value_ producer).1 in
  let pushed := push_copy_iter producer s ch in
  let popped := pop_iter consumer v0 (left_by pushed) in
  pushed = (Suspended slot_published None,
            {| slot_ := Some s; closed_ := false;
               waiting_producers_ := waiting_producers_ ch;
               waiting_consumers_ :=
                 (context_slist.pop (waiting_consumers_ ch) (next_of ch)).2;
               next_of := next_of ch |},
            notified (context_slist.head_ (waiting_consumers_ ch)))
  /\ popped = (Returned (channel_op_status.success, value_),
               {| slot_ := None; closed_ := false;
                  waiting_producers_ :=
                    (context_slist.pop (waiting_producers_ ch) (next_of ch)).2;
                  waiting_consumers_ :=
                    (context_slist.pop (waiting_consumers_ ch) (next_of ch)).2;
                  next_of := next_of ch |},
               notified (context_slist.head_ (waiting_producers_ ch))
               ++ [producer])
  /\ push_copy producer s_addr value_ 1 [(true, left_by popped)] ch
     = Some (channel_op_status.success, left_by popped,
             notified (context_slist.head_ (waiting_consumers_ ch))).
Proof.
  intros Hc Hs s pushed popped. unfold is_closed in Hc.
  assert (Hpushed : pushed
                    = (Suspended slot_published None,
                       {| slot_ := Some s; closed_ := false;
                          waiting_producers_ := waiting_producers_ ch;
                          waiting_consumers_ :=
                            (context_slist.pop (waiting_consumers_ ch)
                               (next_of ch)).2;
                          next_of := next_of ch |},
                       notified (context_slist.head_ (waiting_consumers_ ch)))).
  { pose proof (push_copy_iter_cases producer s ch) as H.
    by rewrite Hc, Hs in H. }
  assert (Hpopped : popped
                    = (Returned (channel_op_status.success, value_),
                       {| slot_ := None; closed_ := false;
                          waiting_producers_ :=
                            (context_slist.pop (waiting_producers_ ch)
                               (next_of ch)).2;
                          waiting_consumers_ :=
                            (context_slist.pop (waiting_consumers_ ch)
                               (next_of ch)).2;
                          next_of := next_of ch |},
                       notified (context_slist.head_ (waiting_producers_ ch))
                       ++ [producer])).
  { subst popped. rewrite Hpushed. unfold left_by. cbn [fst snd].
    match goal with
    | |- context [pop_iter consumer v0 ?c] =>
        pose proof (pop_iter_cases consumer v0 c) as H
    end.
    cbn [slot_ closed_ waiting_producers_ waiting_consumers_ next_of] in H.
    exact H. }
  split; [exact Hpushed|]. split; [exact Hpopped|].
  unfold push_copy. cbn [call]. fold s. fold pushed. rewrite Hpushed.
  cbn [push_copy_resume]. by rewrite app_nil_r.
Qed.

End rendezvous.

Lemma rendezvous_hands_over_value_witness :
  pop_iter 2 0 (left_by (push_copy_iter 1 (address_of 100 (slot_copy 42 1).1)
                           (init ∅ : t nat)))
  = (Returned (channel_op_status.success, 42), init ∅, [1]).
Proof.
  destruct (rendezvous_hands_over_value (init ∅ : t nat) 1 2 100 42 0
              eq_refl eq_refl) as (_ & H & _).
  exact H.
Defined.

(** ** Waiting in the queues *)

Section waiting.
Context {value_type : Type}.
Implicit Types (ch : t value_type) (s : slot_ptr value_type).

Lemma holds_listed q links l :
  context_slist.holds q links l -> context_slist.listed q links l.
Proof. intros (_ & Hch & Hhead & _). by split. Qed.

(** X10.  A waiting consumer is served in its turn.  On an open channel
    with no slot published, whose consumers queue holds [l] with [tail_] in
    place, a consumer that is not queued and whose link is [nullptr] calls
    [pop]: it suspends, and the queue holds [l] followed by the consumer.
    The [push] that comes next publishes its slot, makes the oldest waiter
    ready and takes it off the chain; when nobody else was waiting, that
    waiter is the consumer, whose next round returns [success] with the
    value pushed, leaves no slot published and makes the producer ready. *)
Theorem waiting_consumer_is_served ch consumer producer s_addr
    (value_ v0 : value_type) (l : list context) :
  is_closed ch = false -> slot_ ch = None ->
  context_slist.holds (waiting_consumers_ ch) (next_of ch) l ->
  consumer ∉ l -> next_of ch !! consumer = None ->
  let s := address_of s_addr (slot_copy value_ producer).1 in
  let waiting := pop_iter consumer v0 ch in
  let pushed := push_copy_iter producer s (left_by waiting) in
  let served := pop_iter consumer v0 (left_by pushed) in
  waiting.1.1 = Suspended consumer_queued None
  /\ waiting.2 = []
  /\ slot_ (left_by waiting) = None
  /\ closed_ (left_by waiting) = false
  /\ waiting_producers_ (left_by waiting) = waiting_producers_ ch
  /\ context_slist.holds (waiting_consumers_ (left_by waiting))
       (next_of (left_by waiting)) (l ++ [consumer])
  /\ pushed.1.1 = Suspended slot_published None
  /\ pushed.2 = notified (head (l ++ [consumer]))
  /\ (l = [] -> pushed.2 = [consumer])
  /\ slot_ (left_by pushed) = Some s
  /\ context_slist.listed (waiting_consumers_ (left_by pushed))
       (next_of (left_by pushed)) (tail (l ++ [consumer]))
  /\ served.1.1 = Returned (channel_op_status.success, value_)
  /\ slot_ (left_by served) = None
  /\ last served.2 = Some producer
  /\ pop consumer v0 2 [(true, left_by pushed)] ch
     = Some ((channel_op_status.success, value_), left_by served, served.2).
Proof.
  intros Hc Hs Hq Hin Hnil s waiting pushed served. unfold is_closed in Hc.
  pose proof (push_holds _ _ _ _ Hq Hin Hnil) as Hq'.
  assert (Hwaiting : waiting
                     = (Suspended consumer_queued None,
                        {| slot_ := None; closed_ := false;
                           waiting_producers_ := waiting_producers_ ch;
                           waiting_consumers_ :=
                             (context_slist.push consumer (waiting_consumers_ ch)
                                (next_of ch)).1;
                           next_of :=
                             (context_slist.push consumer (waiting_consumers_ ch)
                                (next_of ch)).2 |},
                        [])).
  { pose proof (pop_iter_cases consumer v0 ch) as H. by rewrite Hs, Hc in H. }
  assert (Hpushed : pushed
                    = (Suspended slot_published None,
                       {| slot_ := Some s; closed_ := false;
                          waiting_producers_ := waiting_producers_ ch;
                          waiting_consumers_ :=
                            (context_slist.pop
                               (context_slist.push consumer
                                  (waiting_consumers_ ch) (next_of ch)).1
                               (context_slist.push consumer
                                  (waiting_consumers_ ch) (next_of ch)).2).2;
                          next_of :=
                            (context_slist.push consumer (waiting_consumers_ ch)
                               (next_of ch)).2 |},
                       notified (head (l ++ [consumer])))).
  { subst pushed. rewrite Hwaiting. unfold left_by. cbn [fst snd].
    pose proof (push_copy_iter_cases producer s
                  {| slot_ := None; closed_ := false;
                     waiting_producers_ := waiting_producers_ ch;
                     waiting_consumers_ :=
                       (context_slist.push consumer (waiting_consumers_ ch)
                          (next_of ch)).1;
                     next_of :=
                       (context_slist.push consumer (waiting_consumers_ ch)
                          (next_of ch)).2 |}) as H.
    cbn [slot_ closed_ waiting_producers_ waiting_consumers_ next_of] in H.
    rewrite H. destruct Hq' as (_ & _ & -> & _). reflexivity. }
  assert (Hserved : served.1.1 = Returned (channel_op_status.success, value_)
                    /\ slot_ (left_by served) = None
                    /\ last served.2 = Some producer).
  { subst served. rewrite Hpushed. unfold left_by. cbn [fst snd].
    match goal with
    | |- context [pop_iter consumer v0 ?c] =>
        pose proof (pop_iter_cases consumer v0 c) as H
    end.
    cbn [slot_ closed_ waiting_producers_ waiting_consumers_ next_of] in H.
    rewrite H. cbn [fst snd slot_]. split; [reflexivity|].
    split; [reflexivity|]. apply last_snoc. }
  assert (Hcall : pop consumer v0 2 [(true, left_by pushed)] ch
                  = Some ((channel_op_status.success, value_), left_by served,
                          served.2)).
  { unfold pop. cbn [call]. fold waiting. rewrite Hwaiting.
    cbn [pop_resume]. fold served.
    destruct Hserved as (Hret & _). destruct served as [[o c] r].
    cbn [fst snd] in Hret. subst o. reflexivity. }
  split_and!; try apply Hserved; try exact Hcall;
    rewrite ?Hwaiting, ?Hpushed; unfold left_by; cbn [fst snd];
    cbn [slot_ closed_ waiting_producers_ waiting_consumers_ next_of];
    try reflexivity.
  - exact Hq'.
  - by intros ->.
  - destruct (slist_pop_is_chain_pop _ _ _ (holds_listed _ _ _ Hq'))
      as (_ & Hl & _).
    destruct (l ++ [consumer]); exact Hl.
Qed.

(** X11.  A second producer waits its turn.  On an open channel where the
    slot of another producer is published and whose producers queue holds
    [l] with [tail_] in place, a producer that is not queued and whose link
    is [nullptr] calls [push]: it leaves the published slot alone, suspends,
    and the queue holds [l] followed by the producer.  The consumer that
    pops next takes the value of the published slot, makes the oldest
    waiting producer ready, then the producer of the value, and takes the
    former off the chain.  The producer's next round finds the slot free
    and publishes its own; woken after that, it returns [success]. *)
Theorem second_producer_waits_its_turn ch producer consumer other s_addr
    (value_ v0 : value_type) (l : list context) :
  is_closed ch = false -> slot_ ch = Some other ->
  context_slist.holds (waiting_producers_ ch) (next_of ch) l ->
  producer ∉ l -> next_of ch !! producer = None ->
  let s := address_of s_addr (slot_copy value_ producer).1 in
  let waiting := push_copy_iter producer s ch in
  let claimed := pop_iter consumer v0 (left_by waiting) in
  let retried := push_copy_iter producer s (left_by claimed) in
  waiting.1.1 = Suspended producer_queued None
  /\ waiting.2 = []
  /\ slot_ (left_by waiting) = Some other
  /\ closed_ (left_by waiting) = false
  /\ waiting_consumers_ (left_by waiting) = waiting_consumers_ ch
  /\ context_slist.holds (waiting_producers_ (left_by waiting))
       (next_of (left_by waiting)) (l ++ [producer])
  /\ claimed.1.1 = Returned (channel_op_status.success, value (pointee other))
  /\ claimed.2 = notified (head (l ++ [producer])) ++ [ctx (pointee other)]
  /\ (l = [] -> claimed.2 = [producer; ctx (pointee other)])
  /\ context_slist.listed (waiting_producers_ (left_by claimed))
       (next_of (left_by claimed)) (tail (l ++ [producer]))
  /\ retried.1.1 = Suspended slot_published None
  /\ slot_ (left_by retried) = Some s
  /\ push_copy_resume slot_published (left_by retried)
     = (Returned channel_op_status.success, left_by retried, [])
  /\ (forall ch_consumed,
         push_copy producer s_addr value_ 2
           [(true, left_by claimed); (true, ch_consumed)] ch
         = Some (channel_op_status.success, ch_consumed, retried.2)).
Proof.
  intros Hc Hs Hq Hin Hnil s waiting claimed retried. unfold is_closed in Hc.
  pose proof (push_holds _ _ _ _ Hq Hin Hnil) as Hq'.
  assert (Hwaiting : waiting
                     = (Suspended producer_queued None,
                        {| slot_ := Some other; closed_ := false;
                           waiting_producers_ :=
                             (context_slist.push producer (waiting_producers_ ch)
                                (next_of ch)).1;
                           waiting_consumers_ := waiting_consumers_ ch;
                           next_of :=
                             (context_slist.push producer (waiting_producers_ ch)
                                (next_of ch)).2 |},
                        [])).
  { pose proof (push_copy_iter_cases producer s ch) as H. by rewrite Hs, Hc in H. }
  assert (Hclaimed : claimed
                     = (Returned (channel_op_status.success, value (pointee other)),
                        {| slot_ := None; closed_ := false;
                           waiting_producers_ :=
                             (context_slist.pop
                                (context_slist.push producer
                                   (waiting_producers_ ch) (next_of ch)).1
                                (context_slist.push producer
                                   (waiting_producers_ ch) (next_of ch)).2).2;
                           waiting_consumers_ := waiting_consumers_ ch;
                           next_of :=
                             (context_slist.push producer (waiting_producers_ ch)
                                (next_of ch)).2 |},
                        notified (head (l ++ [producer]))
                        ++ [ctx (pointee other)])).
  { subst claimed. rewrite Hwaiting. unfold left_by. cbn [fst snd].
    match goal with
    | |- context [pop_iter consumer v0 ?c] =>
        pose proof (pop_iter_cases consumer v0 c) as H
    end.
    cbn [slot_ closed_ waiting_producers_ waiting_consumers_ next_of] in H.
    rewrite H. destruct Hq' as (_ & _ & -> & _). reflexivity. }
  assert (Hretried : retried.1.1 = Suspended slot_published None
                     /\ slot_ (left_by retried) = Some s).
  { subst retried. rewrite Hclaimed. unfold left_by. cbn [fst snd].
    match goal with
    | |- context [push_copy_iter producer s ?c] =>
        pose proof (push_copy_iter_cases producer s c) as H
    end.
    cbn [slot_ closed_ waiting_producers_ waiting_consumers_ next_of] in H.
    rewrite H. split; reflexivity. }
  assert (Hcall : forall ch_consumed,
             push_copy producer s_addr value_ 2
               [(true, left_by claimed); (true, ch_consumed)] ch
             = Some (channel_op_status.success, ch_consumed, retried.2)).
  { intros ch_consumed. unfold push_copy. cbn [call]. fold s. fold waiting.
    rewrite Hwaiting. cbn [push_copy_resume]. fold retried.
    destruct Hretried as (Hsusp & _). destruct retried as [[o c] r].
    cbn [fst snd] in Hsusp. subst o. cbn [push_copy_resume].
    by rewrite app_nil_r. }
  split_and!; try apply Hretried; try exact Hcall;
    rewrite ?Hwaiting, ?Hclaimed; unfold left_by; cbn [fst snd];
    cbn [slot_ closed_ waiting_producers_ waiting_consumers_ next_of];
    try reflexivity.
  - exact Hq'.
  - by intros ->.
  - destruct (slist_pop_is_chain_pop _ _ _ (holds_listed _ _ _ Hq'))
      as (_ & Hl & _).
    destruct (l ++ [producer]); exact Hl.
Qed.

End waiting.

Lemma waiting_consumer_is_served_witness :
  let waiting := pop_iter 2 0 (init ∅ : t nat) in
  let pushed :=
    push_copy_iter 1 (address_of 100 (slot_copy 42 1).1) (left_by waiting) in
  waiting.1.1 = Suspended consumer_queued None
  /\ pushed.2 = [2]
  /\ (pop_iter 2 0 (left_by pushed)).1.1
     = Returned (channel_op_status.success, 42).
Proof.
  intros waiting pushed.
  assert (Hnil : next_of (init ∅ : t nat) !! 2 = None) by (by vm_compute).
  destruct (waiting_consumer_is_served (init ∅ : t nat) 2 1 100 42 0 []
              eq_refl eq_refl (holds_init ∅) (not_elem_of_nil 2) Hnil)
    as (H1 & _ & _ & _ & _ & _ & _ & _ & H2 & _ & _ & H3 & _).
  split; [exact H1|]. split; [exact (H2 eq_refl)|exact H3].
Defined.

Lemma second_producer_waits_its_turn_witness :
  let published :=
    left_by (push_copy_iter 1 (address_of 100 (slot_copy 7 1).1) (init ∅ : t nat)) in
  let waiting := push_copy_iter 2 (address_of 200 (slot_copy 8 2).1) published in
  waiting.1.1 = Suspended producer_queued None
  /\ (pop_iter 3 0 (left_by waiting)).2 = [2; 1].
Proof.
  intros published waiting.
  assert (Hnil : next_of published !! 2 = None) by (by vm_compute).
  destruct (second_producer_waits_its_turn published 2 3
              (address_of 100 (slot_copy 7 1).1) 200 8 0 []
              eq_refl eq_refl (holds_init ∅) (not_elem_of_nil 2) Hnil)
    as (H1 & _ & _ & _ & _ & _ & _ & _ & H2 & _).
  split; [exact H1|exact (H2 eq_refl)].
Defined.

(** ** Results, closing, deadlines *)

Section channel_more.
Context {value_type : Type}.
Implicit Types (ch : t value_type) (s : slot_ptr value_type).

(** X12.  What the calls can return.  [push] returns [success] or
    [closed]; [push_wait_until] returns [success], [closed] or [timeout];
    [pop] returns [success] or [closed]; [pop_wait_until] returns
    [success], [closed] or [timeout].  None returns [empty] or [full]. *)
Theorem channel_calls_return_statuses producer consumer s_addr
    (value_ v0 v' : value_type) (tp : time_point)
    (fuel : nat) (wakes : list (bool * t value_type)) ch ch' ready st :
  (push_copy producer s_addr value_ fuel wakes ch = Some (st, ch', ready)
   \/ push_move producer s_addr value_ fuel wakes ch = Some (st, ch', ready)
   \/ pop consumer v0 fuel wakes ch = Some ((st, v'), ch', ready) ->
   st = channel_op_status.success \/ st = channel_op_status.closed)
  /\ (push_wait_until_copy producer s_addr value_ tp fuel wakes ch
        = Some (st, ch', ready)
      \/ push_wait_until_move producer s_addr value_ tp fuel wakes ch
           = Some (st, ch', ready)
      \/ pop_wait_until consumer v0 tp fuel wakes ch = Some ((st, v'), ch', ready) ->
      st = channel_op_status.success \/ st = channel_op_status.closed
      \/ st = channel_op_status.timeout).
Proof.
  assert (Hpush : forall a s c x c' r,
             push_copy_iter a s c = (Returned x, c', r) ->
             x = channel_op_status.closed).
  { intros a s c x c' r H. pose proof (push_copy_iter_cases a s c) as Hc.
    destruct (closed_ c); [|destruct (slot_ c)]; rewrite Hc in H;
      by inversion H. }
  assert (Hpushw : forall a s tp0 c x c' r,
             push_wait_until_copy_iter a s tp0 c = (Returned x, c', r) ->
             x = channel_op_status.closed).
  { intros a s tp0 c x c' r H.
    pose proof (push_wait_until_copy_iter_cases a s tp0 c) as Hc.
    destruct (closed_ c); [|destruct (slot_ c)]; rewrite Hc in H;
      by inversion H. }
  assert (Hpop : forall a (v : value_type) (c : t value_type) x y c' r,
             pop_iter a v c = (Returned (x, y), c', r) ->
             x = channel_op_status.success \/ x = channel_op_status.closed).
  { intros a v c x y c' r H. pose proof (pop_iter_cases a v c) as Hc.
    destruct (slot_ c); [|destruct (closed_ c)]; rewrite Hc in H;
      inversion H; auto. }
  assert (Hpopw : forall a (v : value_type) tp0 (c : t value_type) x y c' r,
             pop_wait_until_iter a v tp0 c = (Returned (x, y), c', r) ->
             x = channel_op_status.success \/ x = channel_op_status.closed).
  { intros a v tp0 c x y c' r H.
    pose proof (pop_wait_until_iter_cases a v tp0 c) as Hc.
    destruct (slot_ c); [|destruct (closed_ c)]; rewrite Hc in H;
      inversion H; auto. }
  split.
  - intros [H|[H|H]]; apply call_returns in H
      as [(ch0 & r & pre & H & _)|(w & woken & chw & r & pre & _ & H & _)].
    + apply Hpush in H. auto.
    + destruct w; inversion H; auto.
    + change (push_move_iter producer ?s ch0)
        with (push_copy_iter producer s ch0) in H.
      apply Hpush in H. auto.
    + destruct w; inversion H; auto.
    + by apply Hpop in H.
    + inversion H.
  - intros [H|[H|H]]; apply call_returns in H
      as [(ch0 & r & pre & H & _)|(w & woken & chw & r & pre & _ & H & _)].
    + apply Hpushw in H. auto.
    + revert H. unfold push_wait_until_copy_resume.
      destruct w, woken; simpl;
        try destruct (compare_exchange_strong _ _ chw);
        try destruct (context_slist.unlink _ _ _ _) as [[? ?]|];
        intros H; inversion H; auto.
    + change (push_wait_until_move_iter producer ?s tp ch0)
        with (push_wait_until_copy_iter producer s tp ch0) in H.
      apply Hpushw in H. auto.
    + revert H. unfold push_wait_until_move_resume.
      destruct w, woken; simpl;
        try destruct (compare_exchange_strong _ _ chw);
        try destruct (context_slist.unlink _ _ _ _) as [[? ?]|];
        intros H; inversion H; auto.
    + apply Hpopw in H. destruct H; auto.
    + revert H. unfold pop_wait_until_resume. destruct woken; simpl;
        try destruct (context_slist.unlink _ _ _ _) as [[? ?]|];
        intros H; inversion H; auto.
Qed.

(** X13.  What [pop] does, and what a [pop] that has returned has done.
    On a channel with a slot published, [pop] returns [success] with the
    value of that slot, claims the slot, and makes the oldest waiting
    producer and then the producer of the value ready; on a closed channel
    with no slot it returns [closed] and leaves the caller's value and the
    channel as they are.  A call that has returned did so in a round on the
    channel it was called on or found at a wake: with [success], a slot was
    published in that channel, the value handed back is the value of that
    slot, the slot is claimed, and the last context made ready is its
    producer; with [closed], that channel was closed with no slot published
    and is left as it was, and the caller's value is as it was. *)
Theorem pop_results consumer (v0 v' : value_type) (fuel : nat)
    (wakes : list (bool * t value_type)) ch ch' ready st :
  let claimed (c : t value_type) :=
    {| slot_ := None; closed_ := closed_ c;
       waiting_producers_ :=
         (context_slist.pop (waiting_producers_ c) (next_of c)).2;
       waiting_consumers_ := waiting_consumers_ c;
       next_of := next_of c |} in
  (forall s,
      slot_ ch = Some s ->
      pop consumer v0 (S fuel) wakes ch
      = Some ((channel_op_status.success, value (pointee s)), claimed ch,
              notified (context_slist.head_ (waiting_producers_ ch))
              ++ [ctx (pointee s)]))
  /\ (slot_ ch = None -> is_closed ch = true ->
      pop consumer v0 (S fuel) wakes ch
      = Some ((channel_op_status.closed, v0), ch, []))
  /\ (pop consumer v0 fuel wakes ch = Some ((st, v'), ch', ready) ->
      exists ch0,
        (ch0 = ch \/ exists woken, (woken, ch0) ∈ wakes)
        /\ ((st = channel_op_status.success
             /\ exists s,
                 slot_ ch0 = Some s /\ v' = value (pointee s)
                 /\ ch' = claimed ch0
                 /\ last ready = Some (ctx (pointee s)))
            \/ (st = channel_op_status.closed /\ v' = v0
                /\ slot_ ch0 = None /\ is_closed ch0 = true /\ ch' = ch0))).
Proof.
  intros claimed.
  pose proof (pop_iter_cases (value_type := value_type) consumer v0) as Hround.
  split; [|split].
  - intros s Hs. specialize (Hround ch). rewrite Hs in Hround.
    unfold pop. cbn [call]. rewrite Hround. reflexivity.
  - intros Hs Hc. specialize (Hround ch). unfold is_closed in Hc.
    rewrite Hs, Hc in Hround. unfold pop. cbn [call]. rewrite Hround.
    reflexivity.
  - intros H. unfold pop in H.
    apply call_returns_at in H
      as [(ch0 & r & pre & Hat & Hit & ->)|(w & woken & chw & r & pre & _ & Hres & _)].
    + exists ch0. split; [exact Hat|].
      specialize (Hround ch0). unfold is_closed.
      destruct (slot_ ch0) as [s|] eqn:Hs.
      * rewrite Hround in Hit. inversion Hit; subst. left.
        split; [reflexivity|]. exists s.
        repeat split; try reflexivity. by rewrite app_assoc, last_snoc.
      * destruct (closed_ ch0) eqn:Hc; rewrite Hround in Hit; inversion Hit; subst.
        right. repeat split; reflexivity.
    + inversion Hres.
    + intros c c' r Hit. specialize (Hround c).
      destruct (slot_ c); [|destruct (closed_ c)]; rewrite Hround in Hit;
        inversion Hit.
    + intros w b c o c' r H0 _. by inversion H0.
Qed.

(** X14.  A closed channel is drained first: while a slot is published,
    [pop] on a closed channel still returns [success] with the value of the
    slot and makes its producer ready; the [pop] after that returns
    [closed]. *)
Theorem closed_channel_is_drained_first ch s consumer consumer'
    (v0 v1 : value_type) (fuel fuel' : nat)
    (wakes wakes' : list (bool * t value_type)) :
  is_closed ch = true -> slot_ ch = Some s ->
  let drained :=
    {| slot_ := None; closed_ := true;
       waiting_producers_ :=
         (context_slist.pop (waiting_producers_ ch) (next_of ch)).2;
       waiting_consumers_ := waiting_consumers_ ch;
       next_of := next_of ch |} in
  pop consumer v0 (S fuel) wakes ch
  = Some ((channel_op_status.success, value (pointee s)), drained,
          notified (context_slist.head_ (waiting_producers_ ch))
          ++ [ctx (pointee s)])
  /\ pop consumer' v1 (S fuel') wakes' drained
     = Some ((channel_op_status.closed, v1), drained, []).
Proof.
  intros Hc Hs drained. unfold is_closed in Hc. split.
  - pose proof (pop_iter_cases consumer v0 ch) as H. rewrite Hs, Hc in H.
    unfold pop. cbn [call]. rewrite H. reflexivity.
  - pose proof (pop_iter_cases consumer' v1 drained) as H.
    cbn [drained slot_ closed_] in H.
    unfold pop. cbn [call]. rewrite H. reflexivity.
Qed.

(** X15.  The destructor closes the channel, makes every waiting producer,
    then every waiting consumer, then the producer of a slot still
    published ready, and does not hand the value of that slot to anybody:
    on queues whose chains end it returns and leaves a closed channel with
    both queues popped until [head_] is [nullptr] and no slot, on which
    every [pop] and every [push] returns [closed] and [value_pop] throws.
    A destructor that has returned has found two chains that end. *)
Theorem destructor_wakes_everybody ch (lp lc : list context) a s_addr
    (value_ v0 : value_type) (fuel fuel' : nat)
    (wakes : list (bool * t value_type)) :
  let ch' :=
    {| slot_ := None; closed_ := true;
       waiting_producers_ := context_slist.drained (waiting_producers_ ch);
       waiting_consumers_ := context_slist.drained (waiting_consumers_ ch);
       next_of := next_of ch |} in
  (context_slist.listed (waiting_producers_ ch) (next_of ch) lp ->
   context_slist.listed (waiting_consumers_ ch) (next_of ch) lc ->
   length lp < fuel -> length lc < fuel ->
   destructor fuel ch
   = Some (ch', lp ++ lc ++ match slot_ ch with
                            | Some s => [ctx (pointee s)]
                            | None => []
                            end))
  /\ (forall ch1 ready,
         destructor fuel ch = Some (ch1, ready) ->
         ch1 = ch'
         /\ exists lp' lc',
             context_slist.listed (waiting_producers_ ch) (next_of ch) lp'
             /\ context_slist.listed (waiting_consumers_ ch) (next_of ch) lc'
             /\ ready = lp' ++ lc' ++ match slot_ ch with
                                      | Some s => [ctx (pointee s)]
                                      | None => []
                                      end)
  /\ context_slist.empty (waiting_producers_ ch') = true
  /\ context_slist.empty (waiting_consumers_ ch') = true
  /\ pop a v0 (S fuel') wakes ch' = Some ((channel_op_status.closed, v0), ch', [])
  /\ push_copy a s_addr value_ (S fuel') wakes ch'
     = Some (channel_op_status.closed, ch', [])
  /\ value_pop a (S fuel') wakes ch'
     = Some (throws {| code := operation_not_permitted |}, ch', []).
Proof.
  intros ch'. split_and!; try reflexivity.
  - intros Hp Hc Hlp Hlc. unfold destructor.
    rewrite (close_listed fuel ch lp lc Hp Hc Hlp Hlc).
    unfold try_pop_, set_slot_. cbn [slot_ closed_ waiting_producers_
                                      waiting_consumers_ next_of].
    destruct (slot_ ch) as [s|]; [|by rewrite app_nil_r].
    by rewrite <- app_assoc.
  - intros ch1 ready. unfold destructor.
    destruct (close fuel ch) as [[ch2 r2]|] eqn:Hclose; [|done].
    apply close_inv in Hclose as (lp' & lc' & Hp & Hc & -> & ->).
    unfold try_pop_, set_slot_. cbn [slot_ closed_ waiting_producers_
                                      waiting_consumers_ next_of].
    destruct (slot_ ch) as [s|]; intros [= <- <-];
      (split; [reflexivity|]); exists lp', lc';
      rewrite ?app_nil_r, <- ?app_assoc; done.
Qed.

(** X16.  A producer whose deadline fires while its slot is published takes
    the slot back, and only its own: if [slot_] still holds the address of
    its [s], the slot is cleared and a consumer that pops afterwards finds
    nothing and queues itself; if [slot_] holds the slot of another
    producer, or none, the channel is left as it is.  The queues, the links
    and the closed flag are never touched, and [unlink] is not called. *)
Theorem timed_out_producer_takes_back_own_slot ch a s consumer (v0 : value_type)
    (fuel : nat) :
  let ch' := (compare_exchange_strong (Some s) None ch).2 in
  push_wait_until_copy_resume fuel a s slot_published false ch
  = Some (Returned channel_op_status.timeout, ch', [])
  /\ push_wait_until_move_resume fuel a s slot_published false ch
     = Some (Returned channel_op_status.timeout, ch', [])
  /\ waiting_producers_ ch' = waiting_producers_ ch
  /\ waiting_consumers_ ch' = waiting_consumers_ ch
  /\ next_of ch' = next_of ch
  /\ closed_ ch' = closed_ ch
  /\ match slot_ ch with
     | Some published =>
         if bool_decide (addr published = addr s) then
           slot_ ch' = None
           /\ (is_closed ch = false ->
               (pop_iter consumer v0 ch').1.1 = Suspended consumer_queued None)
         else ch' = ch
     | None => ch' = ch
     end.
Proof.
  intros ch'.
  destruct (push_wait_until_resume_deadline fuel a s ch) as [Hcopy Hmove].
  split; [exact Hcopy|]. split; [exact Hmove|]. subst ch'.
  unfold compare_exchange_strong, same_slot.
  destruct ch as [[published|] c producers consumers links];
    cbn [slot_ closed_ waiting_producers_ waiting_consumers_ next_of].
  - destruct (bool_decide (addr published = addr s)); cbn [snd set_slot_ slot_
      closed_ waiting_producers_ waiting_consumers_ next_of].
    + split_and!; try reflexivity. unfold is_closed. cbn [closed_]. intros ->.
      match goal with
      | |- context [pop_iter consumer v0 ?c] =>
          pose proof (pop_iter_cases consumer v0 c) as H
      end.
      cbn [slot_ closed_] in H. by rewrite H.
    + split_and!; reflexivity.
  - split_and!; reflexivity.
Qed.

(** X18.  Only [close()] and the destructor close a channel: after any
    transitions of the other member functions, [is_closed()] returns what
    it returned before. *)
Theorem only_close_closes (fuel : nat) (trs : list (transition value_type))
    ch ch' :
  Forall (fun tr => tr <> do_close _ /\ tr <> do_destructor _) trs ->
  exec_all fuel trs ch = Some ch' ->
  is_closed ch' = is_closed ch.
Proof.
  unfold is_closed. revert ch.
  induction trs as [|tr trs IH]; intros ch Htrs; simpl.
  - by intros [= <-].
  - apply Forall_cons in Htrs as [[H1 H2] Htrs].
    destruct (exec fuel tr ch) as [ch1|] eqn:Hex; [|done]. intros Hall.
    rewrite (IH _ Htrs Hall). by eapply exec_closed_unchanged.
Qed.

(** X19.  A published slot is never overwritten: a transition of any member
    function leaves the slot pointer it finds, or clears it; it stores a
    new slot only where it finds [nullptr]. *)
Theorem published_slot_is_not_overwritten (fuel : nat)
    (tr : transition value_type) ch ch' s :
  slot_ ch = Some s -> exec fuel tr ch = Some ch' ->
  slot_ ch' = Some s \/ slot_ ch' = None.
Proof.
  intros Hs Hex. destruct ch as [sl c producers consumers links].
  simpl in Hs. subst sl.
  destruct tr; simpl in Hex; split_channel; auto.
Qed.

(** X23.  A consumer that waits on a queue which earlier waiters have left
    is not woken.  When [head_] of the consumers queue is [nullptr] while
    [tail_] is not the address of [head_], as after two waiters were popped
    one after the other, the [push] of a consumer that calls [pop] on the
    open channel with no slot links it behind a context that has left:
    the consumer suspends, [empty()] stays true, and the [push] of the next
    producer publishes its slot and makes nobody ready.  With
    [pop_wait_until] the same happens, and when the deadline fires [unlink]
    fails its assertion: the call has no defined result, whatever the
    fuel. *)
Theorem waiter_after_drain_is_lost ch consumer producer s (v0 : value_type)
    (tp : time_point) :
  is_closed ch = false -> slot_ ch = None ->
  context_slist.head_ (waiting_consumers_ ch) = None ->
  context_slist.tail_ (waiting_consumers_ ch) <> context_slist.head_cell ->
  let waiting := pop_iter consumer v0 ch in
  let timed := pop_wait_until_iter consumer v0 tp ch in
  let pushed := push_copy_iter producer s (left_by waiting) in
  waiting.1.1 = Suspended consumer_queued None
  /\ context_slist.empty (waiting_consumers_ (left_by waiting)) = true
  /\ (exists z, next_of (left_by waiting) !! z = Some consumer)
  /\ pushed.1.1 = Suspended slot_published None
  /\ slot_ (left_by pushed) = Some s
  /\ pushed.2 = []
  /\ timed.1.1 = Suspended consumer_queued (Some tp)
  /\ left_by timed = left_by waiting
  /\ (forall fuel,
         pop_wait_until_resume fuel consumer v0 false (left_by timed) = None)
  /\ (forall fuel,
         pop_wait_until consumer v0 tp fuel [(false, left_by timed)] ch = None).
Proof.
  intros Hc Hs Hhead Htail waiting timed pushed. unfold is_closed in Hc.
  destruct (push_behind_stale_tail consumer _ (next_of ch) Hhead Htail)
    as [Hhead' Hlink].
  assert (Hwaiting : waiting
                     = (Suspended consumer_queued None,
                        {| slot_ := None; closed_ := false;
                           waiting_producers_ := waiting_producers_ ch;
                           waiting_consumers_ :=
                             (context_slist.push consumer (waiting_consumers_ ch)
                                (next_of ch)).1;
                           next_of :=
                             (context_slist.push consumer (waiting_consumers_ ch)
                                (next_of ch)).2 |},
                        [])).
  { pose proof (pop_iter_cases consumer v0 ch) as H. by rewrite Hs, Hc in H. }
  assert (Htimed : timed
                   = (Suspended consumer_queued (Some tp), left_by waiting, [])).
  { pose proof (pop_wait_until_iter_cases consumer v0 tp ch) as H.
    rewrite Hs, Hc in H. by rewrite Hwaiting. }
  assert (Hpushed : pushed.1.1 = Suspended slot_published None
                    /\ slot_ (left_by pushed) = Some s /\ pushed.2 = []).
  { subst pushed. rewrite Hwaiting. unfold left_by. cbn [fst snd].
    match goal with
    | |- context [push_copy_iter producer s ?c] =>
        pose proof (push_copy_iter_cases producer s c) as H
    end.
    cbn [slot_ closed_ waiting_producers_ waiting_consumers_ next_of] in H.
    rewrite H. cbn [fst snd slot_]. rewrite Hhead'. done. }
  assert (Hoff : forall fuel,
             pop_wait_until_resume fuel consumer v0 false (left_by waiting) = None).
  { intros fuel.
    apply (pop_wait_until_resume_off_chain fuel consumer v0 _ []);
      [|apply not_elem_of_nil].
    rewrite Hwaiting. unfold left_by. cbn [fst snd waiting_consumers_ next_of].
    split; [done|exact Hhead']. }
  rewrite Htimed. unfold left_by at 4 5 6. cbn [fst snd].
  split_and!; try apply Hpushed; try reflexivity; try exact Hoff.
  - by rewrite Hwaiting.
  - rewrite Hwaiting. unfold left_by. cbn [fst snd waiting_consumers_].
    unfold context_slist.empty. by rewrite Hhead'.
  - rewrite Hwaiting. unfold left_by. cbn [fst snd next_of]. exact Hlink.
  - intros [|fuel]; [reflexivity|]. unfold pop_wait_until. cbn [call].
    fold timed. rewrite Htimed. by rewrite Hoff.
Qed.

(** X24.  A waiter that is in the chain of its queue when its deadline
    fires is spliced out.  When the chain from [head_] of the consumers
    queue is [l1], the consumer, [l2], without repetition, the resumption of
    [pop_wait_until] after the deadline returns [timeout] with the caller's
    value untouched; afterwards the chain is [l1] followed by [l2], the link
    of the consumer is [nullptr], the slot pointer, the closed flag, the
    producers queue and the links of the contexts outside the chain are as
    before, and [tail_] has not moved.  Likewise for a producer in the chain
    of the producers queue and both overloads of [push_wait_until]. *)
Theorem timed_out_member_leaves_chain ch active_ctx s (v0 : value_type)
    (l1 l2 : list context) (fuel : nat) :
  NoDup (l1 ++ active_ctx :: l2) -> length l1 < fuel ->
  (context_slist.listed (waiting_consumers_ ch) (next_of ch)
     (l1 ++ active_ctx :: l2) ->
   exists ch',
     pop_wait_until_resume fuel active_ctx v0 false ch
     = Some (Returned (channel_op_status.timeout, v0), ch', [])
     /\ context_slist.listed (waiting_consumers_ ch') (next_of ch') (l1 ++ l2)
     /\ next_of ch' !! active_ctx = None
     /\ context_slist.tail_ (waiting_consumers_ ch')
        = context_slist.tail_ (waiting_consumers_ ch)
     /\ slot_ ch' = slot_ ch /\ closed_ ch' = closed_ ch
     /\ waiting_producers_ ch' = waiting_producers_ ch
     /\ (forall x, x ∉ l1 ++ active_ctx :: l2 ->
                   next_of ch' !! x = next_of ch !! x))
  /\ (context_slist.listed (waiting_producers_ ch) (next_of ch)
        (l1 ++ active_ctx :: l2) ->
      exists ch',
        push_wait_until_copy_resume fuel active_ctx s producer_queued false ch
        = Some (Returned channel_op_status.timeout, ch', [])
        /\ push_wait_until_move_resume fuel active_ctx s producer_queued false ch
           = Some (Returned channel_op_status.timeout, ch', [])
        /\ context_slist.listed (waiting_producers_ ch') (next_of ch') (l1 ++ l2)
        /\ next_of ch' !! active_ctx = None
        /\ context_slist.tail_ (waiting_producers_ ch')
           = context_slist.tail_ (waiting_producers_ ch)
        /\ slot_ ch' = slot_ ch /\ closed_ ch' = closed_ ch
        /\ waiting_consumers_ ch' = waiting_consumers_ ch
        /\ (forall x, x ∉ l1 ++ active_ctx :: l2 ->
                      next_of ch' !! x = next_of ch !! x)).
Proof.
  intros Hnd Hfuel. split; intros Hl;
    destruct (unlink_member _ _ _ _ _ fuel Hnd Hl Hfuel)
      as (q' & links' & Hun & Hl' & Hnil & Htail & Hframe).
  - unfold pop_wait_until_resume. cbn [negb]. rewrite Hun.
    eexists. split; [reflexivity|].
    cbn [set_waiting_consumers_ slot_ closed_ waiting_producers_
         waiting_consumers_ next_of].
    split_and!; done.
  - unfold push_wait_until_copy_resume, push_wait_until_move_resume.
    cbn [negb]. rewrite Hun.
    eexists. split; [reflexivity|]. split; [reflexivity|].
    cbn [set_waiting_producers_ slot_ closed_ waiting_producers_
         waiting_consumers_ next_of].
    split_and!; done.
Qed.


End channel_more.

Lemma channel_calls_return_statuses_witness :
  let ch : t nat :=
    {| slot_ := None; closed_ := true;
       waiting_producers_ := context_slist.init;
       waiting_consumers_ := context_slist.init; next_of := ∅ |} in
  push_copy 1 100 7 1 [] ch = Some (channel_op_status.closed, ch, [])
  /\ (channel_op_status.closed = channel_op_status.success
      \/ channel_op_status.closed = channel_op_status.closed).
Proof.
  intros ch.
  assert (H : push_copy 1 100 7 1 [] ch = Some (channel_op_status.closed, ch, []))
    by reflexivity.
  split; [exact H|].
  destruct (channel_calls_return_statuses 1 2 100 7 0 0 0 1 [] ch ch []
              channel_op_status.closed) as [Hst _].
  apply Hst. left. exact H.
Defined.

Lemma pop_results_witness :
  let s := address_of 100 (slot_copy 42 1).1 in
  let published := left_by (push_copy_iter 1 s (init ∅ : t nat)) in
  pop 2 0 1 [] published = Some ((channel_op_status.success, 42), init ∅, [1])
  /\ exists ch0 s0,
      ch0 = published /\ slot_ ch0 = Some s0 /\ 42 = value (pointee s0)
      /\ last [1] = Some (ctx (pointee s0)).
Proof.
  intros s published.
  destruct (pop_results 2 0 42 0 [] published (init ∅) [1]
              channel_op_status.success) as (Hpos & _ & _).
  destruct (pop_results 2 0 42 1 [] published (init ∅) [1]
              channel_op_status.success) as (_ & _ & Hinv).
  assert (H : pop 2 0 1 [] published
              = Some ((channel_op_status.success, 42), init ∅, [1]))
    by exact (Hpos s eq_refl).
  split; [exact H|].
  destruct (Hinv H) as (ch0 & [->|[woken Hin]] & Hcases).
  - destruct Hcases as [(_ & s0 & Hs & Hv & _ & Hlast)|(Hbad & _)];
      [|discriminate Hbad].
    exists published, s0. done.
  - by apply elem_of_nil in Hin.
Defined.

Lemma closed_channel_is_drained_first_witness :
  let closed : t nat :=
    {| slot_ := None; closed_ := true;
       waiting_producers_ := context_slist.init;
       waiting_consumers_ := context_slist.init; next_of := ∅ |} in
  let ch : t nat :=
    {| slot_ := Some (address_of 100 (mk_slot 7 1)); closed_ := true;
       waiting_producers_ := context_slist.init;
       waiting_consumers_ := context_slist.init; next_of := ∅ |} in
  pop 2 0 1 [] ch = Some ((channel_op_status.success, 7), closed, [1])
  /\ pop 3 5 1 [] closed = Some ((channel_op_status.closed, 5), closed, []).
Proof.
  intros closed ch.
  exact (closed_channel_is_drained_first ch (address_of 100 (mk_slot 7 1))
           2 3 0 5 0 0 [] [] eq_refl eq_refl).
Defined.

(** The consumers 4 and 5 wait on a fresh channel that is then destroyed. *)
Lemma destructor_wakes_everybody_witness :
  let ch : t nat := left_by (pop_iter 5 0 (left_by (pop_iter 4 0 (init ∅)))) in
  exists ch', destructor 3 ch = Some (ch', [4; 5]) /\ is_closed ch' = true.
Proof.
  intros ch.
  destruct (destructor_wakes_everybody ch [] [4; 5] 1 100 7 0 3 0 []) as [H _].
  eexists. split.
  - apply H; [split; [done|reflexivity]|split; [by vm_compute|reflexivity]
              |simpl; lia|simpl; lia].
  - reflexivity.
Defined.

Lemma timed_out_producer_takes_back_own_slot_witness :
  let s := address_of 100 (mk_slot 7 1) in
  let ch : t nat :=
    {| slot_ := Some s; closed_ := false;
       waiting_producers_ := context_slist.init;
       waiting_consumers_ := context_slist.init; next_of := ∅ |} in
  push_wait_until_copy_resume 1 1 s slot_published false ch
  = Some (Returned channel_op_status.timeout, init ∅, [])
  /\ (pop_iter 2 0 (init ∅ : t nat)).1.1 = Suspended consumer_queued None.
Proof.
  intros s ch.
  destruct (timed_out_producer_takes_back_own_slot ch 1 s 2 0 1)
    as (Hcopy & _ & _ & _ & _ & _ & _ & Hpop).
  split; [exact Hcopy|]. apply Hpop. reflexivity.
Defined.

Lemma only_close_closes_witness :
  exists ch' : t nat,
    exec_all 1 [do_push_copy _ 1 (address_of 100 (mk_slot 7 1)); do_pop _ 2 0;
                do_pop_wait_until _ 3 0 50;
                do_pop_wait_until_resume _ 3 0 false] (init ∅) = Some ch'
    /\ is_closed ch' = false.
Proof.
  assert (H : exists ch' : t nat,
             exec_all 1 [do_push_copy _ 1 (address_of 100 (mk_slot 7 1));
                         do_pop _ 2 0; do_pop_wait_until _ 3 0 50;
                         do_pop_wait_until_resume _ 3 0 false] (init ∅)
             = Some ch')
    by (eexists; by vm_compute).
  destruct H as [ch' H]. exists ch'. split; [exact H|].
  refine (only_close_closes 1 _ (init ∅) ch' _ H).
  repeat constructor; discriminate.
Defined.

Lemma published_slot_is_not_overwritten_witness :
  let s := address_of 100 (mk_slot 7 1) in
  let ch : t nat :=
    {| slot_ := Some s; closed_ := false;
       waiting_producers_ := context_slist.init;
       waiting_consumers_ := context_slist.init; next_of := ∅ |} in
  exists ch',
    exec 1 (do_push_move _ 2 (address_of 200 (mk_slot 8 2))) ch = Some ch'
    /\ (slot_ ch' = Some s \/ slot_ ch' = None).
Proof.
  intros s ch. eexists. split; [reflexivity|].
  apply (published_slot_is_not_overwritten 1
           (do_push_move _ 2 (address_of 200 (mk_slot 8 2))) ch _ s);
    reflexivity.
Defined.

(** The consumers 1 and 2 wait and are served one after the other; consumer
    3 then waits, and the next producer wakes nobody. *)
Lemma waiter_after_drain_is_lost_witness :
  let s := address_of 100 (mk_slot 7 9) in
  let d2 := left_by (pop_iter 2 0 (left_by (pop_iter 1 0 (init ∅ : t nat)))) in
  let d4 := left_by (pop_iter 1 0 (left_by (push_copy_iter 9 s d2))) in
  let d6 := left_by (pop_iter 2 0 (left_by (push_copy_iter 9 s d4))) in
  (push_copy_iter 9 s d2).2 = [1]
  /\ (push_copy_iter 9 s d4).2 = [2]
  /\ (pop_iter 3 0 d6).1.1 = Suspended consumer_queued None
  /\ (push_copy_iter 9 s (left_by (pop_iter 3 0 d6))).2 = []
  /\ pop_wait_until 3 0 50 2 [(false, left_by (pop_wait_until_iter 3 0 50 d6))] d6
     = None.
Proof.
  intros s d2 d4 d6.
  assert (Htail : context_slist.tail_ (waiting_consumers_ d6)
                  <> context_slist.head_cell) by (by vm_compute).
  destruct (waiter_after_drain_is_lost d6 3 9 s 0 50
              eq_refl eq_refl eq_refl Htail)
    as (H1 & _ & _ & _ & _ & H2 & _ & _ & _ & H3).
  split; [reflexivity|]. split; [reflexivity|].
  split; [exact H1|]. split; [exact H2|exact (H3 2)].
Defined.

(** The consumers 1 and 2 wait with a deadline; the deadline of 1 fires. *)
Lemma timed_out_member_leaves_chain_witness :
  let c2 : t nat :=
    left_by (pop_wait_until_iter 2 0 50
               (left_by (pop_wait_until_iter 1 0 50 (init ∅)))) in
  exists ch',
    pop_wait_until_resume 1 1 0 false c2
    = Some (Returned (channel_op_status.timeout, 0), ch', [])
    /\ context_slist.listed (waiting_consumers_ ch') (next_of ch') [2]
    /\ next_of ch' !! 1 = None.
Proof.
  intros c2.
  assert (Hnd : NoDup ([] ++ [1; 2])).
  { apply NoDup_ListNoDup. repeat constructor; simpl; intuition lia. }
  assert (Hl : context_slist.listed (waiting_consumers_ c2) (next_of c2)
                 ([] ++ [1; 2])).
  { split; [by vm_compute|reflexivity]. }
  destruct (timed_out_member_leaves_chain c2 1 (address_of 100 (mk_slot 7 1)) 0
              [] [2] 1 Hnd (Nat.lt_0_1)) as [H _].
  destruct (H Hl) as (ch' & Hres & Hl' & Hnil & _).
  exists ch'. split; [exact Hres|]. split; [exact Hl'|exact Hnil].
Defined.


(** ** [unbuffered_channel::iterator] *)

Section iterator_facts.
Context {value_type : Type}.
Implicit Types (ch : t value_type) (it : iterator value_type).

(** What a [value_pop] that has returned has done. *)
Lemma value_pop_returns a fuel wakes ch x ch' ready :
  value_pop a fuel wakes ch = Some (x, ch', ready) ->
  exists ch0,
    (ch0 = ch \/ exists woken, (woken, ch0) ∈ wakes)
    /\ match x with
       | throws e =>
           is_closed ch0 = true /\ slot_ ch0 = None /\ ch' = ch0
       | returns v =>
           exists s,
             slot_ ch0 = Some s /\ v = value (pointee s)
             /\ ch' = {| slot_ := None; closed_ := closed_ ch0;
                         waiting_producers_ :=
                           (context_slist.pop (waiting_producers_ ch0)
                              (next_of ch0)).2;
                         waiting_consumers_ := waiting_consumers_ ch0;
                         next_of := next_of ch0 |}
       end.
Proof.
  pose proof (value_pop_iter_cases (value_type := value_type) a) as Hround.
  intros H. unfold value_pop in H.
  apply call_returns_at in H
    as [(ch0 & r & pre & Hat & Hit & _)|(w & woken & chw & r & pre & _ & Hres & _)].
  - exists ch0. split; [exact Hat|].
    specialize (Hround ch0). unfold is_closed.
    destruct (slot_ ch0) as [s|] eqn:Hs.
    + rewrite Hround in Hit. inversion Hit; subst. exists s. done.
    + destruct (closed_ ch0) eqn:Hc; rewrite Hround in Hit; inversion Hit; subst.
      done.
  - inversion Hres.
  - intros c c' r Hit. specialize (Hround c).
    destruct (slot_ c); [|destruct (closed_ c)]; rewrite Hround in Hit;
      inversion Hit.
  - intros w b c o c' r H0 _. by inversion H0.
Qed.

(** X20.  An iterator becomes the end iterator exactly when [value_pop]
    throws.  On a channel with a slot published, [begin] and [++] store the
    value of that slot in the iterator, which keeps pointing to the channel,
    and claim the slot; on a closed channel with no slot, [begin] returns
    [end()] at once.  After [begin] or [++] has returned, [value_pop] ran
    its last round on the channel it was called on or found at a wake:
    either that channel was closed with no slot published and is left as it
    was, the iterator equals [end()] and the stored value is as it was; or
    a slot was published in that channel, the iterator still points to its
    channel, differs from [end()], [*it] is the value of that slot, and the
    slot is claimed. *)
Theorem iterator_ends_when_channel_is_closed a fuel
    (wakes : list (bool * t value_type)) it ch it' ch' ready chan :
  let claimed (c : t value_type) :=
    {| slot_ := None; closed_ := closed_ c;
       waiting_producers_ :=
         (context_slist.pop (waiting_producers_ c) (next_of c)).2;
       waiting_consumers_ := waiting_consumers_ c;
       next_of := next_of c |} in
  (increment_ a fuel wakes it ch = Some (it', ch', ready) ->
   exists ch0,
     (ch0 = ch \/ exists woken, (woken, ch0) ∈ wakes)
     /\ ((eq_iterator it' end_ = true /\ is_closed ch0 = true
          /\ slot_ ch0 = None /\ ch' = ch0 /\ storage_ it' = storage_ it)
         \/ (ne_iterator it' end_ = true /\ chan_ it' = chan_ it
             /\ exists s,
                 slot_ ch0 = Some s
                 /\ deref_iterator it' = Some (value (pointee s))
                 /\ ch' = claimed ch0)))
  /\ (is_closed ch = true -> slot_ ch = None ->
      begin chan a (S fuel) wakes ch
      = Some ({| chan_ := None; storage_ := None |}, ch, []))
  /\ (forall s,
         slot_ ch = Some s ->
         begin chan a (S fuel) wakes ch
         = Some ({| chan_ := Some chan; storage_ := Some (value (pointee s)) |},
                 claimed ch,
                 notified (context_slist.head_ (waiting_producers_ ch))
                 ++ [ctx (pointee s)]))
  /\ (forall s c,
         slot_ ch = Some s -> chan_ it = Some c ->
         pre_increment a (S fuel) wakes it ch
         = Some ({| chan_ := Some c; storage_ := Some (value (pointee s)) |},
                 claimed ch,
                 notified (context_slist.head_ (waiting_producers_ ch))
                 ++ [ctx (pointee s)])).
Proof.
  intros claimed.
  pose proof (value_pop_iter_cases (value_type := value_type) a ch) as Hround.
  split; [|split; [|split]].
  - unfold increment_. destruct (chan_ it) as [c|] eqn:Hchan; [|done].
    destruct (value_pop a fuel wakes ch) as [[[x ch1] r1]|] eqn:Hpop; [|done].
    apply value_pop_returns in Hpop as (ch0 & Hat & Hpop).
    destruct x as [v|e]; intros H; inversion H; subst; clear H;
      exists ch0; (split; [exact Hat|]).
    + right. unfold ne_iterator, eq_iterator, deref_iterator. simpl.
      rewrite ?Hchan. split; [done|]. split; [done|].
      destruct Hpop as (s & Hs & -> & ->). eauto.
    + left. destruct Hpop as (Hc & Hs & ->). done.
  - intros Hc Hs. unfold is_closed in Hc. rewrite Hs, Hc in Hround.
    unfold begin, increment_, value_pop. cbn [chan_ call storage_].
    rewrite Hround. reflexivity.
  - intros s Hs. rewrite Hs in Hround.
    unfold begin, increment_, value_pop. cbn [chan_ call storage_].
    rewrite Hround. reflexivity.
  - intros s c Hs Hchan. rewrite Hs in Hround.
    unfold pre_increment, increment_, value_pop. rewrite Hchan. cbn [call].
    rewrite Hround. reflexivity.
Qed.

(** X21.  A range-for over a closed channel visits the value of the slot
    that is still published, if there is one, and nothing else, and leaves
    the channel closed with no slot. *)
Theorem range_for_over_closed_channel (laps chan : nat) a (fuel : nat) ch :
  is_closed ch = true ->
  exists ch',
    range_for (S laps) chan a (S fuel) ch
    = Some (match slot_ ch with
            | Some s => [value (pointee s)]
            | None => []
            end, ch')
    /\ slot_ ch' = None /\ is_closed ch' = true.
Proof.
  intros Hc. unfold is_closed in Hc.
  pose proof (value_pop_iter_cases (value_type := value_type) a) as Hround.
  pose proof (Hround ch) as Hfirst.
  unfold range_for, begin, increment_, value_pop. cbn [chan_ call storage_].
  destruct (slot_ ch) as [s|] eqn:Hs.
  - rewrite Hc in Hfirst. rewrite Hfirst. cbn [range_loop].
    unfold ne_iterator at 1, deref_iterator at 1, end_ at 1. cbn [chan_ storage_].
    rewrite bool_decide_eq_false_2 by done. cbn [negb].
    unfold pre_increment, increment_, value_pop. cbn [chan_ call].
    match goal with
    | |- context [value_pop_iter a ?c] => pose proof (Hround c) as Hsecond
    end.
    cbn [slot_ closed_] in Hsecond. rewrite Hsecond.
    eexists. split; [destruct laps; reflexivity|]. split; reflexivity.
  - rewrite Hc in Hfirst. rewrite Hfirst.
    eexists. split; [reflexivity|]. done.
Qed.
End iterator_facts.

Lemma iterator_ends_when_channel_is_closed_witness :
  let closed : t nat :=
    {| slot_ := None; closed_ := true;
       waiting_producers_ := context_slist.init;
       waiting_consumers_ := context_slist.init; next_of := ∅ |} in
  let ch : t nat :=
    {| slot_ := Some (address_of 100 (mk_slot 7 1)); closed_ := true;
       waiting_producers_ := context_slist.init;
       waiting_consumers_ := context_slist.init; next_of := ∅ |} in
  begin 9 1 1 [] closed = Some ({| chan_ := None; storage_ := None |}, closed, [])
  /\ begin 9 1 1 [] ch = Some ({| chan_ := Some 9; storage_ := Some 7 |}, closed, [1]).
Proof.
  intros closed ch.
  destruct (iterator_ends_when_channel_is_closed 1 0 [] end_ closed end_ closed [] 9)
    as (_ & Hend & _).
  destruct (iterator_ends_when_channel_is_closed 1 0 [] end_ ch end_ closed [] 9)
    as (_ & _ & Hval & _).
  split; [apply Hend; reflexivity|].
  exact (Hval (address_of 100 (mk_slot 7 1)) eq_refl).
Defined.

Lemma range_for_over_closed_channel_witness :
  let ch : t nat :=
    {| slot_ := Some (address_of 100 (mk_slot 7 1)); closed_ := true;
       waiting_producers_ := context_slist.init;
       waiting_consumers_ := context_slist.init; next_of := ∅ |} in
  exists ch', range_for 1 9 2 1 ch = Some ([7], ch')
              /\ slot_ ch' = None /\ is_closed ch' = true.
Proof.
  intros ch. apply (range_for_over_closed_channel 0 9 2 0 ch). reflexivity.
Defined.

(** ** [broadcast] *)

Section broadcast_facts.
Import broadcast.
Implicit Types (st : state) (th : thread).

Lemma move_to_same th p f : move_to th p f th = p.
Proof. unfold move_to. by rewrite decide_True. Qed.

Lemma move_to_other th p f x : x <> th -> move_to th p f x = f x.
Proof. intros. unfold move_to. by rewrite decide_False. Qed.

Lemma serial_snoc slots ths th :
  serial slots (ths ++ [th]) = serial slots ths ++ dispatch slots th.
Proof. unfold serial. rewrite flat_map_app. simpl. by rewrite app_nil_r. Qed.

Lemma dispatch_snoc called s th :
  dispatch (called ++ [s]) th = dispatch called th ++ [(th, s)].
Proof. unfold dispatch. by rewrite map_app. Qed.

(** A step of [notify] keeps the calls serialized and the connected slots
    as they are. *)
Lemma notify_step_serialized th st st' :
  serialized st -> notify_step th st = Some st' ->
  serialized st' /\ signal_s st' = signal_s st.
Proof.
  unfold serialized, notify_step. intros Hinv Hstep.
  destruct (mutex_s st) as [owner|] eqn:Hm.
  - destruct Hinv as (ths & called & pending & Hown & Hsplit & Hothers & Hlog).
    destruct (decide (th = owner)) as [->|Hne].
    + rewrite Hown in Hstep. destruct pending as [|s pending].
      * injection Hstep as <-. simpl. split; [|reflexivity]. split.
        -- intros x. destruct (decide (x = owner)) as [->|Hx].
           ++ apply move_to_same.
           ++ rewrite move_to_other by done. by apply Hothers.
        -- exists (ths ++ [owner]). rewrite serial_snoc, Hlog.
           rewrite app_nil_r in Hsplit. by rewrite Hsplit.
      * injection Hstep as <-. simpl. split; [|reflexivity].
        exists ths, (called ++ [s]), pending. split_and!.
        -- apply move_to_same.
        -- by rewrite <- app_assoc.
        -- intros x Hx. rewrite move_to_other by done. by apply Hothers.
        -- rewrite Hlog, dispatch_snoc. by rewrite app_assoc.
    + rewrite (Hothers th Hne) in Hstep. done.
  - destruct Hinv as [Hall [ths Hlog]]. rewrite Hall in Hstep.
    injection Hstep as <-. simpl. split; [|reflexivity].
    exists ths, [], (signal_s st). split_and!.
    + apply move_to_same.
    + reflexivity.
    + intros x Hx. rewrite move_to_other by done. apply Hall.
    + rewrite Hlog. unfold dispatch. simpl. by rewrite app_nil_r.
Qed.

Lemma run_cons th schedule st :
  run (th :: schedule) st = run schedule (default st (notify_step th st)).
Proof. reflexivity. Qed.

Lemma run_serialized schedule st :
  serialized st ->
  serialized (run schedule st) /\ signal_s (run schedule st) = signal_s st.
Proof.
  revert st. induction schedule as [|th schedule IH]; intros st Hinv; [done|].
  rewrite run_cons.
  destruct (notify_step th st) as [st'|] eqn:Hstep; simpl.
  - destruct (notify_step_serialized _ _ _ Hinv Hstep) as [Hinv' Hsig].
    destruct (IH st' Hinv') as [Hrun Hrun_sig]. split; [exact Hrun|].
    rewrite Hrun_sig. exact Hsig.
  - by apply IH.
Qed.

(** In a serialized state at most one thread is calling slots, and it owns
    the mutex. *)
Lemma serialized_exclusive st th :
  serialized st -> dispatching st th -> mutex_s st = Some th.
Proof.
  unfold serialized, dispatching. intros Hinv [pending Hth].
  destruct (mutex_s st) as [owner|].
  - destruct Hinv as (_ & _ & _ & _ & _ & Hothers & _).
    destruct (decide (th = owner)) as [->|Hne]; [done|].
    rewrite (Hothers th Hne) in Hth. done.
  - destruct Hinv as [Hall _]. rewrite Hall in Hth. done.
Qed.
End broadcast_facts.

(** C8.  Concurrent [notify] calls on one sink are serialized.  However the
    threads are interleaved, the slot calls made so far are a sequence of
    whole dispatches, each by one thread and in the order of connection,
    followed by the calls of the thread that holds the mutex now; and two
    threads are never calling slots at the same time. *)
Theorem notify_calls_are_serialized
    (slots : list broadcast.slot_type) (schedule : list broadcast.thread) :
  let st := broadcast.run schedule (broadcast.init slots) in
  broadcast.signal_s st = slots
  /\ (exists ths called,
         broadcast.invoked st
         = broadcast.serial slots ths
           ++ match broadcast.mutex_s st with
              | Some owner => broadcast.dispatch called owner
              | None => []
              end
         /\ called `prefix_of` slots)
  /\ (forall th1 th2,
         broadcast.dispatching st th1 -> broadcast.dispatching st th2 -> th1 = th2)
  /\ (forall th, broadcast.dispatching st th -> broadcast.mutex_s st = Some th).
Proof.
  intros st.
  assert (Hinit : broadcast.serialized (broadcast.init slots)).
  { split; [done|]. by exists []. }
  destruct (run_serialized schedule _ Hinit) as [Hinv Hsig].
  fold st in Hinv, Hsig. simpl in Hsig.
  split_and!.
  - exact Hsig.
  - unfold broadcast.serialized in Hinv.
    destruct (broadcast.mutex_s st) as [owner|].
    + destruct Hinv as (ths & called & pending & _ & Hsplit & _ & Hlog).
      exists ths, called. rewrite <- Hsig. split; [done|].
      rewrite <- Hsplit. by apply prefix_app_r.
    + destruct Hinv as [_ [ths Hlog]]. exists ths, [].
      rewrite app_nil_r, <- Hsig. split; [done|]. apply prefix_nil.
  - intros th1 th2 H1 H2.
    pose proof (serialized_exclusive _ _ Hinv H1) as E1.
    pose proof (serialized_exclusive _ _ Hinv H2) as E2.
    congruence.
  - intros th Hth. by apply serialized_exclusive.
Qed.

(** Two threads that take turns step by step on the slots 10 and 20: the
    second one is held back until the first has called both. *)
Lemma notify_calls_are_serialized_witness :
  let st := broadcast.run [1; 2; 1; 2; 1] (broadcast.init [10; 20]) in
  broadcast.invoked st = [(1, 10); (1, 20)]
  /\ broadcast.mutex_s st = Some 1
  /\ broadcast.invoked
       (broadcast.run [1; 2; 1; 2; 1; 2; 1; 2; 2; 2; 2] (broadcast.init [10; 20]))
     = [(1, 10); (1, 20); (2, 10); (2, 20)].
Proof.
  intros st. split; [reflexivity|]. split; [|reflexivity].
  destruct (notify_calls_are_serialized [10; 20] [1; 2; 1; 2; 1]) as (_ & _ & _ & H).
  apply H. exists []. reflexivity.
Defined.

(** ** [broadcast]: a call without contention *)

Section broadcast_more.
Import broadcast.
Implicit Types (st : state) (th : thread).

Lemma dispatch_runs pending : forall st th,
  place_of st th = in_signal pending ->
  let st' := run (replicate (S (length pending)) th) st in
  mutex_s st' = None
  /\ place_of st' th = outside
  /\ invoked st' = invoked st ++ dispatch pending th
  /\ signal_s st' = signal_s st
  /\ (forall x, x <> th -> place_of st' x = place_of st x).
Proof.
  induction pending as [|s pending IH]; intros st th Hplace.
  - cbn [length replicate]. rewrite run_cons. unfold notify_step.
    rewrite Hplace. cbn. rewrite move_to_same, app_nil_r.
    split_and!; try done. intros x Hx. by apply move_to_other.
  - cbn [length]. rewrite replicate_S, run_cons. unfold notify_step.
    rewrite Hplace. cbn [default].
    match goal with |- context [run _ ?st1] => set (st1' := st1) end.
    destruct (IH st1' th) as (H1 & H2 & H3 & H4 & H5).
    { subst st1'. cbn [place_of]. apply move_to_same. }
    cbn zeta. split_and!; [exact H1|exact H2| |exact H4|].
    + rewrite H3. subst st1'. cbn [invoked]. unfold dispatch. simpl.
      by rewrite <- app_assoc.
    + intros x Hx. rewrite (H5 x Hx). subst st1'. cbn [place_of].
      by apply move_to_other.
Qed.

(** X22.  A [notify] that finds the mutex free completes: the thread takes
    the mutex, calls every connected slot once, in the order of connection,
    and releases the mutex; the other threads are where they were and the
    slots stay connected. *)
Theorem notify_alone_completes st th :
  mutex_s st = None -> place_of st th = outside ->
  let st' := run (replicate (length (signal_s st) + 2) th) st in
  mutex_s st' = None
  /\ place_of st' th = outside
  /\ invoked st' = invoked st ++ dispatch (signal_s st) th
  /\ signal_s st' = signal_s st
  /\ (forall x, x <> th -> place_of st' x = place_of st x).
Proof.
  intros Hm Hplace.
  replace (length (signal_s st) + 2) with (S (S (length (signal_s st)))) by lia.
  rewrite replicate_S, run_cons. unfold notify_step. rewrite Hplace, Hm.
  cbn [default].
  match goal with |- context [run _ ?st1] => set (st1' := st1) end.
  destruct (dispatch_runs (signal_s st) st1' th) as (H1 & H2 & H3 & H4 & H5).
  { subst st1'. cbn [place_of]. apply move_to_same. }
  cbn zeta. split_and!; [exact H1|exact H2|exact H3|exact H4|].
  intros x Hx. rewrite (H5 x Hx). subst st1'. cbn [place_of].
  by apply move_to_other.
Qed.

Lemma notify_alone_completes_witness :
  invoked (run (replicate 4 7) (init [10; 20])) = [(7, 10); (7, 20)]
  /\ mutex_s (run (replicate 4 7) (init [10; 20])) = None.
Proof.
  destruct (notify_alone_completes (init [10; 20]) 7 eq_refl eq_refl)
    as (H1 & _ & H3 & _).
  split; [exact H3|exact H1].
Defined.
End broadcast_more.

